(** * Masonry: a shallow embedding of [src/Masonry/Masonry.js]

    The grid engine of the Masonry component is embedded as Rocq
    functions over an explicit component record.

    Number model.  Pixel geometry ([top], [bottom], [height], [left],
    the gutter and the item width) is built from DOM [clientHeight]
    readings with [+], [-] and [*] only and is modelled in [Z]; the
    item width is taken as a whole number of pixels, as it is in the
    fixed-width layout ([columnWidth + gutterWidth]).  The render key
    of an inserted item and the virtualization window are results of
    double-precision arithmetic and are computed with the IEEE 754
    binary64 operations of [SpecFloat], rounding included; a key is
    kept as the exact rational value of its double.  Distances are
    symbolic ([jsnum]): a rational, the root of a rational, [Infinity]
    or [NaN].

    Effects.  Methods that read or write [this] run in the monad
    [M A := Masonry -> option (A * Masonry)]: the component record is
    threaded through the calls and [None] stands for a thrown exception
    ([TypeError] on a property read of [undefined], or the explicit
    [throw] of [calculateColumns]). *)

From Stdlib Require Import ZArith QArith Qround Lia Lqa.
From Stdlib Require Import Floats.SpecFloat.
From stdpp Require Import base list sorting.

Local Open Scope Z_scope.

(** ** Constants *)

Definition MAX_ITEMS_PER_INSERTION : nat := 1.

(** ** JavaScript numbers as doubles *)

(** A JavaScript number is an IEEE 754 binary64 value.  The
    operations are those of [SpecFloat] at precision 53 and maximal
    exponent 1024: each rounds its exact result to the nearest double,
    ties to even, and [NaN] and the infinities are values of their own.
    A double is a [spec_float] in canonical form ([valid_binary 53
    1024]); the operations return such values.  A field that is still
    [undefined] when arithmetic reads it is held as [S754_nan], which
    is what the arithmetic makes of it. *)
Definition double : Type := spec_float.

Definition fadd : double -> double -> double := SFadd 53 1024.
Definition fsub : double -> double -> double := SFsub 53 1024.
Definition fmul : double -> double -> double := SFmul 53 1024.
Definition fdiv : double -> double -> double := SFdiv 53 1024.

(** [a < b] and [a <= b]; both are [false] when an operand is [NaN]. *)
Definition flt : double -> double -> bool := SFltb.
Definition fle : double -> double -> bool := SFleb.

(** The double of an integer: the integer itself up to [2 ^ 53], the
    nearest double beyond. *)
Definition Z2SF (z : Z) : spec_float := binary_normalize 53 1024 z 0 false.

Coercion Z2SF : Z >-> spec_float.

(** The exact value of a finite double.  It is used for render keys
    only, which are finite: the integer part of a key plus a decimal
    below 10 stays below the overflow threshold. *)
Definition SF2Q (f : double) : Q :=
  match f with
  | S754_finite s m e =>
      ((if s then -1 else 1) * inject_Z (Zpos m) * 2 ^ e)%Q
  | _ => 0%Q
  end.

(** Multiplied against container height: the literal [0.7], the
    double nearest to 7/10. *)
Definition VIRTUAL_BUFFER_FACTOR : double := fdiv 7 10.

(** ** JavaScript numbers that may leave the rationals *)

(** The results of [calculateDistance] and [calculateColumns] may be
    the positive root of a rational, [Infinity] or [NaN]. *)
Inductive jsnum : Type :=
  | Rat (q : Q)
  | Sqrt (q : Q)
  | Infinity
  | NaN.

(** Sign of [a - b] as seen by a sort comparator; a [NaN] difference is
    treated as [0]. *)
Definition jsnum_compare (a b : jsnum) : comparison :=
  match a, b with
  | Rat x, Rat y => Qcompare x y
  | Rat x, Sqrt y => if Qle_bool 0 x then Qcompare (x * x) y else Lt
  | Sqrt x, Rat y => if Qle_bool 0 y then Qcompare x (y * y) else Gt
  | Sqrt x, Sqrt y => Qcompare x y
  | Infinity, Infinity => Eq
  | Infinity, NaN => Eq
  | NaN, _ => Eq
  | _, NaN => Eq
  | Infinity, _ => Gt
  | _, Infinity => Lt
  end.

(** [parseInt(String(q), 10)] for a number that is printed without an
    exponent, as a render key is (it is 0 or lies between 0.001 and
    1e21): the integer part, rounded toward zero. *)
Definition parseInt (q : Q) : Z := Z.quot (Qnum q) (Zpos (Qden q)).

(** [Array.prototype.sort(cmp)], as a stable insertion sort: [x] moves
    past [y] only when [cmp x y] is positive.  For a comparator that
    orders the elements consistently the result is the sorted array
    every engine returns, up to the order of elements that compare
    equal.  A comparator that is not consistent, as [a.distance -
    b.distance] is when a distance is [NaN], leaves the order to the
    engine; what is proved of such an array does not depend on its
    order. *)
Section Sort.
Context {A : Type} (cmp : A -> A -> comparison).

Fixpoint sort_insert (x : A) (l : list A) : list A :=
  match l with
  | [] => [x]
  | y :: r =>
      match cmp x y with
      | Gt => y :: sort_insert x r
      | _ => x :: l
      end
  end.

Fixpoint sort (l : list A) : list A :=
  match l with
  | [] => []
  | x :: r => sort_insert x (sort r)
  end.
End Sort.

(** ** Data model *)

Section Model.
Context {T : Type}.

(** [GridItemType<T>]; [component] (the rendered React element) is
    presentation only and is left out.  A field that the source
    leaves unset on a fresh [itemInfo = {}] holds [0] or [false]
    until it is assigned. *)
Record GridItem : Type := mkGridItem {
  key : Q;
  itemData : T;
  column : nat;
  width : Z;
  height : Z;
  left : Z;
  top : Z;
  bottom : Z;
  appended : bool;
}.

(** The scroll container, as far as the component reads it; [None] is
    a property the container does not have. *)
Record ScrollContainer : Type := mkScrollContainer {
  scrollY : option double;
  scrollTop : option double;
}.

(** The component instance [this]: props, [this.state] and the
    instance fields.  [gridHeight] is [state.height].
    [parentClientWidth] is [gridWrapper.parentNode.clientWidth], [None]
    when the wrapper is not attached to an [HTMLElement].  A
    server-rendered ref is represented by the
    [(clientWidth, clientHeight)] it reports once its width is set.
    [containerHeight] and [containerOffset] are [undefined] until
    [measureContainer] has run, which [componentDidMount] does not do
    before its first [updateVirtualBounds]: they hold [S754_nan]
    then. *)
Record Masonry : Type := mkMasonry {
  (* props *)
  columnWidth : Z;
  minCols : Z;
  scrollContainer : option ScrollContainer;
  (* DOM *)
  parentClientWidth : option Z;
  (* state *)
  gridItems : list (list GridItem);
  gridHeight : Z;
  minHeight : Z;
  viewportTop : double;
  viewportBottom : double;
  (* instance fields *)
  columnCount : nat;
  itemWidth : Z;
  gutterWidth : Z;
  insertedItemsCount : nat;
  itemKeyCounter : option nat;
  serverRefs : list (Z * Z);
  serverRefSizes : option (list (Z * Z));
  containerHeight : double;
  containerOffset : double;
}.

(** *** The component monad *)

Definition M (A : Type) : Type := Masonry -> option (A * Masonry).

Definition ret {A} (a : A) : M A := fun s => Some (a, s).
Definition bind {A B} (m : M A) (k : A -> M B) : M B :=
  fun s => match m s with
           | Some (a, s') => k a s'
           | None => None
           end.
Definition get : M Masonry := fun s => Some (s, s).
Definition put (s : Masonry) : M unit := fun _ => Some (tt, s).
Definition throw {A} : M A := fun _ => None.

(** *** getShortestColumn *)

(** The [for] loop of [getShortestColumn], started at column [col]
    with the columns [cols] still to visit. *)
Fixpoint getShortestColumn_from (gridItems : list (list GridItem))
    (cols : list (list GridItem)) (col min : nat) : nat :=
  match cols with
  | [] => min
  | colItems :: rest =>
      match last colItems with
      | None => col
      | Some lastItem =>
          match gridItems !! min ≫= last with
          | None => getShortestColumn_from gridItems rest (S col) col
          | Some currMin =>
              if bottom lastItem <? bottom currMin
              then getShortestColumn_from gridItems rest (S col) col
              else getShortestColumn_from gridItems rest (S col) min
          end
      end
  end.

(** Returns the index of the shortest column. *)
Definition getShortestColumn (gridItems : list (list GridItem)) : nat :=
  getShortestColumn_from gridItems gridItems 0 0.

(** *** calculateDistance *)

(** [distance(a, b)] on points given as [(x, y)] pairs. *)
Definition distance (a b : Z * Z) : jsnum :=
  let x := a.1 - b.1 in
  let y := a.2 - b.2 in
  Sqrt (inject_Z (x * x + y * y)).

Definition calculateDistance (this : Masonry) (A B : GridItem) : jsnum :=
  let width := columnWidth this in
  if (column A =? column B)%nat then
    if top A <? top B
    then Rat (inject_Z (top B - (bottom A + gutterWidth this) - 1))
    else Rat (inject_Z (top A - (bottom B + gutterWidth this) - 1))
  else if ((top A <=? top B) && (bottom A >=? top B))
          || ((top A <=? bottom B) && (bottom A >=? bottom B))
          || ((top B <=? top A) && (bottom B >=? top A)) then
    let columnWeight := 25 in
    let columnDistance :=
      (Z.abs (Z.of_nat (column A) - Z.of_nat (column B)) - 1) * columnWeight in
    (* columnDistance + Math.abs(A.top - B.top) / A.height *)
    if height A =? 0 then
      if top A =? top B then NaN else Infinity
    else
      Rat (inject_Z columnDistance
           + inject_Z (Z.abs (top A - top B)) / inject_Z (height A))%Q
  else if top A <? top B then
    if left A <? left B
    then distance (bottom A, left A + width) (top B, left B)
    else distance (bottom A, left A) (top B, left B + width)
  else
    if left A <? left B
    then distance (top A, left A + width) (bottom B, left B)
    else distance (top A, left A) (bottom B, left B + width).

(** *** getItemsRelatedTo *)

(** [array[i]] for a number [i] that may be negative. *)
Definition at_index {A} (l : list A) (i : Z) : option A :=
  if i <? 0 then None else l !! Z.to_nat i.

(** An entry of the local [allItems] array. *)
Record Candidate : Type := mkCandidate {
  cand_distance : jsnum;
  cand_columnIdx : nat;
  cand_itemIdx : nat;
}.

(** An entry of the returned array. *)
Record Related : Type := mkRelated {
  columnIdx : nat;
  itemIdx : nat;
  count : nat;
}.

(** The two nested [forEach] loops filling [allItems]. *)
Definition relatedCandidates (this : Masonry) (colIdx iIdx : Z)
    (itemA : GridItem) : list Candidate :=
  mjoin (imap (fun otherColIdx column_ =>
    omap (fun '(otherItemIdx, itemB) =>
      if (top itemB <? top itemA - 20)
         || ((colIdx =? Z.of_nat otherColIdx) && (iIdx =? Z.of_nat otherItemIdx))
      then None
      else Some {| cand_distance := calculateDistance this itemA itemB;
                   cand_columnIdx := otherColIdx;
                   cand_itemIdx := otherItemIdx |})
      (imap pair column_))
    (gridItems this)).

(** One round of the grouping loop on [columnToItemMapping]; the
    mapping is kept in ascending column order, the order in which
    [Object.keys] lists integer keys. *)
Fixpoint mapping_add (c i : nat) (m : list Related) : list Related :=
  match m with
  | [] => [{| columnIdx := c; itemIdx := i; count := 1 |}]
  | r :: rest =>
      if (columnIdx r =? c)%nat then
        {| columnIdx := columnIdx r; itemIdx := itemIdx r;
           count := count r + 1 |} :: rest
      else if (c <? columnIdx r)%nat then
        {| columnIdx := c; itemIdx := i; count := 1 |} :: m
      else r :: mapping_add c i rest
  end.

(** The grouping loop over the first [noItems] entries of the sorted
    [allItems] array, and the [Object.keys(...).map] that returns one
    entry per column. *)
Definition groupByColumn (noItems : nat) (allItems : list Candidate)
    : list Related :=
  foldl (fun m c => mapping_add (cand_columnIdx c) (cand_itemIdx c) m)
        [] (take noItems allItems).

Definition getItemsRelatedTo (colIdx iIdx : Z) (noItems : nat)
    : M (list Related) :=
  bind get (fun this =>
  match at_index (gridItems this) colIdx ≫= (fun col => at_index col iIdx) with
  | None => ret []
  | Some itemA =>
      let allItems := relatedCandidates this colIdx iIdx itemA in
      (* group these by column, insert by the lowest idx in the column *)
      let allItems :=
        sort (fun a b => jsnum_compare (cand_distance a) (cand_distance b))
             allItems in
      ret (groupByColumn noItems allItems)
  end).

(** *** insertItems *)

(** The measurement step: [measure w d] is the
    [(clientWidth, clientHeight)] of the rendering of [d] in a wrapper
    of width [w]. *)
Context (measure : Z -> T -> Z * Z).

(** [previousItemInColumn]: [gridItems[colIdx][itemIdx - 1]] when both
    indices are given and that item exists, else [null]. *)
Definition previousItem (gridItems : list (list GridItem))
    (colIdx itemIdx : option nat) : option GridItem :=
  match colIdx, itemIdx with
  | Some c, Some (S i) => gridItems !! c ≫= (fun col => col !! i)
  | _, _ => None
  end.

(** The choice of [items] among [newItems]. *)
Definition selectItems (this : Masonry) (newItems : list T)
    (forceUpdate : bool) : list T :=
  if forceUpdate then newItems
  else if (0 <? length (serverRefs this))%nat
          && (insertedItemsCount this <? length (serverRefs this))%nat then
    take (length (serverRefs this) - insertedItemsCount this) newItems
  else if (MAX_ITEMS_PER_INSERTION <? length newItems)%nat then
    take MAX_ITEMS_PER_INSERTION newItems
  else newItems.

(** [this.itemKeyCounter || 1] *)
Definition keyCounterOrOne (c : option nat) : nat :=
  match c with
  | Some (S n) => S n
  | _ => 1%nat
  end.

(** The render key of a new item, from the value of
    [this.itemKeyCounter] at that item.  For an inserted item the
    quotient and the sum are those of doubles, and
    [parseFloat(`${...}`)] gives the sum back as it is; the key of an
    appended item is the counter itself. *)
Definition itemKey (colIdx itemIdx : option nat)
    (previousItemInColumn : option GridItem) (counter : nat) : Q :=
  match colIdx, itemIdx with
  | Some _, Some _ =>
      let counterAsDecimal :=
        fdiv (Z2SF (Z.of_nat counter mod 10000)) (Z2SF 1000) in
      match previousItemInColumn with
      | Some p => SF2Q (fadd (Z2SF (parseInt (key p))) counterAsDecimal)
      | None => SF2Q counterAsDecimal
      end
  | _, _ => inject_Z (Z.of_nat counter)
  end.

(** The size of the item at feed position [actualIdx]: the size of
    its server-rendered ref when there is one, else its measurement. *)
Definition itemSize (sizes : option (list (Z * Z))) (itemWidth : Z)
    (actualIdx : nat) (d : T) : Z * Z :=
  match sizes ≫= (fun l => l !! actualIdx) with
  | Some sizeInfo => sizeInfo
  | None => measure itemWidth d
  end.

(** The [items.map] that builds the [itemInfo] blobs, from item
    [insertedItemIdx] on, with [counter] the current value of
    [this.itemKeyCounter]. *)
Fixpoint buildItemInfos (this : Masonry) (sizes : option (list (Z * Z)))
    (colIdx itemIdx : option nat) (previousItemInColumn : option GridItem)
    (items : list T) (insertedItemIdx counter : nat) : list GridItem :=
  match items with
  | [] => []
  | d :: rest =>
      let actualIdx := (insertedItemIdx + insertedItemsCount this)%nat in
      let size := itemSize sizes (itemWidth this) actualIdx d in
      {| key := itemKey colIdx itemIdx previousItemInColumn counter;
         itemData := d;
         column := 0; width := size.1; height := size.2;
         left := 0; top := 0; bottom := 0; appended := false |}
      :: buildItemInfos this sizes colIdx itemIdx previousItemInColumn
           rest (S insertedItemIdx) (S counter)
  end.

(** [gridItem.top += offset; gridItem.bottom += offset] *)
Definition shiftItem (offset : Z) (g : GridItem) : GridItem :=
  {| key := key g; itemData := itemData g; column := column g;
     width := width g; height := height g; left := left g;
     top := top g + offset; bottom := bottom g + offset;
     appended := appended g |}.

(** [array.splice(i, 0, x)] for an index [i >= 0]. *)
Definition splice {A} (i : nat) (x : A) (l : list A) : list A :=
  take i l ++ x :: drop i l.

(** The body of the placing [forEach] for one [itemInfo]; [None] is a
    [TypeError]. *)
Definition placeItem (this : Masonry) (colIdx itemIdx : option nat)
    (previousItemInColumn : option GridItem)
    (gridItems : list (list GridItem)) (itemInfo : GridItem)
    : option (list (list GridItem)) :=
  match colIdx, itemIdx with
  | Some c, Some i =>
      match gridItems !! c with
      | None => Some gridItems
      | Some colItems =>
          let left_ := Z.of_nat c * itemWidth this in
          let top_ := match previousItemInColumn with
                      | Some p => bottom p
                      | None => 0
                      end in
          let itemInfo :=
            {| key := key itemInfo; itemData := itemData itemInfo;
               column := c;
               width := width itemInfo; height := height itemInfo;
               left := left_; top := top_;
               bottom := top_ + height itemInfo + gutterWidth this;
               appended := appended itemInfo |} in
          let colItems := splice i itemInfo colItems in
          (* Increase top values of other items *)
          if (i <? length colItems - 1)%nat then
            match colItems !! i, colItems !! (i + 1)%nat with
            | Some a, Some b =>
                let offset := bottom a - top b in
                Some (<[c := take (i + 1) colItems
                             ++ (shiftItem offset <$> drop (i + 1) colItems)]>
                        gridItems)
            | _, _ => None
            end
          else Some (<[c := colItems]> gridItems)
      end
  | _, _ =>
      let column_ := getShortestColumn gridItems in
      match gridItems !! column_ with
      | None => None
      | Some colItems =>
          let top_ := match last colItems with
                      | Some lastItemInColumn => bottom lastItemInColumn
                      | None => 0
                      end in
          let left_ := Z.of_nat column_ * itemWidth this in
          let itemInfo :=
            {| key := key itemInfo; itemData := itemData itemInfo;
               column := column_;
               width := width itemInfo; height := height itemInfo;
               left := left_; top := top_;
               bottom := top_ + height itemInfo + gutterWidth this;
               appended := true |} in
          Some (<[column_ := colItems ++ [itemInfo]]> gridItems)
      end
  end.

(** The placing [forEach] over all [itemInfos]. *)
Fixpoint placeItems (this : Masonry) (colIdx itemIdx : option nat)
    (previousItemInColumn : option GridItem)
    (gridItems : list (list GridItem)) (itemInfos : list GridItem)
    : option (list (list GridItem)) :=
  match itemInfos with
  | [] => Some gridItems
  | itemInfo :: rest =>
      match placeItem this colIdx itemIdx previousItemInColumn
              gridItems itemInfo with
      | None => None
      | Some gridItems' =>
          placeItems this colIdx itemIdx previousItemInColumn gridItems' rest
      end
  end.

(** The grid height is the longest of all columns: the closing loop,
    with [minHeight] still [undefined] as [None]. *)
Fixpoint columnHeights (gridItems : list (list GridItem))
    (height_ : Z) (minHeight_ : option Z) : Z * option Z :=
  match gridItems with
  | [] => (height_, minHeight_)
  | column_ :: rest =>
      match last column_ with
      | None => columnHeights rest height_ minHeight_
      | Some lastItem =>
          let height_ :=
            if bottom lastItem >? height_ then bottom lastItem else height_ in
          let minHeight_ :=
            match minHeight_ with
            | None => Some (bottom lastItem)
            | Some m => if m >? bottom lastItem
                        then Some (bottom lastItem) else Some m
            end in
          columnHeights rest height_ minHeight_
      end
  end.

(** [this.serverRefSizes] after the step that fills it from the
    server-rendered refs when it is still unset. *)
Definition serverSizes (this : Masonry) : option (list (Z * Z)) :=
  match serverRefSizes this with
  | None => if (0 <? length (serverRefs this))%nat
            then Some (serverRefs this) else None
  | Some l => Some l
  end.

(** [insertItems(newItems, colIdx = null, itemIdx = null,
    forceUpdate = null)].  The [insertNextItems] callback handed to
    [setState] only schedules a later call and is not part of this
    step. *)
Definition insertItems (newItems : list T) (colIdx itemIdx : option nat)
    (forceUpdate : bool) : M unit :=
  bind get (fun this =>
  let gridItems0 := if forceUpdate then [] else gridItems this in
  let previousItemInColumn := previousItem gridItems0 colIdx itemIdx in
  let gridItems1 :=
    if (length gridItems0 =? 0)%nat
    then replicate (columnCount this) []
    else gridItems0 in
  let items := selectItems this newItems forceUpdate in
  let counter := keyCounterOrOne (itemKeyCounter this) in
  let sizes := serverSizes this in
  (* build out initial item info blobs for each component *)
  let itemInfos :=
    buildItemInfos this sizes colIdx itemIdx previousItemInColumn
      items 0 counter in
  (* insert the actual items into the grid *)
  match placeItems this colIdx itemIdx previousItemInColumn
          gridItems1 itemInfos with
  | None => throw
  | Some gridItems2 =>
      let insertedItemsCount_ :=
        match colIdx, itemIdx with
        | None, None => (insertedItemsCount this + length items)%nat
        | _, _ => insertedItemsCount this
        end in
      let '(height_, minHeight_) := columnHeights gridItems2 0 None in
      put {| columnWidth := columnWidth this;
             minCols := minCols this;
             scrollContainer := scrollContainer this;
             parentClientWidth := parentClientWidth this;
             gridItems := gridItems2;
             gridHeight := height_;
             minHeight := match minHeight_ with
                          | Some m => if m =? 0 then minHeight this else m
                          | None => minHeight this
                          end;
             viewportTop := viewportTop this;
             viewportBottom := viewportBottom this;
             columnCount := columnCount this;
             itemWidth := itemWidth this;
             gutterWidth := gutterWidth this;
             insertedItemsCount := insertedItemsCount_;
             itemKeyCounter := Some (counter + length items)%nat;
             serverRefs := serverRefs this;
             serverRefSizes := sizes;
             containerHeight := containerHeight this;
             containerOffset := containerOffset this |}
  end).

(** *** Field assignments on [this] *)

Definition set_feed (insertedItemsCount_ : nat)
    (serverRefSizes_ : option (list (Z * Z))) (this : Masonry) : Masonry :=
  {| columnWidth := columnWidth this; minCols := minCols this;
     scrollContainer := scrollContainer this;
     parentClientWidth := parentClientWidth this;
     gridItems := gridItems this; gridHeight := gridHeight this;
     minHeight := minHeight this;
     viewportTop := viewportTop this; viewportBottom := viewportBottom this;
     columnCount := columnCount this; itemWidth := itemWidth this;
     gutterWidth := gutterWidth this;
     insertedItemsCount := insertedItemsCount_;
     itemKeyCounter := itemKeyCounter this;
     serverRefs := serverRefs this;
     serverRefSizes := serverRefSizes_;
     containerHeight := containerHeight this;
     containerOffset := containerOffset this |}.

Definition set_itemKeyCounter (c : option nat) (this : Masonry) : Masonry :=
  {| columnWidth := columnWidth this; minCols := minCols this;
     scrollContainer := scrollContainer this;
     parentClientWidth := parentClientWidth this;
     gridItems := gridItems this; gridHeight := gridHeight this;
     minHeight := minHeight this;
     viewportTop := viewportTop this; viewportBottom := viewportBottom this;
     columnCount := columnCount this; itemWidth := itemWidth this;
     gutterWidth := gutterWidth this;
     insertedItemsCount := insertedItemsCount this;
     itemKeyCounter := c;
     serverRefs := serverRefs this;
     serverRefSizes := serverRefSizes this;
     containerHeight := containerHeight this;
     containerOffset := containerOffset this |}.

Definition set_container (containerHeight_ containerOffset_ : double)
    (this : Masonry) : Masonry :=
  {| columnWidth := columnWidth this; minCols := minCols this;
     scrollContainer := scrollContainer this;
     parentClientWidth := parentClientWidth this;
     gridItems := gridItems this; gridHeight := gridHeight this;
     minHeight := minHeight this;
     viewportTop := viewportTop this; viewportBottom := viewportBottom this;
     columnCount := columnCount this; itemWidth := itemWidth this;
     gutterWidth := gutterWidth this;
     insertedItemsCount := insertedItemsCount this;
     itemKeyCounter := itemKeyCounter this;
     serverRefs := serverRefs this;
     serverRefSizes := serverRefSizes this;
     containerHeight := containerHeight_;
     containerOffset := containerOffset_ |}.

Definition set_viewport (viewportTop_ viewportBottom_ : double)
    (this : Masonry) : Masonry :=
  {| columnWidth := columnWidth this; minCols := minCols this;
     scrollContainer := scrollContainer this;
     parentClientWidth := parentClientWidth this;
     gridItems := gridItems this; gridHeight := gridHeight this;
     minHeight := minHeight this;
     viewportTop := viewportTop_; viewportBottom := viewportBottom_;
     columnCount := columnCount this; itemWidth := itemWidth this;
     gutterWidth := gutterWidth this;
     insertedItemsCount := insertedItemsCount this;
     itemKeyCounter := itemKeyCounter this;
     serverRefs := serverRefs this;
     serverRefSizes := serverRefSizes this;
     containerHeight := containerHeight this;
     containerOffset := containerOffset this |}.

(** *** The feed and related-items entry points *)

(** Sets all grid items in the grid. *)
Definition setGridItems (items : list T) : M unit :=
  bind get (fun this =>
  bind (put (set_feed 0 (Some []) this)) (fun _ =>
  insertItems items None None true)).

Definition updateItems (items : option (list T)) : M unit :=
  match items with
  | None => ret tt
  | Some items =>
      bind get (fun this =>
      if (length items =? insertedItemsCount this)%nat then ret tt
      else insertItems (drop (insertedItemsCount this) items) None None false)
  end.

(** The [relatedItems.forEach] of [handleAddRelatedItems]:
    [items.splice(0, count)] hands the first [count] items to
    [insertItems] and leaves the rest for the next round. *)
Fixpoint insertRelated (relatedItems : list Related) (items : list T)
    : M unit :=
  match relatedItems with
  | [] => ret tt
  | r :: rest =>
      bind (insertItems (take (count r) items)
              (Some (columnIdx r)) (Some (itemIdx r)) false) (fun _ =>
      insertRelated rest (drop (count r) items))
  end.

(** [handleAddRelatedItems(itemInfo)(items)], for a requester that
    sits in column [itemInfo.column = column_]; [itemIndex] is the
    result of [indexOf] in that column, [-1] when the requester is no
    longer there. *)
Definition handleAddRelatedItems (column_ : nat) (itemIndex : Z)
    (items : list T) : M unit :=
  bind get (fun this =>
  match gridItems this !! column_ with
  | None => throw
  | Some _ =>
      bind (getItemsRelatedTo (Z.of_nat column_) itemIndex (length items))
        (fun relatedItems => insertRelated relatedItems items)
  end).

(** *** Reflow *)

Definition allItems (this : Masonry) : list GridItem :=
  mjoin (gridItems this).

(** [measureContainer()], given what the DOM reports: the container
    height, and the offset when the wrapper is an [HTMLElement]. *)
Definition measureContainer (domHeight : double)
    (domOffset : option double) : M unit :=
  bind get (fun this =>
  put (set_container domHeight
         (match domOffset with
          | Some o => o
          | None => containerOffset this
          end) this)).

(** The item list handed to [setGridItems] by [reflow]. *)
Definition reflowItems (this : Masonry) : list T :=
  itemData <$> sort (fun a b => Qcompare (key a) (key b)) (allItems this).

(** Reflows items if needed after a resize. *)
Definition reflow (domHeight : double) (domOffset : option double)
    : M unit :=
  bind (measureContainer domHeight domOffset) (fun _ =>
  bind get (fun this =>
  let items := reflowItems this in
  bind (put (set_itemKeyCounter (Some 0%nat) this)) (fun _ =>
  setGridItems items))).

(** *** Virtualization window *)

(** The operand of [||] when it is truthy. *)
Definition truthy (x : option double) : option double :=
  match x with
  | Some (S754_zero _) | Some S754_nan | None => None
  | Some f => Some f
  end.

(** [scrollContainer.scrollY || scrollContainer.scrollTop || 0] *)
Definition scrollPosition (c : ScrollContainer) : double :=
  match truthy (scrollY c) with
  | Some y => y
  | None => match truthy (scrollTop c) with
            | Some t => t
            | None => S754_zero false
            end
  end.

(** The function wrapped by [throttle] in [updateVirtualBounds]. *)
Definition updateVirtualBounds : M unit :=
  bind get (fun this =>
  match scrollContainer this with
  | None => throw
  | Some c =>
      let scrollPos := scrollPosition c in
      let virtualBuffer := fmul (containerHeight this) VIRTUAL_BUFFER_FACTOR in
      let offsetScrollPos := fsub scrollPos (containerOffset this) in
      put (set_viewport
             (fsub offsetScrollPos virtualBuffer)
             (fadd (fadd offsetScrollPos (containerHeight this)) virtualBuffer)
             this)
  end).

(** [!(item.bottom < viewportTop || item.top > viewportBottom)]; the
    pixel positions are numbers, the doubles of their integers. *)
Definition itemIsVisible (this : Masonry) (item : GridItem) : bool :=
  negb (flt (Z2SF (bottom item)) (viewportTop this)
        || flt (viewportBottom this) (Z2SF (top item))).

(** *** calculateColumns *)

(** Determines the number of columns to display. *)
Definition calculateColumns : M jsnum :=
  bind get (fun this =>
  match scrollContainer this with
  | None => ret (Rat 0)
  | Some _ =>
      let eachItemWidth := columnWidth this + gutterWidth this in
      match parentClientWidth this with
      | Some parentWidth =>
          if eachItemWidth =? 0 then
            (* a division by zero: [NaN], [-Infinity] or [Infinity];
               only [-Infinity] is below [minCols] *)
            if parentWidth =? 0 then ret NaN
            else if parentWidth <? 0 then ret (Rat (inject_Z (minCols this)))
            else ret Infinity
          else
            let newColCount :=
              Qfloor (inject_Z parentWidth / inject_Z eachItemWidth) in
            if newColCount <? minCols this
            then ret (Rat (inject_Z (minCols this)))
            else ret (Rat (inject_Z newColCount))
      | None => throw
      end
  end).

End Model.

Arguments GridItem : clear implicits.
Arguments Masonry : clear implicits.
Arguments M : clear implicits.

(** ** The feed loop and the rendered height *)

Section FeedLoop.
Context {T : Type} (measure : Z -> T -> Z * Z).

(** [renderHeight()]: the [bottom] of the last item of the shortest
    column, [null] as [None]. *)
Definition renderHeight (this : Masonry T) : option Z :=
  let colIdx := getShortestColumn (gridItems this) in
  match gridItems this !! colIdx with
  | None => None
  | Some column_ =>
      match last column_ with
      | Some lastItemInColumn => Some (bottom lastItemInColumn)
      | None => None
      end
  end.

(** [insertNextItems()], with [items] for [this.props.items]; the
    callback handed to [requestAnimationFrame] is run at once. *)
Definition insertNextItems (items : list T) : M T unit :=
  bind get (fun this =>
  if (length items <=? insertedItemsCount this)%nat then ret tt
  else insertItems measure (drop (insertedItemsCount this) items)
         None None false).

(** [fuel] rounds of the loop in which [insertItems] hands itself to
    [insertNextItems] through [setState]. *)
Fixpoint drain (fuel : nat) (items : list T) : M T unit :=
  match fuel with
  | O => ret tt
  | S fuel' => bind (insertNextItems items) (fun _ => drain fuel' items)
  end.
End FeedLoop.

(** * Specification predicates *)

Section Predicates.
Context {T : Type}.
Implicit Types (g : list (list (GridItem T))) (col : list (GridItem T)).

(** Column [r] is the shortest among the first [n] columns of [g]:
    its last item has the least [bottom], and a strictly smaller one
    than every column before it. *)
Definition shortest_among g (n r : nat) : Prop :=
  (r < n)%nat ∧
  ∃ lastr, g !! r ≫= last = Some lastr ∧
    ∀ j lastj, (j < n)%nat → g !! j ≫= last = Some lastj →
      bottom lastr <= bottom lastj ∧ ((j < r)%nat → bottom lastr < bottom lastj).

(** The grid the items of an [insertItems] call are placed into: the
    current columns, or [columnCount] fresh ones when there are none
    or a rebuild is forced. *)
Definition startGrid (this : Masonry T) (forceUpdate : bool)
    : list (list (GridItem T)) :=
  if forceUpdate then replicate (columnCount this) []
  else match gridItems this with
       | [] => replicate (columnCount this) []
       | _ => gridItems this
       end.

(** Adjacent items of a column do not overlap. *)
Definition no_overlap col : Prop :=
  ∀ i a b, col !! i = Some a → col !! S i = Some b → bottom a <= top b.

(** Every item ends one gutter below its content. *)
Definition bottoms_ok (gutter : Z) col : Prop :=
  Forall (λ a, bottom a = top a + height a + gutter) col.

Definition grid_ok (gutter : Z) g : Prop :=
  Forall (λ col, no_overlap col ∧ bottoms_ok gutter col) g.

(** Every item records the index of the column that holds it. *)
Definition columns_consistent g : Prop :=
  ∀ c col x, g !! c = Some col → x ∈ col → column x = c.

(** The two target indices of an [insertItems] call when both are
    given, as the test [colIdx != null && itemIdx != null] asks. *)
Definition target (colIdx itemIdx : option nat) : option (nat * nat) :=
  match colIdx, itemIdx with
  | Some c, Some i => Some (c, i)
  | _, _ => None
  end.

(** An [itemInfo] once its column and geometry are assigned. *)
Definition placedItem (this : Masonry T) (c : nat) (top_ : Z)
    (appended_ : bool) (info : GridItem T) : GridItem T :=
  {| key := key info; itemData := itemData info; column := c;
     width := width info; height := height info;
     left := Z.of_nat c * itemWidth this; top := top_;
     bottom := top_ + height info + gutterWidth this;
     appended := appended_ |}.

(** The [bottom] of an optional item, [0] without one. *)
Definition bottomOr0 (p : option (GridItem T)) : Z :=
  match p with
  | Some x => bottom x
  | None => 0
  end.

(** A target index, when the call has one and its column exists,
    lies within that column or right behind its last item. *)
Definition valid_target (colIdx itemIdx : option nat) g : Prop :=
  ∀ c i col, target colIdx itemIdx = Some (c, i) →
             g !! c = Some col → (i <= length col)%nat.

(** The [itemInfos] of an [insertItems] call. *)
Definition insertInfos (measure : Z → T → Z * Z) (this : Masonry T)
    (newItems : list T) (colIdx itemIdx : option nat) (forceUpdate : bool)
    : list (GridItem T) :=
  buildItemInfos measure this (serverSizes this) colIdx itemIdx
    (previousItem (startGrid this forceUpdate) colIdx itemIdx)
    (selectItems this newItems forceUpdate) 0
    (keyCounterOrOne (itemKeyCounter this)).

(** The items an [insertItems] call puts into the grid [g]: its
    selected items, or none when its target column does not exist. *)
Definition placed_items (colIdx itemIdx : option nat) g (items : list T)
    : list T :=
  match target colIdx itemIdx with
  | Some (c, _) => if decide (c < length g)%nat then items else []
  | None => items
  end.

(** The reading of a batch insertion in which successive items go
    to successive indices: item [j] of [items] sits at index [i + j]
    of column [c]. *)
Definition batch_in_order (items : list T) (c i : nat)
    (this' : Masonry T) : Prop :=
  ∀ j d, items !! j = Some d →
    ∃ col x, gridItems this' !! c = Some col
             ∧ col !! (i + j)%nat = Some x ∧ itemData x = d.

(** What the key order sees of an item. *)
Definition core (x : GridItem T) : Q * T * bool :=
  (key x, itemData x, appended x).

(** The comparator [(a, b) => a.key - b.key] of [reflow]. *)
Definition byKey (a b : GridItem T) : comparison :=
  Qcompare (key a) (key b).

(** The feed items in key order: what sorting all GridItems by key
    and extracting [itemData] yields for the items placed by the
    shortest-column append. *)
Definition feedOrder (this : Masonry T) : list T :=
  itemData <$> filter (λ x, appended x = true) (sort byKey (allItems this)).

Definition coreKey (t : Q * T * bool) : Q := t.1.1.

Definition byCoreKey (a b : Q * T * bool) : comparison :=
  Qcompare (coreKey a) (coreKey b).

Definition key_le (a b : Q * T * bool) : Prop := (coreKey a <= coreKey b)%Q.
Definition key_lt (a b : Q * T * bool) : Prop := (coreKey a < coreKey b)%Q.

(** The feed items of a grid in key order, as cores. *)
Definition feedCores g : list (Q * T * bool) :=
  filter (λ t, t.2 = true) (sort byCoreKey (core <$> mjoin g)).

(** The cores of feed items that take the keys [counter],
    [counter + 1], ... in turn. *)
Fixpoint keyed (counter : nat) (items : list T) : list (Q * T * bool) :=
  match items with
  | [] => []
  | d :: rest =>
      (inject_Z (Z.of_nat counter), d, true) :: keyed (S counter) rest
  end.

(** The feed items are in strict key order, below the key counter. *)
Definition feed_sorted (this : Masonry T) : Prop :=
  StronglySorted key_lt (feedCores (gridItems this))
  ∧ Forall (λ t, (coreKey t
                  < inject_Z (Z.of_nat (keyCounterOrOne (itemKeyCounter this))))%Q)
      (feedCores (gridItems this)).

(** The item at index [i] of a column has a key strictly between the
    keys of the items before and after it. *)
Definition key_between_neighbours col (i : nat) : Prop :=
  ∀ x, col !! i = Some x →
    (∀ p, (0 < i)%nat → col !! (i - 1)%nat = Some p → (key p < key x)%Q)
    ∧ (∀ n, col !! S i = Some n → (key x < key n)%Q).

(** A feed append or a related-item insertion, as the calls
    [insertItems(newItems)] and [insertItems(newItems, c, i)]. *)
Inductive op : Type :=
  | Append (newItems : list T)
  | Insert (newItems : list T) (c i : nat).

Definition perform (measure : Z → T → Z * Z) (o : op) : M T unit :=
  match o with
  | Append newItems => insertItems measure newItems None None false
  | Insert newItems c i => insertItems measure newItems (Some c) (Some i) false
  end.

Fixpoint run (measure : Z → T → Z * Z) (ops : list op) : M T unit :=
  match ops with
  | [] => ret tt
  | o :: rest => bind (perform measure o) (λ _, run measure rest)
  end.

(** The feed items a sequence of calls takes in, in order. *)
Fixpoint fed (measure : Z → T → Z * Z) (ops : list op) (this : Masonry T)
    : list T :=
  match ops with
  | [] => []
  | o :: rest =>
      match perform measure o this with
      | Some (_, this') =>
          match o with
          | Append newItems => selectItems this newItems false
          | Insert _ _ _ => []
          end ++ fed measure rest this'
      | None => []
      end
  end.

(** The first [MAX_ITEMS_PER_INSERTION] items of every feed append. *)
Fixpoint taken (ops : list op) : list T :=
  match ops with
  | [] => []
  | Append newItems :: rest => take MAX_ITEMS_PER_INSERTION newItems ++ taken rest
  | Insert _ _ _ :: rest => taken rest
  end.

(** An entry of [getItemsRelatedTo] points at an existing item. *)
Definition related_valid g (r : Related) : Prop :=
  ∃ col, g !! columnIdx r = Some col ∧ (itemIdx r < length col)%nat.

(** Every column of [g] is still there in [g'], with at least as many
    items. *)
Definition grid_grows g g' : Prop :=
  ∀ c col, g !! c = Some col →
    ∃ col', g' !! c = Some col' ∧ (length col <= length col')%nat.

(** The column that results from splicing [x] in at index [i] and
    moving the items behind it. *)
Definition insertShift (i : nat) (x : GridItem T) col : list (GridItem T) :=
  take i col ++ x ::
    match drop i col with
    | [] => []
    | b :: r => shiftItem (bottom x - top b) <$> (b :: r)
    end.
End Predicates.

Section MorePredicates.
Context {T : Type}.
Implicit Types (g : list (list (GridItem T))) (col : list (GridItem T)).

(** The [bottom]s of the last items of the non-empty columns. *)
Definition lastBottoms g : list Z :=
  omap (λ col, bottom <$> last col) g.

(** The [itemInfo] blob of a feed item that is measured at item width
    [w] and keyed [counter]. *)
Definition measuredInfo (measure : Z → T → Z * Z) (w : Z) (counter : nat)
    (d : T) : GridItem T :=
  {| key := inject_Z (Z.of_nat counter); itemData := d; column := 0;
     width := (measure w d).1; height := (measure w d).2;
     left := 0; top := 0; bottom := 0; appended := false |}.

(** The blobs of feed items that take the keys [counter],
    [counter + 1], ... in turn. *)
Fixpoint measuredInfos (measure : Z → T → Z * Z) (w : Z) (counter : nat)
    (items : list T) : list (GridItem T) :=
  match items with
  | [] => []
  | d :: rest =>
      measuredInfo measure w counter d
      :: measuredInfos measure w (S counter) rest
  end.

(** The state of the feed loop after [j] of [items] have been
    appended, one per round, to the fresh component [this]. *)
Definition drained (measure : Z → T → Z * Z) (this : Masonry T)
    (items : list T) (j : nat) (s : Masonry T) : Prop :=
  insertedItemsCount s = j
  ∧ serverRefs s = [] ∧ serverRefSizes s = None
  ∧ keyCounterOrOne (itemKeyCounter s)
    = (keyCounterOrOne (itemKeyCounter this) + j)%nat
  ∧ itemWidth s = itemWidth this ∧ gutterWidth s = gutterWidth this
  ∧ columnCount s = columnCount this
  ∧ (j = 0%nat
     ∨ gridItems s ≠ []
       ∧ gridHeight s = (columnHeights (gridItems s) 0 None).1
       ∧ itemKeyCounter s
         = Some (keyCounterOrOne (itemKeyCounter this) + j)%nat)
  ∧ placeItems this None None None (replicate (columnCount this) [])
      (measuredInfos measure (itemWidth this)
         (keyCounterOrOne (itemKeyCounter this)) (take j items))
    = Some (startGrid s false).

(** [m] groups the candidates [cands] by column: its columns ascend,
    every candidate's column has an entry, and an entry counts the
    candidates of its column and carries the item index of the first
    of them. *)
Definition grouped (cands : list Candidate) (m : list Related) : Prop :=
  StronglySorted lt (columnIdx <$> m)
  ∧ (∀ c, c ∈ cands → cand_columnIdx c ∈ columnIdx <$> m)
  ∧ (∀ r, r ∈ m →
       count r
       = length (filter (λ c, cand_columnIdx c = columnIdx r) cands)
       ∧ ∃ pre c post,
           cands = pre ++ c :: post
           ∧ cand_columnIdx c = columnIdx r ∧ cand_itemIdx c = itemIdx r
           ∧ Forall (λ c', cand_columnIdx c' ≠ columnIdx r) pre).

(** A distance that the comparator [a.distance - b.distance] orders:
    any but [NaN], a root being that of a number that is not
    negative. *)
Definition ordered_distance (d : jsnum) : Prop :=
  match d with
  | Rat _ | Infinity => True
  | Sqrt q => (0 <= q)%Q
  | NaN => False
  end.

(** [a <= b] on distances, spelled out. *)
Definition distance_le (a b : jsnum) : Prop :=
  match a, b with
  | Rat x, Rat y => (x <= y)%Q
  | Rat x, Sqrt y => (x < 0)%Q ∨ (x * x <= y)%Q
  | Sqrt x, Rat y => (0 <= y)%Q ∧ (x <= y * y)%Q
  | Sqrt x, Sqrt y => (x <= y)%Q
  | Infinity, (Rat _ | Sqrt _) => False
  | _, _ => True
  end.

(** The comparator does not put [a] after [b]. *)
Definition not_farther (a b : Candidate) : Prop :=
  jsnum_compare (cand_distance a) (cand_distance b) ≠ Gt.

(** The first item of each of the successive chunks of [items] whose
    sizes are [counts]. *)
Fixpoint chunkHeads (counts : list nat) (items : list T) : list T :=
  match counts with
  | [] => []
  | n :: rest => take 1 items ++ chunkHeads rest (drop n items)
  end.

(** A grid filled from the top: no item starts below the end of any
    column, an item with a larger key starts no higher than one with a
    smaller key, all keys are below [k], and no column ends and no
    item starts at a negative offset. *)
Definition top_filled (k : nat) g : Prop :=
  (∀ col x col', col ∈ g → x ∈ col → col' ∈ g →
     top x <= bottomOr0 (last col'))
  ∧ (∀ x y, x ∈ mjoin g → y ∈ mjoin g → (key x < key y)%Q → top x <= top y)
  ∧ (∀ x, x ∈ mjoin g → (key x < inject_Z (Z.of_nat k))%Q)
  ∧ (∀ col, col ∈ g → 0 <= bottomOr0 (last col))
  ∧ (∀ x, x ∈ mjoin g → 0 <= top x).
End MorePredicates.

(** * Properties *)

(** ** Sorting *)

Section SortFacts.
Context {A : Type} (cmp : A → A → comparison).

Lemma sort_insert_perm x l : sort_insert cmp x l ≡ₚ x :: l.
Proof.
  induction l as [|y l IH]; [done|]. simpl.
  destruct (cmp x y); try done.
  rewrite IH. apply perm_swap.
Qed.

Lemma sort_perm l : sort cmp l ≡ₚ l.
Proof.
  induction l as [|x l IH]; [done|]. simpl.
  by rewrite sort_insert_perm, IH.
Qed.

Context (R : relation A).
Context (R_le : ∀ x y, cmp x y ≠ Gt → R x y).
Context (R_gt : ∀ x y, cmp x y = Gt → R y x).
Context (R_trans : Transitive R).

Lemma sort_insert_sorted x l :
  StronglySorted R l → StronglySorted R (sort_insert cmp x l).
Proof.
  induction 1 as [|y l Hl IH Hy]; simpl.
  - repeat constructor.
  - destruct (cmp x y) eqn:Hcmp.
    + constructor; [by constructor|]. constructor.
      * apply R_le. by rewrite Hcmp.
      * eapply Forall_impl; [exact Hy|]. intros z Hz.
        etrans; [|exact Hz]. apply R_le. by rewrite Hcmp.
    + constructor; [by constructor|]. constructor.
      * apply R_le. by rewrite Hcmp.
      * eapply Forall_impl; [exact Hy|]. intros z Hz.
        etrans; [|exact Hz]. apply R_le. by rewrite Hcmp.
    + constructor; [exact IH|].
      rewrite sort_insert_perm. constructor; [by apply R_gt|done].
Qed.

Lemma sort_sorted l : StronglySorted R (sort cmp l).
Proof.
  induction l as [|x l IH]; simpl; [constructor|].
  by apply sort_insert_sorted.
Qed.
End SortFacts.

Section SortMap.
Context {A B : Type} (f : A → B).
Context (cmpA : A → A → comparison) (cmpB : B → B → comparison).
Context (Hcmp : ∀ a b, cmpB (f a) (f b) = cmpA a b).

Lemma sort_insert_fmap x l :
  f <$> sort_insert cmpA x l = sort_insert cmpB (f x) (f <$> l).
Proof.
  induction l as [|y l IH]; [done|]. simpl.
  rewrite Hcmp. destruct (cmpA x y); try done.
  by rewrite fmap_cons, IH.
Qed.

Lemma sort_fmap l : f <$> sort cmpA l = sort cmpB (f <$> l).
Proof.
  induction l as [|x l IH]; [done|]. simpl.
  by rewrite sort_insert_fmap, IH.
Qed.

Lemma filter_fmap (P : B → Prop) `{∀ b, Decision (P b)} (l : list A) :
  filter P (f <$> l) = f <$> filter (λ a, P (f a)) l.
Proof.
  induction l as [|x l IH]; [done|].
  rewrite fmap_cons, !filter_cons.
  destruct (decide (P (f x))); by rewrite IH.
Qed.
End SortMap.

Section SortedUnique.
Context {A : Type} (le lt : relation A).
Context (lt_le : ∀ x y, lt x y → le x y).
Context (lt_not_le : ∀ x y, lt x y → ¬ le y x).

Lemma StronglySorted_filter R (P : A → Prop) `{∀ x, Decision (P x)}
    (l : list A) :
  StronglySorted R l → StronglySorted R (filter P l).
Proof.
  induction 1 as [|x l Hl IH Hx]; [constructor|].
  rewrite filter_cons. destruct (decide (P x)); [|done].
  constructor; [done|].
  apply Forall_forall. intros y Hy. apply list_elem_of_filter in Hy as [_ Hy].
  by apply (proj1 (Forall_forall _ _) Hx).
Qed.

Lemma StronglySorted_weaken l :
  StronglySorted lt l → StronglySorted le l.
Proof.
  induction 1 as [|x l Hl IH Hx]; constructor; [done|].
  eapply Forall_impl; [exact Hx|]. intros y. apply lt_le.
Qed.

Lemma StronglySorted_trichotomy l x y :
  StronglySorted lt l → x ∈ l → y ∈ l → x = y ∨ lt x y ∨ lt y x.
Proof.
  induction 1 as [|z l Hl IH Hz]; intros Hx Hy; [by apply elem_of_nil in Hx|].
  apply elem_of_cons in Hx as [->|Hx]; apply elem_of_cons in Hy as [->|Hy].
  - by left.
  - right. left. by apply (proj1 (Forall_forall _ _) Hz).
  - right. right. by apply (proj1 (Forall_forall _ _) Hz).
  - by apply IH.
Qed.

(** A list in strict order is the only ordered arrangement of its
    elements. *)
Lemma sorted_perm_unique l1 l2 :
  StronglySorted le l1 → StronglySorted lt l2 → l1 ≡ₚ l2 → l1 = l2.
Proof.
  intros H1 H2 Hperm.
  apply (StronglySorted_unique_strong le); [|done| |done].
  - intros x1 x2 Hx1 Hx2 Hle1 Hle2.
    rewrite Hperm in Hx1.
    destruct (StronglySorted_trichotomy l2 x1 x2 H2 Hx1 Hx2)
      as [?|[Hlt|Hlt]]; [done| |].
    + by destruct (lt_not_le _ _ Hlt).
    + by destruct (lt_not_le _ _ Hlt).
  - by apply StronglySorted_weaken.
Qed.
End SortedUnique.

(** ** The shortest column *)

Section ShortestColumn.
Context {T : Type}.
Implicit Types (g cols pre : list (list (GridItem T))).

Lemma getShortestColumn_from_spec cols : ∀ g pre min,
  g = pre ++ cols →
  Forall (λ c, c ≠ []) pre →
  (pre = [] ∧ min = 0%nat) ∨ shortest_among g (length pre) min →
  let r := getShortestColumn_from g cols (length pre) min in
  (∀ k, cols !! k = Some [] → (∀ j, (j < k)%nat → cols !! j ≠ Some []) →
        r = (length pre + k)%nat)
  ∧ (Forall (λ c, c ≠ []) cols → g ≠ [] → shortest_among g (length g) r).
Proof.
  induction cols as [|c rest IH]; intros g pre min Hg Hpre Hmin; simpl.
  - split.
    + intros k Hk. by rewrite lookup_nil in Hk.
    + intros _ Hne. rewrite app_nil_r in Hg. subst g.
      destruct Hmin as [[-> _]|Hs]; [done|exact Hs].
  - destruct (last c) as [lastItem|] eqn:Hlast.
    + assert (Hc : c ≠ []) by (intros ->; discriminate).
      assert (Hg' : g = (pre ++ [c]) ++ rest) by (by rewrite <- app_assoc).
      assert (Hpre' : Forall (λ c, c ≠ []) (pre ++ [c])).
      { apply Forall_app. split; [done|by constructor]. }
      assert (Hlen : length (pre ++ [c]) = S (length pre)).
      { rewrite length_app. simpl. lia. }
      assert (Hgc : g !! length pre ≫= last = Some lastItem).
      { rewrite Hg, lookup_app_r, Nat.sub_diag by lia. simpl. exact Hlast. }
      assert (Hnext : ∃ min',
        getShortestColumn_from g (c :: rest) (length pre) min
          = getShortestColumn_from g rest (S (length pre)) min'
        ∧ shortest_among g (S (length pre)) min').
      { simpl. rewrite Hlast.
        destruct Hmin as [[-> ->]|(Hlt & lastr & Hr & Hall)].
        - simpl in Hgc. rewrite Hgc. rewrite Z.ltb_irrefl.
          exists 0%nat. split; [done|]. split; [simpl; lia|].
          exists lastItem. split; [exact Hgc|].
          intros j lastj Hj Hlj. assert (j = 0%nat) as -> by (simpl in Hj; lia).
          rewrite Hgc in Hlj. injection Hlj as <-. lia.
        - rewrite Hr. destruct (bottom lastItem <? bottom lastr) eqn:Hcmp.
          + apply Z.ltb_lt in Hcmp.
            exists (length pre). split; [done|]. split; [lia|].
            exists lastItem. split; [exact Hgc|].
            intros j lastj Hj Hlj.
            destruct (decide (j = length pre)) as [->|Hne].
            * rewrite Hgc in Hlj. injection Hlj as <-. lia.
            * destruct (Hall j lastj) as [Hle _]; [lia|done|]. lia.
          + apply Z.ltb_ge in Hcmp.
            exists min. split; [done|]. split; [lia|].
            exists lastr. split; [exact Hr|].
            intros j lastj Hj Hlj.
            destruct (decide (j = length pre)) as [->|Hne].
            * rewrite Hgc in Hlj. injection Hlj as <-. lia.
            * apply Hall; [lia|done]. }
      destruct Hnext as (min' & Heq & Hs').
      simpl in Heq. rewrite Hlast in Heq. rewrite Heq.
      rewrite <- Hlen in Hs' |- *.
      destruct (IH g (pre ++ [c]) min' Hg' Hpre' (or_intror Hs')) as [IH1 IH2].
      split.
      * intros [|k] Hk Hfirst.
        { simpl in Hk. injection Hk as ->. done. }
        simpl in Hk. rewrite (IH1 k Hk).
        -- rewrite Hlen. lia.
        -- intros j Hj. apply (Hfirst (S j)). lia.
      * intros Hall Hne. apply IH2; [|done]. by inversion Hall.
    + apply last_None in Hlast. subst c. split.
      * intros [|k] Hk Hfirst; [lia|].
        exfalso. apply (Hfirst 0%nat); [lia|done].
      * intros Hall. inversion Hall. done.
Qed.

(** An empty column wins immediately: the result is the first one. *)
Lemma getShortestColumn_first_empty g k :
  g !! k = Some [] → (∀ j, (j < k)%nat → g !! j ≠ Some []) →
  getShortestColumn g = k.
Proof.
  intros Hk Hfirst.
  destruct (getShortestColumn_from_spec g g [] 0%nat) as [H _];
    [done|constructor|by left|].
  by apply H.
Qed.

(** Without an empty column the result has the least last [bottom],
    and is the first such column. *)
Lemma getShortestColumn_least g :
  g ≠ [] → Forall (λ c, c ≠ []) g →
  shortest_among g (length g) (getShortestColumn g).
Proof.
  intros Hne Hall.
  destruct (getShortestColumn_from_spec g g [] 0%nat) as [_ H];
    [done|constructor|by left|].
  by apply H.
Qed.

Lemma getShortestColumn_lt g :
  g ≠ [] → (getShortestColumn g < length g)%nat.
Proof.
  intros Hne.
  destruct (decide (Forall (λ c, c ≠ []) g)) as [Hall|Hex].
  - by destruct (getShortestColumn_least g Hne Hall).
  - apply not_Forall_Exists in Hex; [|intros c; apply _].
    (* walk to the first empty column *)
    assert (∃ k, g !! k = Some [] ∧ ∀ j, (j < k)%nat → g !! j ≠ Some [])
      as (k & Hk & Hfirst).
    { clear Hne. induction g as [|c g IH]; [by inversion Hex|].
      destruct c as [|x c].
      - exists 0%nat. split; [done|]. intros j Hj. lia.
      - inversion Hex as [? ? Hc|? ? Hg]; subst.
        + exfalso. apply Hc. done.
        + destruct (IH Hg) as (k & Hk & Hfirst).
          exists (S k). split; [done|].
          intros [|j] Hj; simpl; [done|]. apply Hfirst. lia. }
    rewrite (getShortestColumn_first_empty g k Hk Hfirst).
    by apply lookup_lt_Some in Hk.
Qed.
End ShortestColumn.

(** C4. For every non-empty array of columns, [getShortestColumn]
    returns the index of the first empty column if there is one, and
    otherwise the index of the column whose last item has the smallest
    [bottom], the lowest such index on a tie.  With last-item bottoms
    [100, 40, 90] it returns column 1, and with a fourth, empty column
    it returns column 3. *)
Theorem getShortestColumn_correct :
  (∀ (T : Type) (g : list (list (GridItem T))), g ≠ [] →
     (∀ k, g !! k = Some [] → (∀ j, (j < k)%nat → g !! j ≠ Some []) →
           getShortestColumn g = k)
     ∧ (Forall (λ c, c ≠ []) g →
        shortest_among g (length g) (getShortestColumn g)))
  ∧ (∀ (T : Type) (c0 c1 c2 : list (GridItem T)),
       bottom <$> last c0 = Some 100 →
       bottom <$> last c1 = Some 40 →
       bottom <$> last c2 = Some 90 →
       getShortestColumn [c0; c1; c2] = 1%nat
       ∧ getShortestColumn [c0; c1; c2; []] = 3%nat).
Proof.
  split.
  - intros T g Hne. split.
    + apply getShortestColumn_first_empty.
    + by apply getShortestColumn_least.
  - intros T c0 c1 c2 H0 H1 H2.
    destruct (last c0) as [x0|] eqn:E0; [|done].
    destruct (last c1) as [x1|] eqn:E1; [|done].
    destruct (last c2) as [x2|] eqn:E2; [|done].
    simpl in H0, H1, H2.
    injection H0 as H0. injection H1 as H1. injection H2 as H2.
    assert (Hc : ∀ (c : list (GridItem T)) x, last c = Some x → c ≠ [])
      by (intros c x Hl ->; discriminate).
    split.
    + destruct (getShortestColumn_least [c0; c1; c2]) as (Hlt & lastr & Hr & Hall);
        [done|repeat constructor; eauto|].
      pose proof (Hall 1%nat x1) as Hj1. simpl in Hj1. rewrite E1 in Hj1.
      destruct Hj1 as [Hle1 _]; [lia|done|].
      destruct (getShortestColumn [c0; c1; c2]) as [|[|[|r]]];
        simpl in Hr, Hlt; [| done | | lia].
      * rewrite E0 in Hr. injection Hr as <-. lia.
      * rewrite E2 in Hr. injection Hr as <-. lia.
    + apply getShortestColumn_first_empty; [done|].
      intros [|[|[|j]]] Hj; simpl; [| | |lia];
        intros [= Heq]; subst; discriminate.
Qed.

Lemma getShortestColumn_correct_witness :
  let g : list (list (GridItem unit)) :=
    [[mkGridItem 1 tt 0 236 76 0 0 90 true]; []] in
  g ≠ [] ∧ getShortestColumn g = 1%nat.
Proof.
  intros g. split; [done|].
  apply (proj1 (proj1 getShortestColumn_correct unit g ltac:(done)) 1%nat).
  - reflexivity.
  - intros [|j] Hj; [done|lia].
Defined.

(** ** Distances, the window and the column count *)

(** C7. For two GridItems in the same column, [calculateDistance] is
    the later item's [top] minus (the earlier item's [bottom] plus the
    gutter width) minus 1, the first argument counting as the later one
    when both tops agree.  A(top 0, bottom 50) and B(top 80, bottom 110)
    in column 0 with gutter 10 are at distance [80 - 60 - 1 = 19]. *)
Theorem calculateDistance_same_column :
  (∀ (T : Type) (this : Masonry T) (A B : GridItem T),
     column A = column B →
     (top A < top B →
        calculateDistance this A B
          = Rat (inject_Z (top B - (bottom A + gutterWidth this) - 1)))
     ∧ (top B <= top A →
        calculateDistance this A B
          = Rat (inject_Z (top A - (bottom B + gutterWidth this) - 1))))
  ∧ (∀ (T : Type) (this : Masonry T) (A B : GridItem T),
       gutterWidth this = 10 →
       column A = 0%nat → top A = 0 → height A = 40 → bottom A = 50 →
       column B = 0%nat → top B = 80 → height B = 30 → bottom B = 110 →
       calculateDistance this A B = Rat (inject_Z 19)).
Proof.
  split.
  - intros T this A B Hcol. unfold calculateDistance.
    rewrite Hcol, Nat.eqb_refl. split; intros Hcmp.
    + apply Z.ltb_lt in Hcmp. by rewrite Hcmp.
    + apply Z.ltb_ge in Hcmp. by rewrite Hcmp.
  - intros T this A B Hg HcA HtA _ HbA HcB HtB _ HbB.
    unfold calculateDistance.
    rewrite HcA, HcB, HtA, HtB, HbA, Hg. reflexivity.
Qed.

Lemma calculateDistance_same_column_witness :
  let A := mkGridItem 1 tt 0 236 40 0 0 50 true in
  let B := mkGridItem 2 tt 0 236 30 0 80 110 true in
  let this : Masonry unit :=
    mkMasonry 236 3 None None [[A; B]] 110 110 0 0 1 246 10 2 (Some 3%nat)
      [] None 0 0 in
  column A = column B ∧ top A < top B
  ∧ calculateDistance this A B = Rat (inject_Z 19).
Proof.
  intros A B this. split; [reflexivity|]. split; [reflexivity|].
  apply (proj1 (proj1 calculateDistance_same_column unit this A B eq_refl)).
  reflexivity.
Defined.

(** ** Doubles *)

Section Doubles.
Implicit Types (a b : double).

Lemma SFcompare_antisym a b :
  SFcompare b a = CompOpp <$> SFcompare a b.
Proof.
  destruct a as [sa|sa| |sa ma ea], b as [sb|sb| |sb mb eb]; simpl;
    try done; try (by destruct sa); try (by destruct sb);
    try (by destruct sa, sb).
  destruct sa, sb; try done; f_equal; rewrite (Z.compare_antisym ea eb);
    destruct (ea ?= eb); simpl; try done;
    rewrite <- (Pos.compare_cont_antisym _ _ Eq); simpl;
    by rewrite ?CompOpp_involutive.
Qed.

Lemma SFcompare_None a b :
  SFcompare a b = None ↔ a = S754_nan ∨ b = S754_nan.
Proof.
  destruct a as [sa|sa| |sa ma ea], b as [sb|sb| |sb mb eb]; simpl;
    split; try done; try (by intros [|]); try (by left); try (by right).
Qed.

(** [!(a < b)] is [b <= a] unless an operand is [NaN]. *)
Lemma flt_fle a b :
  a ≠ S754_nan → b ≠ S754_nan → negb (flt a b) = fle b a.
Proof.
  intros Ha Hb. unfold flt, fle, SFltb, SFleb.
  rewrite (SFcompare_antisym a b).
  destruct (SFcompare a b) as [[| |]|] eqn:Hcmp; try done.
  apply SFcompare_None in Hcmp. by destruct Hcmp.
Qed.

Lemma shr_1_nonneg mrs : 0 <= shr_m mrs → 0 <= shr_m (shr_1 mrs).
Proof.
  destruct mrs as [m r s]. simpl. destruct m as [|[p|p|]|p]; simpl; lia.
Qed.

Lemma iter_pos_shr_1_nonneg p : ∀ mrs,
  0 <= shr_m mrs → 0 <= shr_m (SpecFloat.iter_pos shr_1 p mrs).
Proof.
  induction p as [p IH|p IH|]; intros mrs Hm; simpl.
  - apply IH, IH. by apply shr_1_nonneg.
  - by apply IH, IH.
  - by apply shr_1_nonneg.
Qed.

Lemma shr_fexp_nonneg prec emax m e l :
  0 <= m → 0 <= shr_m (shr_fexp prec emax m e l).1.
Proof.
  intros Hm. unfold shr_fexp, shr.
  assert (H0 : 0 <= shr_m (shr_record_of_loc m l)).
  { by destruct l as [|[| |]]. }
  destruct (fexp prec emax (Zdigits2 m + e) - e); simpl; try done.
  by apply iter_pos_shr_1_nonneg.
Qed.

(** Rounding a non-negative mantissa never gives [NaN]. *)
Lemma binary_round_aux_not_nan prec emax sx mx ex lx :
  0 <= mx → binary_round_aux prec emax sx mx ex lx ≠ S754_nan.
Proof.
  intros Hm. unfold binary_round_aux.
  pose proof (shr_fexp_nonneg prec emax mx ex lx Hm) as H1.
  destruct (shr_fexp prec emax mx ex lx) as [mrs' e'].
  assert (H2 : 0 <= round_nearest_even (shr_m mrs') (loc_of_shr_record mrs')).
  { simpl in H1. unfold round_nearest_even.
    destruct (loc_of_shr_record mrs') as [|[| |]]; try lia.
    destruct (Z.even (shr_m mrs')); lia. }
  pose proof (shr_fexp_nonneg prec emax _ e' loc_Exact H2) as H3.
  destruct (shr_fexp prec emax _ e' loc_Exact) as [mrs'' e''].
  simpl in H3. destruct (shr_m mrs'') as [|m|m]; [done| |lia].
  by destruct (e'' <=? emax - prec).
Qed.

Lemma binary_normalize_not_nan prec emax m e szero :
  binary_normalize prec emax m e szero ≠ S754_nan.
Proof.
  destruct m as [|p|p]; simpl; [done| |];
    unfold binary_round;
    destruct (shl_align p e _) as [mz ez];
    by apply binary_round_aux_not_nan.
Qed.

(** The double of an integer is a number. *)
Lemma Z2SF_not_nan (z : Z) : Z2SF z ≠ S754_nan.
Proof. apply binary_normalize_not_nan. Qed.

(** [NaN] spreads through the arithmetic. *)
Lemma fsub_nan_r a : fsub a S754_nan = S754_nan.
Proof. by destruct a. Qed.

Lemma fsub_nan_l a : fsub S754_nan a = S754_nan.
Proof. done. Qed.

Lemma fadd_nan_r a : fadd a S754_nan = S754_nan.
Proof. by destruct a. Qed.

Lemma fadd_nan_l a : fadd S754_nan a = S754_nan.
Proof. done. Qed.

Lemma fmul_nan_l a : fmul S754_nan a = S754_nan.
Proof. done. Qed.

Lemma flt_nan_r a : flt a S754_nan = false.
Proof. by destruct a. Qed.

Lemma flt_nan_l a : flt S754_nan a = false.
Proof. done. Qed.
End Doubles.

Section Window.
Context {T : Type}.
Implicit Types (this : Masonry T) (item : GridItem T).

(** The visibility test against a window whose bounds are numbers. *)
Lemma itemIsVisible_iff this item :
  viewportTop this ≠ S754_nan → viewportBottom this ≠ S754_nan →
  itemIsVisible this item = true
  ↔ fle (viewportTop this) (Z2SF (bottom item)) = true
    ∧ fle (Z2SF (top item)) (viewportBottom this) = true.
Proof.
  intros Htop Hbottom. unfold itemIsVisible.
  rewrite negb_orb, andb_true_iff.
  rewrite (flt_fle _ _ (Z2SF_not_nan _) Htop).
  by rewrite (flt_fle _ _ Hbottom (Z2SF_not_nan _)).
Qed.

(** Against a [NaN] bound both comparisons fail and every item is
    visible. *)
Lemma itemIsVisible_nan this item :
  viewportTop this = S754_nan → viewportBottom this = S754_nan →
  itemIsVisible this item = true.
Proof.
  intros Htop Hbottom. unfold itemIsVisible.
  by rewrite Htop, Hbottom, flt_nan_r, flt_nan_l.
Qed.

Lemma updateVirtualBounds_Some this c :
  scrollContainer this = Some c →
  updateVirtualBounds this
  = Some (tt, set_viewport
                (fsub (fsub (scrollPosition c) (containerOffset this))
                   (fmul (containerHeight this) VIRTUAL_BUFFER_FACTOR))
                (fadd (fadd (fsub (scrollPosition c) (containerOffset this))
                         (containerHeight this))
                   (fmul (containerHeight this) VIRTUAL_BUFFER_FACTOR))
                this).
Proof.
  intros Hc. unfold updateVirtualBounds, bind, get, put. by rewrite Hc.
Qed.
End Window.

(** C6, for a window whose bounds are numbers.  The virtualization
    window is
    [viewportTop = (scroll offset - container offset) - containerHeight * 0.7]
    and [viewportBottom = (scroll offset - container offset)
    + containerHeight + containerHeight * 0.7], each operation being
    the one on doubles and [0.7] the double nearest to 7/10, and,
    provided neither bound is [NaN], an item is visible iff its
    [bottom >= viewportTop] and its [top <= viewportBottom].  With
    container height 800, scroll offset 1000 and container offset 0
    the window is [440, 2360]; an item with top 2000 and bottom 2100 is
    visible and one with top 2400 is not. *)
Theorem updateVirtualBounds_window :
  ∀ (T : Type) (this : Masonry T) (c : ScrollContainer),
    scrollContainer this = Some c →
    let offsetScrollPos := fsub (scrollPosition c) (containerOffset this) in
    let virtualBuffer := fmul (containerHeight this) VIRTUAL_BUFFER_FACTOR in
    ∃ this',
      updateVirtualBounds this = Some (tt, this')
      ∧ viewportTop this' = fsub offsetScrollPos virtualBuffer
      ∧ viewportBottom this'
        = fadd (fadd offsetScrollPos (containerHeight this)) virtualBuffer
      ∧ (viewportTop this' ≠ S754_nan → viewportBottom this' ≠ S754_nan →
         ∀ item : GridItem T,
           itemIsVisible this' item = true
           ↔ fle (viewportTop this') (Z2SF (bottom item)) = true
             ∧ fle (Z2SF (top item)) (viewportBottom this') = true)
      ∧ (containerHeight this = Z2SF 800 →
         scrollPosition c = Z2SF 1000 →
         containerOffset this = Z2SF 0 →
         viewportTop this' = Z2SF 440 ∧ viewportBottom this' = Z2SF 2360
         ∧ ∀ item : GridItem T,
             (top item = 2000 → bottom item = 2100 →
              itemIsVisible this' item = true)
             ∧ (top item = 2400 → itemIsVisible this' item = false)).
Proof.
  intros T this c Hc offsetScrollPos virtualBuffer.
  subst offsetScrollPos virtualBuffer.
  eexists. split; [by apply updateVirtualBounds_Some|].
  split; [done|]. split; [done|].
  split; [intros Htop Hbottom item; by apply itemIsVisible_iff|].
  intros Hh Hs Ho. cbn [viewportTop viewportBottom set_viewport].
  rewrite Hh, Hs, Ho.
  split; [by vm_compute|]. split; [by vm_compute|].
  intros item. unfold itemIsVisible.
  cbn [viewportTop viewportBottom set_viewport].
  split.
  - intros -> ->. by vm_compute.
  - intros ->.
    assert (Hlt : flt (fadd (fadd (fsub (Z2SF 1000) (Z2SF 0)) (Z2SF 800))
                         (fmul (Z2SF 800) VIRTUAL_BUFFER_FACTOR))
                    (Z2SF 2400) = true) by (by vm_compute).
    by rewrite Hlt, orb_true_r.
Qed.

Lemma updateVirtualBounds_window_witness :
  let c := {| scrollY := Some (Z2SF 1000); scrollTop := None |} in
  let this : Masonry unit :=
    mkMasonry 236 3 (Some c) (Some 1000) [] 0 0 0 0 4 250 14 0 None [] None
      800 0 in
  scrollContainer this = Some c
  ∧ ∃ this', updateVirtualBounds this = Some (tt, this')
             ∧ viewportTop this' = Z2SF 440
             ∧ viewportBottom this' = Z2SF 2360.
Proof.
  intros c this. split; [reflexivity|].
  destruct (updateVirtualBounds_window unit this c eq_refl)
    as (this' & Hrun & _ & _ & _ & Hex).
  exists this'. split; [exact Hrun|].
  destruct Hex as (Ht & Hb & _); [reflexivity..|]. by split.
Defined.

(** C6 fails before the container has been measured:
    [componentDidMount] calls [updateVirtualBounds] while
    [containerHeight] and [containerOffset] are still [undefined].  The
    bounds are [NaN] then, and an item that starts at 2400, far below
    the window the claim computes for a scroll offset of 1000, is
    visible although its [top <= viewportBottom] does not hold. *)
Lemma updateVirtualBounds_unmeasured_visible :
  let c := {| scrollY := Some (Z2SF 1000); scrollTop := None |} in
  let item := mkGridItem 1 tt 0 236 100 0 2400 2514 true in
  let this : Masonry unit :=
    mkMasonry 236 3 (Some c) (Some 1000) [[item]] 2514 2514 0 0 4 250 14 1
      (Some 2%nat) [] None S754_nan S754_nan in
  ∃ this',
    updateVirtualBounds this = Some (tt, this')
    ∧ viewportTop this' = S754_nan ∧ viewportBottom this' = S754_nan
    ∧ itemIsVisible this' item = true
    ∧ ¬ (itemIsVisible this' item = true
         ↔ fle (viewportTop this') (Z2SF (bottom item)) = true
           ∧ fle (Z2SF (top item)) (viewportBottom this') = true).
Proof.
  intros c item this. eexists. split; [vm_compute; reflexivity|].
  split; [reflexivity|]. split; [reflexivity|]. split; [reflexivity|].
  intros [Hvis _]. destruct (Hvis eq_refl) as [Hle _]. by vm_compute in Hle.
Qed.

(** The rounding of the doubles shows at the window's edge: with
    container height 90 and scroll offset 100 the buffer [90 * 0.7] is
    62.99999999999999, the upper bound 37.00000000000001, and an item
    that ends at 37 is not visible. *)
Example updateVirtualBounds_rounding :
  let c := {| scrollY := Some (Z2SF 100); scrollTop := None |} in
  let item := mkGridItem 1 tt 0 236 23 0 0 37 true in
  let this : Masonry unit :=
    mkMasonry 236 3 (Some c) (Some 1000) [[item]] 37 37 0 0 4 250 14 1
      (Some 2%nat) [] None 90 0 in
  ∃ this',
    updateVirtualBounds this = Some (tt, this')
    ∧ fmul (containerHeight this) VIRTUAL_BUFFER_FACTOR
      = S754_finite false 8866461766385663 (-47)
    ∧ flt (Z2SF 63) (fmul (containerHeight this) VIRTUAL_BUFFER_FACTOR) = false
    ∧ flt (fmul (containerHeight this) VIRTUAL_BUFFER_FACTOR) (Z2SF 63) = true
    ∧ flt (Z2SF 37) (viewportTop this') = true
    ∧ itemIsVisible this' item = false.
Proof.
  intros c item this. eexists. split; [vm_compute; reflexivity|].
  repeat split; by vm_compute.
Qed.

(** C8. The recomputed column count is
    [floor(containerWidth / (preferred item width + gutter width))],
    raised to the configured minimum column count when smaller.  With
    minimum 3, item width 236, gutter 14 and container width 1000 the
    count is 4. *)
Theorem calculateColumns_count :
  ∀ (T : Type) (this : Masonry T) (c : ScrollContainer) (parentWidth : Z),
    scrollContainer this = Some c →
    parentClientWidth this = Some parentWidth →
    columnWidth this + gutterWidth this ≠ 0 →
    calculateColumns this
      = Some (Rat (inject_Z
                (Z.max (Qfloor (inject_Z parentWidth
                                / inject_Z (columnWidth this + gutterWidth this)))
                       (minCols this))), this)
    ∧ Qfloor (inject_Z parentWidth
              / inject_Z (columnWidth this + gutterWidth this))
      = parentWidth `div` (columnWidth this + gutterWidth this)
    ∧ (minCols this = 3 → columnWidth this = 236 → gutterWidth this = 14 →
       parentWidth = 1000 →
       calculateColumns this = Some (Rat (inject_Z 4), this)).
Proof.
  intros T this c parentWidth Hc Hw Hne.
  assert (Hrun : calculateColumns this
    = Some (Rat (inject_Z
              (Z.max (Qfloor (inject_Z parentWidth
                              / inject_Z (columnWidth this + gutterWidth this)))
                     (minCols this))), this)).
  { unfold calculateColumns, bind, get, ret. rewrite Hc, Hw.
    apply Z.eqb_neq in Hne. rewrite Hne.
    destruct (Z.ltb_spec
      (Qfloor (inject_Z parentWidth
               / inject_Z (columnWidth this + gutterWidth this)))
      (minCols this)) as [Hlt|Hge].
    - by rewrite Z.max_r by lia.
    - by rewrite Z.max_l by lia. }
  split; [exact Hrun|]. split; [symmetry; apply Zdiv_Qdiv|].
  intros Hm Hcw Hg ->. rewrite Hrun, Hm, Hcw, Hg. reflexivity.
Qed.

Lemma calculateColumns_count_witness :
  let c := {| scrollY := Some (Z2SF 1000); scrollTop := None |} in
  let this : Masonry unit :=
    mkMasonry 236 3 (Some c) (Some 1000) [] 0 0 0 0 0 250 14 0 None [] None
      800 0 in
  scrollContainer this = Some c ∧ parentClientWidth this = Some 1000
  ∧ columnWidth this + gutterWidth this ≠ 0
  ∧ calculateColumns this = Some (Rat (inject_Z 4), this).
Proof.
  intros c this. split; [reflexivity|]. split; [reflexivity|].
  split; [discriminate|].
  apply (calculateColumns_count unit this c 1000 eq_refl eq_refl);
    [discriminate|reflexivity..].
Defined.

(** ** Related items *)

(** C10. For every pair (colIdx, iIdx) that references no existing
    GridItem (column index out of range, or item index out of range in
    that column), [getItemsRelatedTo] returns the empty list and leaves
    the component unchanged. *)
Theorem getItemsRelatedTo_missing :
  ∀ (T : Type) (this : Masonry T) (colIdx iIdx : Z) (noItems : nat),
    ¬ (∃ col, 0 <= colIdx
              ∧ gridItems this !! Z.to_nat colIdx = Some col
              ∧ 0 <= iIdx < Z.of_nat (length col)) →
    getItemsRelatedTo colIdx iIdx noItems this = Some ([], this).
Proof.
  intros T this colIdx iIdx noItems Hmiss.
  unfold getItemsRelatedTo, bind, get.
  assert (Hnone : at_index (gridItems this) colIdx
                    ≫= (λ col, at_index col iIdx) = None).
  { unfold at_index.
    destruct (Z.ltb_spec colIdx 0) as [Hneg|Hpos]; [done|].
    destruct (gridItems this !! Z.to_nat colIdx) as [col|] eqn:Hcol; [|done].
    simpl.
    destruct (Z.ltb_spec iIdx 0) as [Hneg|Hipos]; [done|].
    apply lookup_ge_None.
    destruct (decide (iIdx < Z.of_nat (length col))) as [Hlt|Hge]; [|lia].
    exfalso. apply Hmiss. exists col. split; [done|]. split; [done|lia]. }
  by rewrite Hnone.
Qed.

Lemma getItemsRelatedTo_missing_witness :
  let this : Masonry unit :=
    mkMasonry 236 3 None None [[mkGridItem 1 tt 0 236 40 0 0 54 true]; []]
      54 54 0 0 2 250 14 1 (Some 2%nat) [] None 0 0 in
  getItemsRelatedTo 0 (-1) 5 this = Some ([], this)
  ∧ getItemsRelatedTo 1 0 5 this = Some ([], this)
  ∧ getItemsRelatedTo 2 0 5 this = Some ([], this).
Proof.
  intros this.
  split; [|split]; apply getItemsRelatedTo_missing;
    intros (col & Hc & Hcol & Hi); simpl in Hcol;
    try discriminate; injection Hcol as <-; simpl in Hi; lia.
Defined.

(** ** Columns under insertion *)

Section Columns.
Context {T : Type}.
Implicit Types (g : list (list (GridItem T))) (col L R : list (GridItem T)).

Lemma no_overlap_nil : no_overlap (@nil (GridItem T)).
Proof. intros i a b Ha. by rewrite lookup_nil in Ha. Qed.

Lemma no_overlap_cons a col :
  no_overlap (a :: col)
  ↔ (∀ b, head col = Some b → bottom a <= top b) ∧ no_overlap col.
Proof.
  split.
  - intros H. split.
    + intros b Hb. apply (H 0%nat a b); [done|].
      simpl. by rewrite <- head_lookup.
    + intros i x y Hx Hy. by apply (H (S i) x y).
  - intros [Hhead Htail] [|i] x y Hx Hy.
    + simpl in Hx. injection Hx as <-. apply Hhead.
      simpl in Hy. by rewrite head_lookup.
    + by apply (Htail i x y).
Qed.

Lemma no_overlap_app L R :
  no_overlap (L ++ R)
  ↔ no_overlap L ∧ no_overlap R
    ∧ (∀ a b, last L = Some a → head R = Some b → bottom a <= top b).
Proof.
  induction L as [|x L IH]; simpl.
  - split; [intros H; repeat split; [apply no_overlap_nil|done|done]|].
    by intros (_ & H & _).
  - rewrite !no_overlap_cons, IH. destruct L as [|y L]; simpl.
    + split.
      * intros (Hh & _ & HR & _).
        split; [split; [done|apply no_overlap_nil]|]. split; [done|].
        intros a b [= <-] Hb. by apply Hh.
      * intros ((_ & _) & HR & Hl).
        split; [intros b Hb; by apply Hl|].
        split; [apply no_overlap_nil|]. by split.
    + rewrite ?last_cons_cons. split.
      * intros (Hh & HL & HR & Hl). by split.
      * intros ((Hh & HL) & HR & Hl). by split.
Qed.

Lemma no_overlap_shift offset col :
  no_overlap col → no_overlap (shiftItem offset <$> col).
Proof.
  intros H i a b Ha Hb.
  rewrite list_lookup_fmap in Ha, Hb.
  destruct (col !! i) as [a'|] eqn:Ea; [|done].
  destruct (col !! S i) as [b'|] eqn:Eb; [|done].
  simpl in Ha, Hb. injection Ha as <-. injection Hb as <-.
  simpl. pose proof (H i a' b' Ea Eb). lia.
Qed.

Lemma bottoms_ok_shift gutter offset col :
  bottoms_ok gutter col → bottoms_ok gutter (shiftItem offset <$> col).
Proof.
  unfold bottoms_ok. intros H. rewrite Forall_fmap.
  eapply Forall_impl; [exact H|]. intros a Ha.
  unfold compose, shiftItem. simpl in *. lia.
Qed.

(** Splicing in an item that starts at its predecessor's [bottom]
    keeps the column free of overlaps. *)
Lemma insertShift_ok gutter i x col :
  no_overlap col → bottoms_ok gutter col →
  bottom x = top x + height x + gutter →
  (∀ p, last (take i col) = Some p → bottom p <= top x) →
  no_overlap (insertShift i x col) ∧ bottoms_ok gutter (insertShift i x col).
Proof.
  intros Hno Hbot Hx Hprev.
  rewrite <- (take_drop i col) in Hno, Hbot.
  apply no_overlap_app in Hno as (HL & HR & _).
  apply Forall_app in Hbot as [HbL HbR].
  unfold insertShift. destruct (drop i col) as [|b R] eqn:Hdrop.
  - split.
    + apply no_overlap_app. repeat split; [done| |].
      * apply no_overlap_cons. split; [done|apply no_overlap_nil].
      * intros a y Ha [= <-]. by apply Hprev.
    + apply Forall_app. split; [done|]. by constructor.
  - split.
    + apply no_overlap_app. repeat split; [done| |].
      * apply no_overlap_cons. split.
        -- intros y [= <-]. simpl. lia.
        -- by apply (no_overlap_shift _ (b :: R)).
      * intros a y Ha [= <-]. by apply Hprev.
    + apply Forall_app. split; [done|]. constructor; [done|].
      by apply (bottoms_ok_shift _ _ (b :: R)).
Qed.

Lemma insertShift_data i x col :
  itemData <$> insertShift i x col
  = take i (itemData <$> col) ++ itemData x :: drop i (itemData <$> col).
Proof.
  unfold insertShift. rewrite fmap_app, fmap_cons, <- fmap_take, <- fmap_drop.
  f_equal. f_equal. destruct (drop i col) as [|b R]; [done|].
  rewrite <- list_fmap_compose. by apply list_fmap_ext.
Qed.

Lemma insertShift_columns i x col c :
  column x = c → Forall (λ a, column a = c) col →
  Forall (λ a, column a = c) (insertShift i x col).
Proof.
  intros Hx Hcol. rewrite <- (take_drop i col) in Hcol.
  apply Forall_app in Hcol as [HL HR].
  unfold insertShift. apply Forall_app. split; [done|].
  constructor; [done|]. destruct (drop i col) as [|b R]; [done|].
  rewrite Forall_fmap. eapply Forall_impl; [exact HR|]. done.
Qed.
End Columns.

(** ** Placing one item *)

Section Placement.
Context {T : Type} (this : Masonry T).
Implicit Types (g : list (list (GridItem T))) (col : list (GridItem T)).

(** The insertion branch of [placeItem], in closed form. *)
Lemma placeItem_insert c i prev g info :
  placeItem this (Some c) (Some i) prev g info
  = Some match g !! c with
         | None => g
         | Some col =>
             <[c := insertShift i
                      (placedItem this c (bottomOr0 prev) (appended info) info)
                      col]> g
         end.
Proof.
  unfold placeItem. destruct (g !! c) as [col|] eqn:Hcol; [|done].
  fold (bottomOr0 prev).
  fold (placedItem this c (bottomOr0 prev) (appended info) info).
  set (x := placedItem this c (bottomOr0 prev) (appended info) info).
  unfold splice, insertShift.
  assert (Hlen : length (take i col ++ x :: drop i col) = S (length col)).
  { rewrite length_app, length_take. simpl. rewrite length_drop. lia. }
  rewrite Hlen.
  destruct (decide (i < length col)%nat) as [Hlt|Hge].
  - destruct (lookup_lt_is_Some_2 col i Hlt) as [b Hb].
    rewrite (drop_S col b i Hb).
    assert (Htake : length (take i col) = i) by (rewrite length_take; lia).
    replace (i <? S (length col) - 1)%nat with true
      by (symmetry; apply Nat.ltb_lt; lia).
    rewrite (lookup_app_r (take i col)) by lia.
    rewrite (lookup_app_r (take i col) _ (i + 1)) by lia.
    rewrite Htake. replace (i - i)%nat with 0%nat by lia.
    replace (i + 1 - i)%nat with 1%nat by lia. simpl.
    do 2 f_equal.
    rewrite (take_app_add' (take i col) _ i 1) by done.
    rewrite (drop_app_add' (take i col) _ i 1) by done.
    simpl. by rewrite <- app_assoc.
  - rewrite (drop_ge col i) by lia. rewrite (take_ge col i) by lia.
    replace (i <? S (length col) - 1)%nat with false
      by (symmetry; apply Nat.ltb_ge; lia).
    done.
Qed.

(** The append branch of [placeItem], in closed form. *)
Lemma placeItem_append colIdx itemIdx prev g info :
  target colIdx itemIdx = None →
  placeItem this colIdx itemIdx prev g info
  = (g !! getShortestColumn g) ≫= (λ col,
      Some (<[getShortestColumn g :=
                col ++ [placedItem this (getShortestColumn g)
                          (bottomOr0 (last col)) true info]]> g)).
Proof.
  intros Htarget. unfold placeItem.
  destruct colIdx as [c|], itemIdx as [i|]; try discriminate;
    destruct (g !! getShortestColumn g) as [col|]; done.
Qed.

(** [previousItemInColumn] is the item before the target index; an
    insertion at an index within the column leaves it in place. *)
Lemma previousItem_placeItem c i prev g info g' :
  (∀ col, g !! c = Some col → (i <= length col)%nat) →
  placeItem this (Some c) (Some i) prev g info = Some g' →
  previousItem g' (Some c) (Some i) = previousItem g (Some c) (Some i).
Proof.
  intros Hvalid. rewrite placeItem_insert. intros [= <-].
  destruct (g !! c) as [col|] eqn:Hcol; [|done].
  specialize (Hvalid col eq_refl).
  destruct i as [|i]; [done|]. simpl.
  rewrite list_lookup_insert_eq by (by apply lookup_lt_Some in Hcol).
  rewrite Hcol. simpl. unfold insertShift.
  rewrite lookup_app_l by (rewrite length_take; lia).
  by rewrite lookup_take_lt by lia.
Qed.

Lemma placeItem_length colIdx itemIdx prev g info g' :
  placeItem this colIdx itemIdx prev g info = Some g' →
  length g' = length g.
Proof.
  destruct (target colIdx itemIdx) as [[c i]|] eqn:Htarget.
  - destruct colIdx as [c'|], itemIdx as [i'|]; try discriminate.
    rewrite placeItem_insert. intros [= <-].
    destruct (g !! c'); [apply length_insert|done].
  - rewrite placeItem_append by done.
    destruct (g !! getShortestColumn g); [|done].
    simpl. intros [= <-]. apply length_insert.
Qed.

(** Appending never fails on a grid that has columns. *)
Lemma placeItem_append_total colIdx itemIdx prev g info :
  target colIdx itemIdx = None → g ≠ [] →
  ∃ col, g !! getShortestColumn g = Some col
    ∧ placeItem this colIdx itemIdx prev g info
      = Some (<[getShortestColumn g :=
                  col ++ [placedItem this (getShortestColumn g)
                            (bottomOr0 (last col)) true info]]> g).
Proof.
  intros Htarget Hne.
  destruct (lookup_lt_is_Some_2 g _ (getShortestColumn_lt g Hne)) as [col Hcol].
  exists col. split; [done|].
  rewrite placeItem_append by done. by rewrite Hcol.
Qed.
End Placement.

(** ** The grid under one placement *)

Section GridStep.
Context {T : Type} (this : Masonry T).
Implicit Types (g : list (list (GridItem T))) (col : list (GridItem T)).

Lemma insertShift_end x col : insertShift (length col) x col = col ++ [x].
Proof.
  unfold insertShift. by rewrite take_ge, drop_ge by lia.
Qed.

(** Every successful placement either leaves the grid alone (the
    target column does not exist) or splices one placed item into one
    column. *)
Lemma placeItem_cases colIdx itemIdx prev g info g' :
  placeItem this colIdx itemIdx prev g info = Some g' →
  (g' = g ∧ ∃ c i, target colIdx itemIdx = Some (c, i) ∧ g !! c = None)
  ∨ ∃ c i col t a,
      g !! c = Some col
      ∧ g' = <[c := insertShift i (placedItem this c t a info) col]> g
      ∧ (target colIdx itemIdx = Some (c, i) ∧ t = bottomOr0 prev
         ∨ target colIdx itemIdx = None ∧ c = getShortestColumn g
           ∧ i = length col ∧ t = bottomOr0 (last col)).
Proof.
  destruct (target colIdx itemIdx) as [[c i]|] eqn:Htarget.
  - destruct colIdx as [c'|], itemIdx as [i'|]; try discriminate.
    injection Htarget as -> ->.
    rewrite placeItem_insert. intros [= <-].
    destruct (g !! c) as [col|] eqn:Hcol.
    + right. exists c, i, col, (bottomOr0 prev), (appended info).
      split; [done|]. split; [done|]. by left.
    + left. split; [done|]. by exists c, i.
  - rewrite placeItem_append by done.
    destruct (g !! getShortestColumn g) as [col|] eqn:Hcol; [|done].
    simpl. intros [= <-]. right.
    exists (getShortestColumn g), (length col), col, (bottomOr0 (last col)), true.
    split; [done|]. split; [by rewrite insertShift_end|]. by right.
Qed.

Lemma grid_ok_insert gutter g c col' :
  grid_ok gutter g → no_overlap col' ∧ bottoms_ok gutter col' →
  grid_ok gutter (<[c := col']> g).
Proof. intros Hg Hcol. by apply Forall_insert. Qed.

Lemma columns_consistent_insert g c col' :
  columns_consistent g → Forall (λ a, column a = c) col' →
  columns_consistent (<[c := col']> g).
Proof.
  intros Hg Hcol k col x Hk Hx.
  apply list_lookup_insert_Some in Hk as [(<- & <- & _)|[Hne Hk]].
  - by apply (proj1 (Forall_forall _ _) Hcol).
  - by apply (Hg k col x).
Qed.

Lemma join_insert_data {B} (f : GridItem T → B) g c col col' d :
  g !! c = Some col →
  f <$> col' ≡ₚ (f <$> col) ++ [d] →
  f <$> mjoin (<[c := col']> g) ≡ₚ (f <$> mjoin g) ++ [d].
Proof.
  intros Hc Hperm.
  rewrite insert_take_drop by (by apply lookup_lt_Some in Hc).
  rewrite <- (take_drop_middle g c col Hc) at 3.
  rewrite !join_app. simpl. rewrite !fmap_app, Hperm.
  rewrite <- !app_assoc. apply Permutation_app_head, Permutation_app_head.
  apply Permutation_app_comm.
Qed.

Lemma insertShift_data_perm i x col :
  itemData <$> insertShift i x col ≡ₚ (itemData <$> col) ++ [itemData x].
Proof.
  rewrite insertShift_data.
  rewrite <- (take_drop i (itemData <$> col)) at 3.
  rewrite <- app_assoc. apply Permutation_app_head.
  apply Permutation_cons_append.
Qed.

Lemma insertShift_sublist i x col :
  (itemData <$> col) `sublist_of` (itemData <$> insertShift i x col).
Proof.
  rewrite insertShift_data.
  rewrite <- (take_drop i (itemData <$> col)) at 1.
  apply sublist_app; [done|]. by apply sublist_cons.
Qed.

(** With its index inside the column, the item before the target is
    the last one of the part in front of the splice. *)
Lemma last_take_previous g c i col :
  g !! c = Some col → (i <= length col)%nat →
  last (take i col) = previousItem g (Some c) (Some i).
Proof.
  intros Hc Hi. rewrite last_lookup, length_take.
  replace (i `min` length col)%nat with i by lia.
  destruct i as [|i]; simpl; [done|].
  rewrite Hc. simpl. by rewrite lookup_take_lt by lia.
Qed.
End GridStep.

(** ** The placing loop *)

Section PlaceItems.
Context {T : Type} (this : Masonry T).
Context (colIdx itemIdx : option nat) (prev : option (GridItem T)).
Implicit Types (g : list (list (GridItem T))) (col : list (GridItem T)).

(** A property kept by every placement is kept by the whole loop. *)
Lemma placeItems_preserves (P : list (list (GridItem T)) → Prop) :
  (∀ g info g', P g →
     placeItem this colIdx itemIdx prev g info = Some g' → P g') →
  ∀ infos g g', P g →
    placeItems this colIdx itemIdx prev g infos = Some g' → P g'.
Proof.
  intros Hstep infos. induction infos as [|info infos IH]; intros g g' HP; simpl.
  - by intros [= <-].
  - destruct (placeItem this colIdx itemIdx prev g info) as [g1|] eqn:Hplace;
      [|done].
    apply IH. by apply (Hstep g info g1).
Qed.

Lemma placeItems_length infos g g' :
  placeItems this colIdx itemIdx prev g infos = Some g' →
  length g' = length g.
Proof.
  apply (placeItems_preserves (λ g1, length g1 = length g)); [|done].
  intros g1 info g2 Hlen Hplace.
  by rewrite (placeItem_length this _ _ _ _ _ _ Hplace).
Qed.

(** The loop runs to its end whenever it inserts at a target, or
    appends to a grid that has columns. *)
Lemma placeItems_total infos g :
  target colIdx itemIdx ≠ None ∨ g ≠ [] →
  ∃ g', placeItems this colIdx itemIdx prev g infos = Some g'.
Proof.
  revert g. induction infos as [|info infos IH]; intros g Hok; simpl.
  - by exists g.
  - assert (∃ g1, placeItem this colIdx itemIdx prev g info = Some g1)
      as [g1 Hplace].
    { destruct (target colIdx itemIdx) as [[c i]|] eqn:Htarget.
      - destruct colIdx as [c'|], itemIdx as [i'|]; try discriminate.
        rewrite placeItem_insert. by eexists.
      - destruct Hok as [Hok|Hne]; [done|].
        destruct (placeItem_append_total this colIdx itemIdx prev g info
                    Htarget Hne) as (col & _ & Hplace).
        by eexists. }
    rewrite Hplace. apply IH.
    destruct Hok as [Hok|Hne]; [by left|right].
    apply placeItem_length in Hplace.
    intros ->. destruct g; [done|discriminate].
Qed.

(** *** No overlap *)

Lemma placeItem_grid_ok g info g' :
  (grid_ok (gutterWidth this) g ∧ valid_target colIdx itemIdx g
   ∧ previousItem g colIdx itemIdx = prev) →
  placeItem this colIdx itemIdx prev g info = Some g' →
  (grid_ok (gutterWidth this) g' ∧ valid_target colIdx itemIdx g'
   ∧ previousItem g' colIdx itemIdx = prev).
Proof.
  intros (Hok & Hvalid & Hprev) Hplace.
  destruct (placeItem_cases this _ _ _ _ _ _ Hplace)
    as [[-> _]|(c & i & col & t & a & Hc & -> & Hmode)]; [done|].
  destruct (Forall_lookup_1 _ _ _ _ Hok Hc) as [Hno Hbot].
  assert (Hlt : (c < length g)%nat) by (by apply lookup_lt_Some in Hc).
  split; [|split].
  - apply grid_ok_insert; [done|].
    apply insertShift_ok; [done|done|done|].
    intros p Hp. simpl.
    destruct Hmode as [[Htarget ->]|(Htarget & _ & -> & ->)].
    + rewrite (last_take_previous g c i col Hc) in Hp
        by (by apply (Hvalid c i col)).
      destruct colIdx as [c'|], itemIdx as [i'|]; try discriminate.
      injection Htarget as -> ->. rewrite <- Hprev, Hp. simpl. lia.
    + rewrite take_ge in Hp by lia. rewrite Hp. simpl. lia.
  - intros c' i' col' Htarget Hc'.
    destruct Hmode as [[Htarget' _]|(Htarget' & _)]; [|congruence].
    rewrite Htarget in Htarget'. injection Htarget' as -> ->.
    rewrite list_lookup_insert_eq in Hc' by done. injection Hc' as <-.
    pose proof (Hvalid c i col Htarget Hc).
    unfold insertShift. rewrite length_app, length_take. simpl. lia.
  - destruct Hmode as [[Htarget _]|(Htarget & _)].
    + destruct colIdx as [c'|], itemIdx as [i'|]; try discriminate.
      injection Htarget as -> ->. rewrite <- Hprev.
      apply (previousItem_placeItem this c i prev g info).
      * intros col' Hc'. apply (Hvalid c i col'); [done|done].
      * exact Hplace.
    + rewrite <- Hprev.
      destruct colIdx as [c'|], itemIdx as [[|i']|]; try discriminate; done.
Qed.

(** *** Columns and their members *)

Lemma placeItem_consistent g info g' :
  columns_consistent g →
  placeItem this colIdx itemIdx prev g info = Some g' →
  columns_consistent g'.
Proof.
  intros Hcons Hplace.
  destruct (placeItem_cases this _ _ _ _ _ _ Hplace)
    as [[-> _]|(c & i & col & t & a & Hc & -> & _)]; [done|].
  apply columns_consistent_insert; [done|].
  apply insertShift_columns; [done|].
  apply Forall_forall. intros x Hx. by apply (Hcons c col x).
Qed.

(** Every column keeps its items, in their order. *)
Lemma placeItem_sublist g0 g info g' :
  (∀ k col, g0 !! k = Some col →
     ∃ col', g !! k = Some col'
             ∧ (itemData <$> col) `sublist_of` (itemData <$> col')) →
  placeItem this colIdx itemIdx prev g info = Some g' →
  (∀ k col, g0 !! k = Some col →
     ∃ col', g' !! k = Some col'
             ∧ (itemData <$> col) `sublist_of` (itemData <$> col')).
Proof.
  intros Hsub Hplace k col0 Hk.
  destruct (Hsub k col0 Hk) as (col1 & Hk1 & Hsub1).
  destruct (placeItem_cases this _ _ _ _ _ _ Hplace)
    as [[-> _]|(c & i & col & t & a & Hc & -> & _)]; [by exists col1|].
  destruct (decide (c = k)) as [->|Hne].
  - rewrite Hc in Hk1. injection Hk1 as ->.
    eexists. split.
    + apply list_lookup_insert_eq. by apply lookup_lt_Some in Hc.
    + etrans; [exact Hsub1|]. apply insertShift_sublist.
  - exists col1. split; [|done]. by rewrite list_lookup_insert_ne.
Qed.
End PlaceItems.

(** ** insertItems as a whole *)

Section InsertItems.
Context {T : Type} (measure : Z → T → Z * Z).
Implicit Types (this : Masonry T) (g : list (list (GridItem T))).
Implicit Types (forceUpdate : bool) (colIdx itemIdx : option nat).

Lemma startGrid_eq this forceUpdate :
  (let g0 := if forceUpdate then [] else gridItems this in
   if (length g0 =? 0)%nat then replicate (columnCount this) [] else g0)
  = startGrid this forceUpdate.
Proof.
  unfold startGrid. destruct forceUpdate; [done|].
  by destruct (gridItems this).
Qed.

Lemma previousItem_startGrid this forceUpdate colIdx itemIdx :
  previousItem (if forceUpdate then [] else gridItems this) colIdx itemIdx
  = previousItem (startGrid this forceUpdate) colIdx itemIdx.
Proof.
  assert (Hfresh : ∀ n,
    previousItem (@replicate (list (GridItem T)) n []) colIdx itemIdx = None).
  { intros n. destruct colIdx as [c|], itemIdx as [[|i]|]; try done.
    simpl. destruct (replicate n [] !! c) as [col|] eqn:Hc; [|done].
    apply lookup_replicate in Hc as [-> _]. done. }
  unfold startGrid. destruct forceUpdate.
  - rewrite Hfresh. by destruct colIdx as [c|], itemIdx as [[|i]|].
  - destruct (gridItems this) as [|col g] eqn:Hg; [|done].
    rewrite Hfresh. by destruct colIdx as [c|], itemIdx as [[|i]|].
Qed.

(** What a completed call leaves behind. *)
Lemma insertItems_Some this newItems colIdx itemIdx forceUpdate r :
  insertItems measure newItems colIdx itemIdx forceUpdate this = Some r →
  placeItems this colIdx itemIdx
    (previousItem (startGrid this forceUpdate) colIdx itemIdx)
    (startGrid this forceUpdate)
    (insertInfos measure this newItems colIdx itemIdx forceUpdate)
  = Some (gridItems r.2)
  ∧ gutterWidth r.2 = gutterWidth this
  ∧ columnCount r.2 = columnCount this
  ∧ itemWidth r.2 = itemWidth this
  ∧ itemKeyCounter r.2
    = Some (keyCounterOrOne (itemKeyCounter this)
            + length (selectItems this newItems forceUpdate))%nat
  ∧ insertedItemsCount r.2
    = match colIdx, itemIdx with
      | None, None => (insertedItemsCount this
                       + length (selectItems this newItems forceUpdate))%nat
      | _, _ => insertedItemsCount this
      end
  ∧ serverRefs r.2 = serverRefs this.
Proof.
  unfold insertItems, bind, get, put, throw, insertInfos.
  rewrite startGrid_eq, previousItem_startGrid.
  destruct (placeItems _ _ _ _ _ _) as [g2|]; [|done].
  destruct (columnHeights g2 0 None) as [h m]. by intros [= <-].
Qed.

(** A call completes exactly when its placing loop does. *)
Lemma insertItems_total this newItems colIdx itemIdx forceUpdate g2 :
  placeItems this colIdx itemIdx
    (previousItem (startGrid this forceUpdate) colIdx itemIdx)
    (startGrid this forceUpdate)
    (insertInfos measure this newItems colIdx itemIdx forceUpdate)
  = Some g2 →
  ∃ this', insertItems measure newItems colIdx itemIdx forceUpdate this
           = Some (tt, this').
Proof.
  intros Hplace. unfold insertItems, bind, get, put, throw.
  rewrite startGrid_eq, previousItem_startGrid.
  unfold insertInfos in Hplace. rewrite Hplace.
  destruct (columnHeights g2 0 None) as [h m]. by eexists.
Qed.

Lemma startGrid_nonempty this forceUpdate :
  (0 < columnCount this)%nat → startGrid this forceUpdate ≠ [].
Proof.
  intros Hcount. unfold startGrid.
  destruct forceUpdate; [|destruct (gridItems this) eqn:Hg; [|done]];
    by destruct (columnCount this); [lia|].
Qed.


Lemma buildItemInfos_data this sizes colIdx itemIdx prev items n counter :
  itemData <$> buildItemInfos measure this sizes colIdx itemIdx prev
                 items n counter
  = items.
Proof.
  revert n counter. induction items as [|d items IH]; intros n counter;
    [done|]. simpl. by rewrite IH.
Qed.
End InsertItems.

Section InsertShiftLookup.
Context {T : Type}.
Implicit Types (col : list (GridItem T)) (x : GridItem T).

Lemma insertShift_length i x col :
  length (insertShift i x col) = S (length col).
Proof.
  unfold insertShift. rewrite length_app, length_take. simpl.
  destruct (drop i col) as [|b r] eqn:Hdrop.
  - apply (f_equal length) in Hdrop. rewrite length_drop in Hdrop.
    simpl in *. lia.
  - apply (f_equal length) in Hdrop. rewrite length_drop in Hdrop.
    simpl in *. rewrite length_fmap. lia.
Qed.



End InsertShiftLookup.

Section InsertItemsResults.
Context {T : Type} (measure : Z → T → Z * Z).
Implicit Types (this : Masonry T) (g : list (list (GridItem T))).
Implicit Types (forceUpdate : bool) (colIdx itemIdx : option nat).

(** Placing into a column that does not exist changes nothing. *)
Lemma placeItems_missing this c i prev g infos :
  g !! c = None →
  placeItems this (Some c) (Some i) prev g infos = Some g.
Proof.
  intros Hc. induction infos as [|info infos IH]; [done|].
  cbn [placeItems]. rewrite placeItem_insert, Hc. exact IH.
Qed.

(** The placed items join the grid, each once. *)
Lemma placeItems_data this colIdx itemIdx prev infos : ∀ g g',
  placeItems this colIdx itemIdx prev g infos = Some g' →
  itemData <$> mjoin g'
  ≡ₚ (itemData <$> mjoin g)
     ++ placed_items colIdx itemIdx g (itemData <$> infos).
Proof.
  induction infos as [|info infos IH]; intros g g'; simpl.
  - intros [= <-]. unfold placed_items.
    destruct (target colIdx itemIdx) as [[c i]|]; [case_decide|];
      by rewrite app_nil_r.
  - destruct (placeItem this colIdx itemIdx prev g info) as [g1|] eqn:Hplace;
      [|done].
    intros Hrest. rewrite (IH g1 g' Hrest).
    pose proof (placeItem_length this _ _ _ _ _ _ Hplace) as Hlen.
    destruct (placeItem_cases this _ _ _ _ _ _ Hplace)
      as [[-> (c & i & Htarget & Hc)]
         |(c & i & col & t & a & Hc & -> & Hmode)].
    + unfold placed_items. rewrite Htarget.
      apply lookup_ge_None in Hc. by rewrite !decide_False by lia.
    + rewrite (join_insert_data itemData g c col _
                 (itemData (placedItem this c t a info)) Hc)
        by apply insertShift_data_perm.
      change (itemData (placedItem this c t a info)) with (itemData info).
      assert (Hlt : (c < length g)%nat) by (by apply lookup_lt_Some in Hc).
      unfold placed_items. rewrite Hlen.
      destruct Hmode as [[Htarget _]|[Htarget _]]; rewrite Htarget.
      * rewrite !decide_True by done. by rewrite <- app_assoc.
      * by rewrite <- app_assoc.
Qed.
End InsertItemsResults.

(** ** Insertions driven by related items *)

Section RelatedInsertions.
Context {T : Type} (measure : Z → T → Z * Z).
Implicit Types (this : Masonry T) (g : list (list (GridItem T))).
Implicit Types (forceUpdate : bool) (colIdx itemIdx : option nat).


(** One call removes no column and no item. *)
Lemma insertItems_grows this newItems colIdx itemIdx r :
  gridItems this ≠ [] →
  insertItems measure newItems colIdx itemIdx false this = Some r →
  grid_grows (gridItems this) (gridItems r.2).
Proof.
  intros Hne Hrun.
  destruct (insertItems_Some measure _ _ _ _ _ _ Hrun) as (Hplace & _).
  assert (Hstart : startGrid this false = gridItems this).
  { unfold startGrid. by destruct (gridItems this). }
  rewrite Hstart in Hplace.
  assert (Hsub : ∀ c col, gridItems this !! c = Some col →
            ∃ col', gridItems r.2 !! c = Some col'
                    ∧ (itemData <$> col) `sublist_of` (itemData <$> col')).
  { revert Hplace.
    apply (placeItems_preserves this colIdx itemIdx _
             (λ g, ∀ c col, gridItems this !! c = Some col →
                ∃ col', g !! c = Some col'
                        ∧ (itemData <$> col) `sublist_of` (itemData <$> col'))).
    - intros g info g' Hg. by apply placeItem_sublist.
    - intros c col Hc. by exists col. }
  intros c col Hc. destruct (Hsub c col Hc) as (col' & Hc' & Hsubl).
  exists col'. split; [done|].
  apply sublist_length in Hsubl. by rewrite !length_fmap in Hsubl.
Qed.

Lemma related_valid_grows g g' r :
  grid_grows g g' → related_valid g r → related_valid g' r.
Proof.
  intros Hgrows (col & Hc & Hi).
  destruct (Hgrows _ _ Hc) as (col' & Hc' & Hlen).
  exists col'. split; [done|lia].
Qed.

Lemma relatedCandidates_valid this (colIdx iIdx : Z) itemA :
  Forall (λ c, ∃ col, gridItems this !! cand_columnIdx c = Some col
                      ∧ (cand_itemIdx c < length col)%nat)
    (relatedCandidates this colIdx iIdx itemA).
Proof.
  apply Forall_forall. intros x Hx. unfold relatedCandidates in Hx.
  apply list_elem_of_join in Hx as (l & Hx & Hl).
  apply elem_of_lookup_imap_1 in Hl as (c & col & -> & Hc).
  apply list_elem_of_omap in Hx as ([j b] & Hjb & Hsome).
  apply elem_of_lookup_imap_1 in Hjb as (j' & b' & [= -> ->] & Hj).
  exists col. destruct (_ || _) in Hsome; [done|].
  injection Hsome as <-. simpl. split; [done|].
  by apply lookup_lt_Some in Hj.
Qed.

Lemma mapping_add_valid g c i m :
  (∃ col, g !! c = Some col ∧ (i < length col)%nat) →
  Forall (related_valid g) m →
  Forall (related_valid g) (mapping_add c i m).
Proof.
  intros Hci. induction 1 as [|r m Hr Hm IH]; simpl.
  - by repeat constructor.
  - destruct (columnIdx r =? c)%nat; [by constructor|].
    destruct (c <? columnIdx r)%nat; by repeat constructor.
Qed.

(** The insertion points [getItemsRelatedTo] hands out are positions of
    existing items. *)
Lemma getItemsRelatedTo_valid this (colIdx iIdx : Z) noItems rs this' :
  getItemsRelatedTo colIdx iIdx noItems this = Some (rs, this') →
  this' = this ∧ Forall (related_valid (gridItems this)) rs.
Proof.
  unfold getItemsRelatedTo, bind, get, ret.
  destruct (at_index (gridItems this) colIdx ≫= _) as [itemA|].
  - intros [= <- <-]. split; [done|].
    assert (Hcands : Forall (λ c, ∃ col,
              gridItems this !! cand_columnIdx c = Some col
              ∧ (cand_itemIdx c < length col)%nat)
              (take noItems
                 (sort (λ a b, jsnum_compare (cand_distance a) (cand_distance b))
                    (relatedCandidates this colIdx iIdx itemA)))).
    { apply Forall_take. rewrite sort_perm. apply relatedCandidates_valid. }
    unfold groupByColumn.
    revert Hcands. generalize (take noItems
      (sort (λ a b, jsnum_compare (cand_distance a) (cand_distance b))
         (relatedCandidates this colIdx iIdx itemA))).
    intros cands Hcands.
    assert (Hacc : Forall (related_valid (gridItems this)) (@nil Related))
      by constructor.
    revert Hacc. generalize (@nil Related).
    induction Hcands as [|cand cands Hcand Hcands IH]; intros m Hm; [done|].
    simpl. apply IH. by apply mapping_add_valid.
  - intros [= <- <-]. split; [done|constructor].
Qed.


End RelatedInsertions.

(** ** Layout invariants of insertItems *)



(** C9. After every completed [insertItems] call (append, insertion at
    a target, or forced rebuild): the grid holds exactly [columnCount]
    column arrays, every GridItem's [column] field is the index of the
    array that contains it, every column keeps the items it had in
    their order (none moves to another column), and the items of the
    grid are the former ones and the placed ones, each once.  A forced
    rebuild establishes this whatever the grid held before, also when
    [columnCount] has changed since; an append or an insertion at a
    target keeps it, given a grid that had no columns yet or
    [columnCount] of them, each item recording its column.  A call
    with [columnCount > 0] always completes. *)
Theorem insertItems_columns :
  ∀ (T : Type) (measure : Z → T → Z * Z) (this : Masonry T)
    (newItems : list T) (colIdx itemIdx : option nat) (forceUpdate : bool),
    (forceUpdate = false →
     gridItems this = [] ∨ length (gridItems this) = columnCount this) →
    (forceUpdate = false → columns_consistent (gridItems this)) →
    (∀ r, insertItems measure newItems colIdx itemIdx forceUpdate this = Some r →
       columnCount r.2 = columnCount this
       ∧ length (gridItems r.2) = columnCount this
       ∧ (∀ c col x, gridItems r.2 !! c = Some col → x ∈ col → column x = c)
       ∧ (∀ c col, startGrid this forceUpdate !! c = Some col →
            ∃ col', gridItems r.2 !! c = Some col'
                    ∧ (itemData <$> col) `sublist_of` (itemData <$> col'))
       ∧ itemData <$> allItems r.2
         ≡ₚ (if forceUpdate then [] else itemData <$> allItems this)
            ++ placed_items colIdx itemIdx (startGrid this forceUpdate)
                 (selectItems this newItems forceUpdate))
    ∧ ((0 < columnCount this)%nat →
       ∃ this', insertItems measure newItems colIdx itemIdx forceUpdate this
                = Some (tt, this')).
Proof.
  intros T measure this newItems colIdx itemIdx forceUpdate Hcount Hcons.
  assert (Hstart_len : length (startGrid this forceUpdate) = columnCount this).
  { unfold startGrid. destruct forceUpdate; [apply length_replicate|].
    destruct (gridItems this) as [|col g] eqn:Hg; [apply length_replicate|].
    by destruct (Hcount eq_refl). }
  assert (Hfresh : ∀ n, columns_consistent (@replicate (list (GridItem T)) n [])).
  { intros n c col x Hc Hx. apply lookup_replicate in Hc as [-> _].
    by apply elem_of_nil in Hx. }
  assert (Hstart_cons : columns_consistent (startGrid this forceUpdate)).
  { unfold startGrid. destruct forceUpdate; [done|].
    specialize (Hcons eq_refl). by destruct (gridItems this). }
  assert (Hstart_data : itemData <$> mjoin (startGrid this forceUpdate)
                        = if forceUpdate then [] else itemData <$> allItems this).
  { assert (Hjoin : ∀ n, mjoin (@replicate (list (GridItem T)) n []) = []).
    { intros n. induction n as [|n IH]; [done|]. simpl. exact IH. }
    unfold startGrid, allItems. destruct forceUpdate; [by rewrite Hjoin|].
    destruct (gridItems this); [by rewrite Hjoin|done]. }
  split.
  - intros r Hrun.
    destruct (insertItems_Some measure _ _ _ _ _ _ Hrun)
      as (Hplace & _ & Hcc & _).
    split; [done|]. split; [|split; [|split]].
    + by rewrite (placeItems_length _ _ _ _ _ _ _ Hplace).
    + revert Hplace.
      apply (placeItems_preserves this colIdx itemIdx _ columns_consistent);
        [|done].
      intros g info g' Hg. by apply placeItem_consistent.
    + revert Hplace.
      apply (placeItems_preserves this colIdx itemIdx _
               (λ g, ∀ c col, startGrid this forceUpdate !! c = Some col →
                  ∃ col', g !! c = Some col'
                          ∧ (itemData <$> col) `sublist_of` (itemData <$> col'))).
      * intros g info g' Hg. by apply placeItem_sublist.
      * intros c col Hc. by exists col.
    + unfold allItems. rewrite (placeItems_data _ _ _ _ _ _ _ Hplace).
      rewrite Hstart_data. unfold insertInfos.
      by rewrite buildItemInfos_data.
  - intros Hpos.
    destruct (placeItems_total this colIdx itemIdx
                (previousItem (startGrid this forceUpdate) colIdx itemIdx)
                (insertInfos measure this newItems colIdx itemIdx forceUpdate)
                (startGrid this forceUpdate)) as [g2 Hplace].
    { right. by apply startGrid_nonempty. }
    by apply (insertItems_total measure _ _ _ _ _ g2).
Qed.

Lemma insertItems_columns_witness :
  let A := mkGridItem 1 tt 0 250 40 0 0 54 true in
  let B := mkGridItem 2 tt 1 250 30 250 0 44 true in
  let this : Masonry unit :=
    mkMasonry 236 1 None None [[A]; [B]] 54 44 0 0 2 250 14 2 (Some 3%nat)
      [] None 0 0 in
  ∃ this', insertItems (λ w _, (w, 20)) [tt] None None false this
           = Some (tt, this').
Proof.
  intros A B this.
  apply (insertItems_columns unit (λ w _, (w, 20)) this [tt] None None false).
  - intros _. by right.
  - intros _ [|[|c]] col x Hc Hx; simpl in Hc; try discriminate;
      injection Hc as <-; apply list_elem_of_singleton in Hx; by subst x.
  - simpl. lia.
Defined.

(** The rebuild after a resize: the grid still has the two columns of
    the old layout, with an item that records a column the new layout
    does not have, when [columnCount] is already 3; the forced rebuild
    leaves three columns whose items record their column. *)
Example insertItems_columns_resized :
  let A := mkGridItem 1 1%nat 0 250 40 0 0 54 true in
  let B := mkGridItem 2 2%nat 7 250 30 250 0 44 true in
  let this : Masonry nat :=
    mkMasonry 236 1 None None [[A]; [B]] 54 44 0 0 3 200 14 2 (Some 0%nat)
      [] None 0 0 in
  ¬ columns_consistent (gridItems this)
  ∧ length (gridItems this) ≠ columnCount this
  ∧ ∃ this',
      insertItems (λ w _, (w, 20)) [1%nat; 2%nat] None None true this
      = Some (tt, this')
      ∧ map (map (λ x, (itemData x, column x))) (gridItems this')
        = [[(1%nat, 0%nat)]; [(2%nat, 1%nat)]; []].
Proof.
  intros A B this. split.
  - intros Hcons. by specialize (Hcons 1%nat [B] B eq_refl ltac:(by left)).
  - split; [discriminate|].
    eexists. split; [vm_compute; reflexivity|]. reflexivity.
Qed.

(** ** Insertion at a target *)

(** C5, as the code has it.  The columns an [insertItems] call works
    on are the columns of the grid, or [columnCount] fresh empty ones
    when the grid has none or the call is a forced rebuild
    ([startGrid]).  When the target column is not among them the call
    completes and adds no item: the grid is exactly those columns
    afterwards, so that, unless the call is a forced rebuild, every
    existing GridItem is unchanged and a grid that had columns keeps
    its column arrays as they were.  When the
    target column is among them and the target index lies at or beyond
    its end, the call completes and every GridItem of those columns
    keeps its place and is unchanged ([column], [left], [top] and
    [bottom] included), in the target column and in the others; whether
    an item is added is left open here. *)
Theorem insertItems_missing_column :
  ∀ (T : Type) (measure : Z → T → Z * Z) (this : Masonry T)
    (newItems : list T) (c i : nat) (forceUpdate : bool),
    (startGrid this forceUpdate !! c = None →
     ∃ this',
       insertItems measure newItems (Some c) (Some i) forceUpdate this
       = Some (tt, this')
       ∧ gridItems this' = startGrid this forceUpdate
       ∧ (forceUpdate = false →
          allItems this' = allItems this
          ∧ (gridItems this ≠ [] → gridItems this' = gridItems this)))
    ∧ (∀ col, startGrid this forceUpdate !! c = Some col →
         (length col <= i)%nat →
         ∃ this' col',
           insertItems measure newItems (Some c) (Some i) forceUpdate this
           = Some (tt, this')
           ∧ length (gridItems this') = length (startGrid this forceUpdate)
           ∧ (∀ k, k ≠ c →
                gridItems this' !! k = startGrid this forceUpdate !! k)
           ∧ gridItems this' !! c = Some col'
           ∧ (∀ k y, col !! k = Some y → col' !! k = Some y)
           ∧ (forceUpdate = false →
              ∀ y, y ∈ allItems this → y ∈ allItems this')).
Proof.
  intros T measure this newItems c i forceUpdate.
  assert (Hfresh : ∀ n, mjoin (@replicate (list (GridItem T)) n []) = []).
  { intros n. induction n as [|n IH]; [done|]. simpl. exact IH. }
  assert (Hitems : forceUpdate = false →
            mjoin (startGrid this forceUpdate) = allItems this).
  { intros ->. unfold startGrid, allItems.
    destruct (gridItems this); [apply Hfresh|done]. }
  split.
  - intros Hc.
    pose proof (placeItems_missing this c i
                  (previousItem (startGrid this forceUpdate) (Some c) (Some i))
                  (startGrid this forceUpdate)
                  (insertInfos measure this newItems (Some c) (Some i)
                     forceUpdate) Hc) as Hplace.
    destruct (insertItems_total measure _ _ _ _ _ _ Hplace) as [this' Hrun].
    exists this'. split; [exact Hrun|].
    destruct (insertItems_Some measure _ _ _ _ _ _ Hrun) as (Hplace' & _).
    rewrite Hplace in Hplace'. injection Hplace' as Hgrid. simpl in Hgrid.
    split; [done|]. intros Hforce. split.
    + unfold allItems at 1. rewrite <- Hgrid. by apply Hitems.
    + intros Hne. rewrite <- Hgrid, Hforce. unfold startGrid.
      by destruct (gridItems this).
  - intros col Hc Hi.
    destruct (placeItems_total this (Some c) (Some i)
                (previousItem (startGrid this forceUpdate) (Some c) (Some i))
                (insertInfos measure this newItems (Some c) (Some i)
                   forceUpdate)
                (startGrid this forceUpdate)) as [g2 Hplace]; [by left|].
    destruct (insertItems_total measure _ _ _ _ _ _ Hplace) as [this' Hrun].
    destruct (insertItems_Some measure _ _ _ _ _ _ Hrun) as (Hplace' & _).
    rewrite Hplace in Hplace'. injection Hplace' as Hgrid. simpl in Hgrid.
    assert (Hinv : (∀ k, k ≠ c → g2 !! k = startGrid this forceUpdate !! k)
                   ∧ ∃ col', g2 !! c = Some col'
                             ∧ ∀ k y, col !! k = Some y → col' !! k = Some y).
    { revert Hplace.
      apply (placeItems_preserves this (Some c) (Some i) _
               (λ g, (∀ k, k ≠ c → g !! k = startGrid this forceUpdate !! k)
                     ∧ ∃ col', g !! c = Some col'
                               ∧ ∀ k y, col !! k = Some y →
                                        col' !! k = Some y)).
      - intros g info g' (Hothers & col1 & Hc1 & Hkeep).
        rewrite placeItem_insert, Hc1. intros [= <-]. split.
        + intros k Hk. rewrite list_lookup_insert_ne by done.
          by apply Hothers.
        + eexists. split.
          * apply list_lookup_insert_eq. by eapply lookup_lt_Some.
          * intros k y Hy. pose proof (Hkeep k y Hy) as Hy1.
            apply lookup_lt_Some in Hy. unfold insertShift.
            rewrite lookup_app_l
              by (apply lookup_lt_Some in Hy1; rewrite length_take; lia).
            rewrite lookup_take_lt by lia. done.
      - split; [done|]. by exists col. }
    destruct Hinv as (Hothers & col' & Hc' & Hkeep).
    exists this', col'. rewrite <- Hgrid.
    split; [exact Hrun|].
    split; [by rewrite (placeItems_length _ _ _ _ _ _ _ Hplace)|].
    split; [done|]. split; [done|]. split; [done|].
    intros Hforce y Hy. rewrite <- (Hitems Hforce) in Hy.
    unfold allItems. rewrite <- Hgrid.
    apply list_elem_of_join in Hy as (col0 & Hy & Hcol0).
    apply list_elem_of_lookup in Hcol0 as [k Hk].
    apply list_elem_of_join.
    destruct (decide (k = c)) as [->|Hne].
    + rewrite Hc in Hk. injection Hk as <-.
      exists col'. split; [|by eapply list_elem_of_lookup_2].
      apply list_elem_of_lookup in Hy as [j Hj].
      by eapply list_elem_of_lookup_2, Hkeep.
    + exists col0. split; [done|].
      eapply list_elem_of_lookup_2. by rewrite Hothers.
Qed.

Lemma insertItems_missing_column_witness :
  let A := mkGridItem 1 tt 0 250 40 0 0 54 true in
  let this : Masonry unit :=
    mkMasonry 236 1 None None [[A]; []] 54 54 0 0 2 250 14 1 (Some 2%nat)
      [] None 0 0 in
  (∃ this',
     insertItems (λ w _, (w, 20)) [tt] (Some 2%nat) (Some 0%nat) false this
     = Some (tt, this')
     ∧ gridItems this' = [[A]; []])
  ∧ ∃ this' col',
      insertItems (λ w _, (w, 20)) [tt] (Some 0%nat) (Some 5%nat) false this
      = Some (tt, this')
      ∧ gridItems this' !! 0%nat = Some col' ∧ col' !! 0%nat = Some A.
Proof.
  intros A this. split.
  - destruct (proj1 (insertItems_missing_column unit (λ w _, (w, 20)) this
                       [tt] 2 0 false))
      as (this' & Hrun & Hgrid & _); [reflexivity|].
    exists this'. split; [exact Hrun|exact Hgrid].
  - destruct (proj2 (insertItems_missing_column unit (λ w _, (w, 20)) this
                       [tt] 0 5 false) [A])
      as (this' & col' & Hrun & _ & _ & Hcol & Hkeep & _);
      [reflexivity|simpl; lia|].
    exists this', col'. split; [exact Hrun|]. split; [exact Hcol|].
    by apply Hkeep.
Defined.

(** C5 fails for a target index that does not exist: in a column of
    one item, index 5 is not rejected; the new item is added behind the
    existing one, at [top = 0]. *)
Lemma insertItems_missing_index_adds :
  let A := mkGridItem 1 1%nat 0 250 40 0 0 54 true in
  let this : Masonry nat :=
    mkMasonry 236 1 None None [[A]; []] 54 54 0 0 2 250 14 1 (Some 2%nat)
      [] None 0 0 in
  (gridItems this !! 0%nat = Some [A] ∧ [A] !! 5%nat = None)
  ∧ ∃ this',
      insertItems (λ w _, (w, 20)) [7%nat] (Some 0%nat) (Some 5%nat) false this
      = Some (tt, this')
      ∧ map (map (λ x, (itemData x, top x, bottom x))) (gridItems this')
        = [[(1%nat, 0, 54); (7%nat, 0, 34)]; []]
      ∧ gridItems this' ≠ gridItems this.
Proof.
  intros A this. split; [by split|].
  eexists. split; [vm_compute; reflexivity|]. split; [reflexivity|].
  intros Heq. apply (f_equal (λ g, length <$> g)) in Heq. discriminate.
Qed.

(** The columns are created before the guard on the target column
    is reached: on a grid that has no columns yet, with
    [columnCount = 3], column 1 is not a column of the grid, but the
    call creates it and adds the item to it. *)
Example insertItems_empty_grid_adds :
  let this : Masonry nat :=
    mkMasonry 236 1 None None [] 0 0 0 0 3 250 14 0 None [] None 0 0 in
  gridItems this !! 1%nat = None
  ∧ ∃ this',
      insertItems (λ w _, (w, 20)) [7%nat] (Some 1%nat) (Some 0%nat) false this
      = Some (tt, this')
      ∧ map (map (λ x, (itemData x, top x, bottom x))) (gridItems this')
        = [[]; [(7%nat, 0, 34)]; []].
Proof.
  intros this. split; [done|].
  eexists. split; [vm_compute; reflexivity|]. reflexivity.
Qed.

(** C3 at a batch of two, with a valid target: the call takes at most
    [MAX_ITEMS_PER_INSERTION] items (lines 366-367), so the second item
    of the batch is not at index [targetIndex + 1]; the old occupant
    is, and item 8 is in no column. *)
Lemma insertItems_batch_truncated :
  let A := mkGridItem 1 1%nat 0 250 40 0 0 54 true in
  let this : Masonry nat :=
    mkMasonry 236 1 None None [[A]] 54 54 0 0 1 250 14 1 (Some 2%nat)
      [] None 0 0 in
  ∃ this',
    insertItems (λ w _, (w, 20)) [7%nat; 8%nat] (Some 0%nat) (Some 0%nat)
      false this
    = Some (tt, this')
    ∧ map (map itemData) (gridItems this') = [[7%nat; 1%nat]]
    ∧ ¬ (8%nat ∈ itemData <$> allItems this')
    ∧ ¬ batch_in_order [7%nat; 8%nat] 0 0 this'.
Proof.
  intros A this.
  eexists. split; [vm_compute; reflexivity|]. split; [reflexivity|].
  split.
  { intros Hin. simpl in Hin. rewrite !elem_of_cons in Hin.
    destruct Hin as [?|[?|Hin]]; try discriminate.
    by apply elem_of_nil in Hin. }
  intros Hbatch.
  destruct (Hbatch 1%nat 8%nat eq_refl) as (col & x & Hcol & Hx & Hd).
  simpl in Hcol. injection Hcol as <-.
  simpl in Hx. injection Hx as <-. discriminate.
Qed.

(** The same cap on the path the component itself takes: asked for
    three related items by the first item of column 0,
    [handleAddRelatedItems] resolves one insertion point in column 0 and
    one in column 1 for two items; the item 9 is handed to [insertItems]
    but never placed. *)
Example handleAddRelatedItems_drops :
  let item d c t b :=
    mkGridItem (inject_Z (Z.of_nat d)) d c 250 (b - t - 14) (250 * Z.of_nat c)
      t b true in
  let this : Masonry nat :=
    mkMasonry 236 3 None None
      [[item 1%nat 0%nat 0 64; item 4%nat 0%nat 64 158];
       [item 2%nat 1%nat 0 74; item 5%nat 1%nat 74 178];
       [item 3%nat 2%nat 0 84; item 6%nat 2%nat 84 198]]
      198 158 0 0 3 250 14 6 (Some 7%nat) [] None 0 0 in
  getItemsRelatedTo 0 0 3 this
  = Some ([mkRelated 0 1 1; mkRelated 1 0 2], this)
  ∧ ∃ this',
      handleAddRelatedItems (λ w d, (w, 40 + 10 * Z.of_nat d)) 0 0
        [7%nat; 8%nat; 9%nat] this
      = Some (tt, this')
      ∧ map (map itemData) (gridItems this')
        = [[1%nat; 7%nat; 4%nat]; [8%nat; 2%nat; 5%nat]; [3%nat; 6%nat]].
Proof.
  intros item this. split; [reflexivity|].
  eexists. split; [vm_compute; reflexivity|]. reflexivity.
Qed.



(** ** Key order of the feed *)

Section FeedOrder.
Context {T : Type}.
Implicit Types (g : list (list (GridItem T))) (col : list (GridItem T)).
Implicit Types (t : Q * T * bool).

Lemma key_lt_le t1 t2 : key_lt t1 t2 → key_le t1 t2.
Proof. apply Qlt_le_weak. Qed.

Lemma key_lt_not_le t1 t2 : key_lt t1 t2 → ¬ key_le t2 t1.
Proof. apply Qlt_not_le. Qed.

Lemma feedCores_sorted g : StronglySorted key_le (feedCores g).
Proof.
  unfold feedCores. apply StronglySorted_filter.
  apply (sort_sorted byCoreKey key_le).
  - intros x y Hcmp. by apply Qle_alt.
  - intros x y Hcmp. apply Qlt_le_weak. by apply Qgt_alt.
  - intros x y z. apply Qle_trans.
Qed.

Lemma feedCores_perm g :
  feedCores g ≡ₚ filter (λ t, t.2 = true) (core <$> mjoin g).
Proof. unfold feedCores. by rewrite sort_perm. Qed.

(** One more item in the grid: the feed order gains it at its end when
    it is a feed item above all keys so far, and is unchanged when it
    is not a feed item. *)
Lemma feedCores_step g g' t :
  core <$> mjoin g' ≡ₚ (core <$> mjoin g) ++ [t] →
  StronglySorted key_lt (feedCores g ++ filter (λ t, t.2 = true) [t]) →
  feedCores g' = feedCores g ++ filter (λ t, t.2 = true) [t].
Proof.
  intros Hperm Hsorted.
  apply (sorted_perm_unique key_le key_lt key_lt_le key_lt_not_le);
    [apply feedCores_sorted|done|].
  rewrite (feedCores_perm g'), Hperm, filter_app.
  by rewrite <- feedCores_perm.
Qed.

Lemma feedCores_fresh n : feedCores (@replicate (list (GridItem T)) n []) = [].
Proof.
  unfold feedCores.
  replace (mjoin (@replicate (list (GridItem T)) n [])) with (@nil (GridItem T));
    [done|].
  induction n as [|n IH]; [done|]. simpl. exact IH.
Qed.

Lemma feedOrder_cores (this : Masonry T) :
  feedOrder this = (λ t, t.1.2) <$> feedCores (gridItems this).
Proof.
  unfold feedOrder, feedCores, allItems.
  rewrite <- (sort_fmap core byKey byCoreKey) by done.
  rewrite (filter_fmap core (λ t, t.2 = true)).
  rewrite <- list_fmap_compose. done.
Qed.

Lemma insertShift_fmap {B} (f : GridItem T → B) i x col :
  (∀ o y, f (shiftItem o y) = f y) →
  f <$> insertShift i x col ≡ₚ (f <$> col) ++ [f x].
Proof.
  intros Hshift. unfold insertShift.
  rewrite fmap_app, fmap_cons.
  assert (f <$> match drop i col with
                | [] => []
                | b :: r => shiftItem (bottom x - top b) <$> b :: r
                end = f <$> drop i col) as ->.
  { destruct (drop i col) as [|b r]; [done|].
    rewrite <- list_fmap_compose. apply list_fmap_ext.
    intros j y _. apply Hshift. }
  rewrite <- (take_drop i col) at 3. rewrite fmap_app, <- app_assoc.
  apply Permutation_app_head, Permutation_cons_append.
Qed.

(** What a placement adds to the cores of the grid. *)
Lemma placeItem_core (this : Masonry T) colIdx itemIdx prev g info g' :
  placeItem this colIdx itemIdx prev g info = Some g' →
  (g' = g ∧ target colIdx itemIdx ≠ None)
  ∨ core <$> mjoin g'
    ≡ₚ (core <$> mjoin g)
       ++ [(key info, itemData info,
            match target colIdx itemIdx with
            | Some _ => appended info
            | None => true
            end)].
Proof.
  destruct (target colIdx itemIdx) as [[c i]|] eqn:Htarget.
  - destruct colIdx as [c'|], itemIdx as [i'|]; try discriminate.
    rewrite placeItem_insert. intros [= <-].
    destruct (g !! c') as [col|] eqn:Hcol; [right|by left].
    simpl.
    apply (join_insert_data core g c' col _
             (core (placedItem this c' (bottomOr0 prev) (appended info) info)));
      [done|].
    by apply insertShift_fmap.
  - rewrite placeItem_append by done.
    destruct (g !! getShortestColumn g) as [col|] eqn:Hcol; [|done].
    simpl. intros [= <-]. right.
    apply (join_insert_data core g _ col _
             (core (placedItem this (getShortestColumn g)
                      (bottomOr0 (last col)) true info))); [done|].
    by rewrite fmap_app.
Qed.

Lemma keyed_bounds c (items : list T) :
  Forall (λ t, (inject_Z (Z.of_nat c) <= coreKey t)%Q
               ∧ (coreKey t < inject_Z (Z.of_nat (c + length items)))%Q)
    (keyed c items).
Proof.
  revert c. induction items as [|d items IH]; intros c; simpl;
    constructor.
  - unfold coreKey. cbn [fst length]. rewrite <- Zle_Qle, <- Zlt_Qlt. lia.
  - eapply Forall_impl; [apply (IH (S c))|].
    intros t. cbn [length].
    replace (S c + length items)%nat with (c + S (length items))%nat by lia.
    intros [Hle Hlt]. split; [|exact Hlt].
    eapply Qle_trans; [|exact Hle]. rewrite <- Zle_Qle. lia.
Qed.

Lemma keyed_sorted c (items : list T) :
  StronglySorted key_lt (keyed c items).
Proof.
  revert c. induction items as [|d items IH]; intros c; simpl;
    constructor; [apply IH|].
  eapply Forall_impl; [apply (keyed_bounds (S c))|].
  intros t [Hle _]. unfold key_lt, coreKey at 1. cbn [fst].
  eapply Qlt_le_trans; [|exact Hle]. rewrite <- Zlt_Qlt. lia.
Qed.

Lemma keyed_data c (items : list T) :
  (λ t, t.1.2) <$> keyed c items = items.
Proof.
  revert c. induction items as [|d items IH]; intros c; [done|].
  simpl. by rewrite IH.
Qed.

Context (measure : Z → T → Z * Z).

Lemma buildItemInfos_keyed (this : Masonry T) sizes colIdx itemIdx prev
    items n counter :
  target colIdx itemIdx = None →
  (λ info, (key info, itemData info, true))
    <$> buildItemInfos measure this sizes colIdx itemIdx prev items n counter
  = keyed counter items.
Proof.
  intros Htarget. revert n counter.
  induction items as [|d items IH]; intros n counter; [done|].
  simpl. rewrite IH. do 3 f_equal.
  by destruct colIdx as [c|], itemIdx as [i|].
Qed.

Lemma buildItemInfos_not_appended (this : Masonry T) sizes colIdx itemIdx
    prev items n counter :
  Forall (λ info, appended info = false)
    (buildItemInfos measure this sizes colIdx itemIdx prev items n counter).
Proof.
  revert n counter. induction items as [|d items IH]; intros n counter;
    simpl; constructor; [done|apply IH].
Qed.

(** Insertions at a target leave the feed order alone. *)
Lemma placeItems_feed_insert (this : Masonry T) c i prev infos : ∀ g g',
  Forall (λ info, appended info = false) infos →
  StronglySorted key_lt (feedCores g) →
  placeItems this (Some c) (Some i) prev g infos = Some g' →
  feedCores g' = feedCores g.
Proof.
  induction infos as [|info infos IH]; intros g g' Hinfos Hsorted.
  - by intros [= <-].
  - cbn [placeItems].
    destruct (placeItem this (Some c) (Some i) prev g info) as [g1|] eqn:Hplace;
      [|done].
    inversion Hinfos as [|? ? Hinfo Hrest]; subst.
    assert (Hstep : feedCores g1 = feedCores g).
    { destruct (placeItem_core this _ _ _ _ _ _ Hplace) as [[-> _]|Hperm];
        [done|].
      simpl in Hperm. rewrite Hinfo in Hperm.
      rewrite (feedCores_step g g1 _ Hperm).
      - rewrite filter_cons_False by done. by rewrite filter_nil, app_nil_r.
      - rewrite filter_cons_False by done. by rewrite filter_nil, app_nil_r. }
    intros Hrun. rewrite <- Hstep. apply IH; [done| |done].
    by rewrite Hstep.
Qed.

(** Appends extend the feed order by the new items, in their order. *)
Lemma placeItems_feed_append (this : Masonry T) colIdx itemIdx prev infos :
  target colIdx itemIdx = None →
  ∀ g g',
    StronglySorted key_lt
      (feedCores g ++ ((λ info, (key info, itemData info, true)) <$> infos)) →
    placeItems this colIdx itemIdx prev g infos = Some g' →
    feedCores g'
    = feedCores g ++ ((λ info, (key info, itemData info, true)) <$> infos).
Proof.
  intros Htarget.
  induction infos as [|info infos IH]; intros g g' Hsorted.
  - intros [= <-]. by rewrite app_nil_r.
  - cbn [placeItems].
    destruct (placeItem this colIdx itemIdx prev g info) as [g1|] eqn:Hplace;
      [|done].
    rewrite fmap_cons, cons_middle, app_assoc in Hsorted |- *.
    assert (Hstep : feedCores g1
                    = feedCores g ++ [(key info, itemData info, true)]).
    { destruct (placeItem_core this _ _ _ _ _ _ Hplace) as [[_ ?]|Hperm];
        [done|].
      rewrite Htarget in Hperm.
      rewrite (feedCores_step g g1 _ Hperm).
      - by rewrite filter_cons_True, filter_nil by done.
      - rewrite filter_cons_True, filter_nil by done.
        by apply StronglySorted_app_1_l in Hsorted. }
    intros Hrun. rewrite <- Hstep. apply IH; [|done].
    by rewrite Hstep.
Qed.
End FeedOrder.

Section FeedRuns.
Context {T : Type} (measure : Z → T → Z * Z).
Implicit Types (this : Masonry T) (g : list (list (GridItem T))).

Lemma keyCounterOrOne_pos c : (1 <= keyCounterOrOne c)%nat.
Proof. destruct c as [[|n]|]; simpl; lia. Qed.

Lemma keyCounterOrOne_add c n :
  keyCounterOrOne (Some (keyCounterOrOne c + n)%nat)
  = (keyCounterOrOne c + n)%nat.
Proof.
  pose proof (keyCounterOrOne_pos c).
  by destruct (keyCounterOrOne c + n)%nat eqn:E; [lia|].
Qed.

Lemma feedCores_startGrid this :
  feedCores (startGrid this false) = feedCores (gridItems this).
Proof.
  unfold startGrid. destruct (gridItems this); [|done].
  by rewrite feedCores_fresh.
Qed.

(** One call: the feed order grows by the appended items and stays
    strictly ordered below the key counter. *)
Lemma insertItems_feed this newItems colIdx itemIdx r :
  feed_sorted this →
  insertItems measure newItems colIdx itemIdx false this = Some r →
  feed_sorted r.2
  ∧ feedCores (gridItems r.2)
    = feedCores (gridItems this)
      ++ match target colIdx itemIdx with
         | Some _ => []
         | None => keyed (keyCounterOrOne (itemKeyCounter this))
                     (selectItems this newItems false)
         end.
Proof.
  intros [Hsorted Hbound] Hrun.
  destruct (insertItems_Some measure _ _ _ _ _ _ Hrun)
    as (Hplace & _ & _ & _ & Hcounter & _).
  set (counter := keyCounterOrOne (itemKeyCounter this)) in *.
  set (items := selectItems this newItems false) in *.
  assert (Hweaker : Forall (λ t, (coreKey t
            < inject_Z (Z.of_nat (counter + length items)))%Q)
            (feedCores (gridItems this))).
  { eapply Forall_impl; [exact Hbound|]. intros t Ht.
    eapply Qlt_le_trans; [exact Ht|]. rewrite <- Zle_Qle. lia. }
  unfold feed_sorted. rewrite Hcounter.
  pose proof (keyCounterOrOne_add (itemKeyCounter this) (length items))
    as Hadd.
  fold counter in Hadd. rewrite Hadd.
  destruct (target colIdx itemIdx) as [[c i]|] eqn:Htarget.
  - destruct colIdx as [c'|], itemIdx as [i'|]; try discriminate.
    apply placeItems_feed_insert in Hplace.
    + rewrite feedCores_startGrid in Hplace.
      rewrite Hplace, app_nil_r. by repeat split.
    + apply buildItemInfos_not_appended.
    + by rewrite feedCores_startGrid.
  - assert (Hall : StronglySorted key_lt
              (feedCores (gridItems this) ++ keyed counter items)).
    { apply StronglySorted_app_2; [|done|apply keyed_sorted].
      intros t1 t2 Ht1 Ht2.
      apply (proj1 (Forall_forall _ _) Hbound) in Ht1.
      apply (proj1 (Forall_forall _ _) (keyed_bounds counter items)) in Ht2.
      eapply Qlt_le_trans; [exact Ht1|]. apply Ht2. }
    apply (placeItems_feed_append this colIdx itemIdx _ _ Htarget) in Hplace.
    + unfold insertInfos in Hplace.
      rewrite (buildItemInfos_keyed measure) in Hplace by done.
      rewrite feedCores_startGrid in Hplace. rewrite Hplace.
      split; [|done]. split; [done|].
      apply Forall_app. split; [done|].
      eapply Forall_impl; [apply keyed_bounds|]. by intros t [_ Ht].
    + unfold insertInfos.
      rewrite (buildItemInfos_keyed measure) by done.
      by rewrite feedCores_startGrid.
Qed.

(** A sequence of calls: the feed order is the one in which the feed
    items were taken in. *)
Lemma run_feed ops : ∀ this r,
  feed_sorted this →
  run measure ops this = Some r →
  feed_sorted r.2 ∧ feedOrder r.2 = feedOrder this ++ fed measure ops this.
Proof.
  induction ops as [|o ops IH]; intros this r Hsorted; simpl.
  - intros [= <-]. by rewrite app_nil_r.
  - unfold bind at 1.
    destruct (perform measure o this) as [[[] this1]|] eqn:Hperform; [|done].
    intros Hrun.
    assert (Hstep : feed_sorted this1
              ∧ feedOrder this1
                = feedOrder this
                  ++ match o with
                     | Append newItems => selectItems this newItems false
                     | Insert _ _ _ => []
                     end).
    { destruct o as [newItems|newItems c i]; simpl in Hperform;
        destruct (insertItems_feed _ _ _ _ _ Hsorted Hperform) as [Hs Hcores];
        (split; [exact Hs|]);
        rewrite !feedOrder_cores; simpl in Hcores; rewrite Hcores, fmap_app.
      - by rewrite keyed_data.
      - done. }
    destruct Hstep as [Hsorted1 Horder1].
    destruct (IH this1 r Hsorted1 Hrun) as [Hsorted' Horder'].
    split; [done|]. by rewrite Horder', Horder1, <- app_assoc.
Qed.

(** A call on a grid with at least one column completes, and leaves
    the column count and the server-rendered refs as they were. *)
Lemma perform_total (o : op) this :
  (0 < columnCount this)%nat →
  ∃ this1, perform measure o this = Some (tt, this1)
           ∧ columnCount this1 = columnCount this
           ∧ serverRefs this1 = serverRefs this.
Proof.
  intros Hcount.
  assert (Hrun : ∀ newItems colIdx itemIdx,
    ∃ this1, insertItems measure newItems colIdx itemIdx false this
             = Some (tt, this1)).
  { intros newItems colIdx itemIdx.
    destruct (placeItems_total this colIdx itemIdx
                (previousItem (startGrid this false) colIdx itemIdx)
                (insertInfos measure this newItems colIdx itemIdx false)
                (startGrid this false)) as [g2 Hplace].
    { right. by apply startGrid_nonempty. }
    by apply (insertItems_total measure _ _ _ _ _ g2). }
  destruct o as [newItems|newItems c i]; simpl.
  - destruct (Hrun newItems None None) as [this1 Hthis1].
    exists this1. split; [done|].
    by destruct (insertItems_Some measure _ _ _ _ _ _ Hthis1)
      as (_ & _ & ? & _ & _ & _ & ?).
  - destruct (Hrun newItems (Some c) (Some i)) as [this1 Hthis1].
    exists this1. split; [done|].
    by destruct (insertItems_Some measure _ _ _ _ _ _ Hthis1)
      as (_ & _ & ? & _ & _ & _ & ?).
Qed.

Lemma run_total ops : ∀ this,
  (0 < columnCount this)%nat → ∃ this', run measure ops this = Some (tt, this').
Proof.
  induction ops as [|o ops IH]; intros this Hcount; simpl.
  - by eexists.
  - destruct (perform_total o this Hcount) as (this1 & Hperform & Hcount1 & _).
    unfold bind. rewrite Hperform. apply IH. by rewrite Hcount1.
Qed.

(** Without server-rendered refs every feed append takes in the first
    item of its batch. *)
Lemma fed_taken ops : ∀ this,
  serverRefs this = [] → (0 < columnCount this)%nat →
  fed measure ops this = taken ops.
Proof.
  induction ops as [|o ops IH]; intros this Hrefs Hcount; [done|].
  cbn [fed].
  destruct (perform_total o this Hcount) as (this1 & Hperform & Hcount1 & Hrefs1).
  rewrite Hperform, (IH this1) by congruence.
  destruct o as [newItems|newItems c i]; [|done].
  cbn [taken]. f_equal. unfold selectItems. rewrite Hrefs. simpl.
  destruct newItems as [|d [|d' rest]]; done.
Qed.

(** The feed order is the part of the list [reflow] works on that
    belongs to the feed items. *)
Lemma feedOrder_reflowItems this : feedOrder this `sublist_of` reflowItems this.
Proof.
  unfold feedOrder, reflowItems. apply fmap_sublist, sublist_filter.
Qed.

Lemma feed_sorted_empty this : gridItems this = [] → feed_sorted this.
Proof. intros Hg. unfold feed_sorted. rewrite Hg. by split; constructor. Qed.
End FeedRuns.

(** ** Key order *)

(** The key of an inserted item is a rounded double: after an item
    with key 1, at key counter 118, it is 1.1179999999999999, the
    double [5035024383400214 * 2 ^ -52], below 1.118. *)
Example itemKey_rounded :
  let p := mkGridItem 1 tt 0 250 40 0 0 54 true in
  itemKey (Some 0%nat) (Some 1%nat) (Some p) 118
  = SF2Q (S754_finite false 5035024383400214 (-52))
  ∧ (itemKey (Some 0%nat) (Some 1%nat) (Some p) 118 < 1118 # 1000)%Q.
Proof. intros p. split; by vm_compute. Qed.

(** C1 at two insertions at the same place: after the feed items 1,
    2, 3, 4 are appended to three columns, 7 and then 9 are inserted at
    index 1 of column 0.  Item 9 sits between 1 and 7 in the column but
    its key, 1.006, is above the key 1.005 of its successor 7, and the
    key order, which [reflow] rebuilds the grid from, lists 7 before
    9. *)
Lemma insertItems_key_not_between :
  let this : Masonry nat :=
    mkMasonry 236 3 None None [] 0 0 0 0 3 250 14 0 None [] None 0 0 in
  let ops := [Append [1%nat; 2%nat; 3%nat; 4%nat];
              Append [2%nat; 3%nat; 4%nat]; Append [3%nat; 4%nat];
              Append [4%nat];
              Insert [7%nat] 0 1; Insert [9%nat] 0 1] in
  ∃ this' col,
    run (λ w _, (w, 40)) ops this = Some (tt, this')
    ∧ gridItems this' !! 0%nat = Some col
    ∧ map itemData col = [1%nat; 9%nat; 7%nat; 4%nat]
    ∧ reflowItems this' = [1%nat; 7%nat; 9%nat; 2%nat; 3%nat; 4%nat]
    ∧ ¬ key_between_neighbours col 1.
Proof.
  intros this ops.
  eexists. eexists. split; [vm_compute; reflexivity|].
  split; [reflexivity|]. split; [reflexivity|].
  split; [by vm_compute|].
  intros Hbetween.
  destruct (Hbetween _ eq_refl) as [_ Hnext].
  specialize (Hnext _ eq_refl). by vm_compute in Hnext.
Qed.

(** X19. For every sequence of feed appends and insertions at a
    target, from a grid whose feed-appended items are in strict key
    order below the key counter (an empty grid is one): the
    feed-appended items, in ascending key order over all columns, are
    those of before followed by the items the appends have placed, in
    the order in which the feed supplied them, and they keep that
    order within the key order of all items, which is the order
    [reflow] uses.  With at least one column the sequence completes,
    and while there are no server-rendered refs the items placed are
    the first item of every append batch. *)
Theorem feed_order_kept :
  ∀ (T : Type) (measure : Z → T → Z * Z) (this : Masonry T)
    (ops : list op),
    feed_sorted this →
    (∀ r, run measure ops this = Some r →
          feedOrder r.2 = feedOrder this ++ fed measure ops this
          ∧ feedOrder r.2 `sublist_of` reflowItems r.2)
    ∧ ((0 < columnCount this)%nat →
       (∃ this', run measure ops this = Some (tt, this'))
       ∧ (serverRefs this = [] → fed measure ops this = taken ops)).
Proof.
  intros T measure this ops Hsorted. split.
  - intros r Hrun. split; [|apply feedOrder_reflowItems].
    by destruct (run_feed measure ops this r Hsorted Hrun).
  - intros Hcount. split; [by apply run_total|].
    intros Hrefs. by apply fed_taken.
Qed.

Lemma feed_order_kept_witness :
  let this : Masonry nat :=
    mkMasonry 236 3 None None [] 0 0 0 0 3 250 14 0 None [] None 0 0 in
  let ops := [Append [1%nat; 2%nat]; Append [2%nat]; Insert [7%nat] 0 1] in
  feed_sorted this
  ∧ ∃ this', run (λ w _, (w, 40)) ops this = Some (tt, this')
             ∧ feedOrder this' = [1%nat; 2%nat].
Proof.
  intros this ops.
  assert (Hsorted : feed_sorted this) by (by apply feed_sorted_empty).
  split; [exact Hsorted|].
  destruct (feed_order_kept nat (λ w _, (w, 40)) this ops Hsorted)
    as [Horder Htotal].
  destruct Htotal as [[this' Hrun] Htaken]; [simpl; lia|].
  exists this'. split; [exact Hrun|].
  rewrite (Htaken eq_refl) in Horder. exact (proj1 (Horder _ Hrun)).
Defined.

(** * Further properties of the code *)

(** ** Grid height *)

Section Heights.
Context {T : Type} (measure : Z → T → Z * Z).
Implicit Types (this : Masonry T) (g : list (list (GridItem T))).

(** The closing loop of [insertItems]: the running maximum and
    minimum over the last items. *)
Lemma columnHeights_spec g : ∀ h m,
  let r := columnHeights g h m in
  h <= r.1
  ∧ Forall (λ b, b <= r.1) (lastBottoms g)
  ∧ (r.1 = h ∨ r.1 ∈ lastBottoms g)
  ∧ (lastBottoms g = [] → r.2 = m)
  ∧ (∀ v, r.2 = Some v →
       (m = Some v ∨ v ∈ lastBottoms g)
       ∧ Forall (λ b, v <= b) (lastBottoms g)
       ∧ (∀ u, m = Some u → v <= u))
  ∧ (r.2 = None → m = None ∧ lastBottoms g = []).
Proof.
  induction g as [|col g IH]; intros h m; simpl.
  - split; [lia|]. split; [constructor|]. split; [by left|].
    split; [done|]. split; [|done].
    intros v ->. split; [by left|]. split; [constructor|].
    intros u [= ->]. lia.
  - unfold lastBottoms. cbn [omap list_omap].
    fold (lastBottoms g).
    destruct (last col) as [x|] eqn:Hlast; simpl.
    + set (h1 := if bottom x >? h then bottom x else h).
      set (m1 := match m with
                 | Some m0 => if m0 >? bottom x then Some (bottom x) else Some m0
                 | None => Some (bottom x)
                 end).
      destruct (IH h1 m1) as (Hh & Hall & Hin & Hnil & Hmin & Hnone).
      assert (Hh1 : h <= h1 ∧ bottom x <= h1 ∧ (h1 = h ∨ h1 = bottom x)).
      { unfold h1. destruct (Z.gtb_spec (bottom x) h); lia. }
      assert (Hm1 : ∃ v1, m1 = Some v1 ∧ v1 <= bottom x
                          ∧ (m = Some v1 ∨ v1 = bottom x)
                          ∧ (∀ u, m = Some u → v1 <= u)).
      { unfold m1. destruct m as [m0|].
        - destruct (Z.gtb_spec m0 (bottom x)).
          + exists (bottom x). repeat split; [lia|by right|].
            intros u [= ->]. lia.
          + exists m0. repeat split; [lia|by left|].
            intros u [= ->]. lia.
        - exists (bottom x). repeat split; [lia|by right|done]. }
      destruct Hm1 as (v1 & Hm1 & Hv1 & Hv1_in & Hv1_le).
      split; [lia|]. split; [constructor; [lia|done]|].
      split.
      { destruct Hin as [->|Hin]; [|by right; right].
        destruct Hh1 as (_ & _ & [->| ->]); [by left|right; by left]. }
      split; [done|]. split.
      * intros v Hv. destruct (Hmin v Hv) as (Hfrom & Hle & Hu).
        specialize (Hu v1 Hm1).
        split; [|split].
        -- destruct Hfrom as [Hfrom|Hfrom]; [|by right; right].
           rewrite Hm1 in Hfrom. injection Hfrom as ->.
           destruct Hv1_in as [?| ->]; [by left|right; by left].
        -- constructor; [lia|done].
        -- intros u Hmu. specialize (Hv1_le u Hmu). lia.
      * intros Hr. destruct (Hnone Hr) as [Hm1' _]. congruence.
    + apply (IH h m).
Qed.

Lemma insertItems_heights this newItems colIdx itemIdx forceUpdate r :
  insertItems measure newItems colIdx itemIdx forceUpdate this = Some r →
  gridHeight r.2 = (columnHeights (gridItems r.2) 0 None).1
  ∧ minHeight r.2
    = match (columnHeights (gridItems r.2) 0 None).2 with
      | Some v => if v =? 0 then minHeight this else v
      | None => minHeight this
      end.
Proof.
  unfold insertItems, bind, get, put, throw.
  destruct (placeItems _ _ _ _ _ _) as [g2|]; [|done].
  destruct (columnHeights g2 0 None) as [h m] eqn:Hheights.
  intros [= <-]. simpl. by rewrite Hheights.
Qed.
End Heights.

(** X1. After every completed [insertItems] call the grid height is the
    largest [bottom] among the last items of the columns (0 when there
    is none above 0), and [minHeight] is the smallest of them, unless
    that is 0 or no column has an item, in which case [minHeight] keeps
    its former value. *)
Theorem insertItems_height :
  ∀ (T : Type) (measure : Z → T → Z * Z) (this : Masonry T)
    (newItems : list T) (colIdx itemIdx : option nat) (forceUpdate : bool) r,
    insertItems measure newItems colIdx itemIdx forceUpdate this = Some r →
    let bs := lastBottoms (gridItems r.2) in
    0 <= gridHeight r.2
    ∧ (∀ b, b ∈ bs → b <= gridHeight r.2)
    ∧ (gridHeight r.2 = 0 ∨ gridHeight r.2 ∈ bs)
    ∧ (bs = [] → minHeight r.2 = minHeight this)
    ∧ (∀ v, v ∈ bs → (∀ b, b ∈ bs → v <= b) →
         minHeight r.2 = if v =? 0 then minHeight this else v).
Proof.
  intros T measure this newItems colIdx itemIdx forceUpdate r Hrun bs.
  destruct (insertItems_heights measure _ _ _ _ _ _ Hrun) as [Hh Hm].
  destruct (columnHeights_spec (gridItems r.2) 0 None)
    as (Hpos & Hall & Hin & Hnil & Hmin & Hnone).
  rewrite <- Hh in Hpos, Hall, Hin. fold bs in Hall, Hin, Hnil, Hmin, Hnone.
  split; [done|]. split.
  { intros b Hb. by apply (proj1 (Forall_forall _ _) Hall). }
  split; [done|]. split.
  { intros Hbs. rewrite Hm, (Hnil Hbs). done. }
  intros v Hv Hleast. rewrite Hm.
  destruct ((columnHeights (gridItems r.2) 0 None).2) as [w|] eqn:Hw.
  - destruct (Hmin w eq_refl) as ([?|Hwin] & Hwle & _); [done|].
    assert (w = v) as ->; [|done].
    apply Z.le_antisymm; [|by apply Hleast].
    by apply (proj1 (Forall_forall _ _) Hwle).
  - destruct (Hnone eq_refl) as [_ Hbs]. rewrite Hbs in Hv.
    by apply elem_of_nil in Hv.
Qed.

Lemma insertItems_height_witness :
  let A := mkGridItem 1 tt 0 250 40 0 0 54 true in
  let B := mkGridItem 2 tt 1 250 30 250 0 44 true in
  let this : Masonry unit :=
    mkMasonry 236 1 None None [[A]; [B]] 54 44 0 0 2 250 14 2 (Some 3%nat)
      [] None 0 0 in
  ∃ r, insertItems (λ w _, (w, 20)) [tt] None None false this = Some r
       ∧ 0 <= gridHeight r.2
       ∧ (gridHeight r.2 = 0 ∨ gridHeight r.2 ∈ lastBottoms (gridItems r.2)).
Proof.
  intros A B this.
  destruct (insertItems (λ w _, (w, 20)) [tt] None None false this)
    as [r|] eqn:Hrun; [|vm_compute in Hrun; discriminate].
  exists r. split; [reflexivity|].
  destruct (insertItems_height unit _ _ _ _ _ _ r Hrun) as (H0 & _ & Hin & _).
  by split.
Defined.

(** ** The window and the screen *)

(** X2. [updateVirtualBounds] throws without a scroll container and
    otherwise changes nothing but the window.  As long as the container
    height or the container offset has not been measured (it is
    [undefined], [NaN] in the arithmetic), whatever the scroll
    position, both bounds of the window are [NaN] and [itemIsVisible]
    holds of every item: nothing is virtualized. *)
Theorem updateVirtualBounds_unmeasured :
  ∀ (T : Type) (this : Masonry T),
    (scrollContainer this = None → updateVirtualBounds this = None)
    ∧ (∀ this', updateVirtualBounds this = Some (tt, this') →
         gridItems this' = gridItems this
         ∧ gridHeight this' = gridHeight this
         ∧ containerHeight this' = containerHeight this
         ∧ containerOffset this' = containerOffset this
         ∧ insertedItemsCount this' = insertedItemsCount this)
    ∧ (∀ c, scrollContainer this = Some c →
         containerHeight this = S754_nan ∨ containerOffset this = S754_nan →
         ∃ this',
           updateVirtualBounds this = Some (tt, this')
           ∧ viewportTop this' = S754_nan
           ∧ viewportBottom this' = S754_nan
           ∧ ∀ item : GridItem T, itemIsVisible this' item = true).
Proof.
  intros T this. split; [|split].
  - intros Hc. unfold updateVirtualBounds, bind, get. by rewrite Hc.
  - intros this'. unfold updateVirtualBounds, bind, get, put, throw.
    destruct (scrollContainer this) as [c|]; [|done]. by intros [= <-].
  - intros c Hc Hnan. eexists.
    split; [by apply updateVirtualBounds_Some|].
    assert (Hbounds :
      fsub (fsub (scrollPosition c) (containerOffset this))
        (fmul (containerHeight this) VIRTUAL_BUFFER_FACTOR) = S754_nan
      ∧ fadd (fadd (fsub (scrollPosition c) (containerOffset this))
                (containerHeight this))
          (fmul (containerHeight this) VIRTUAL_BUFFER_FACTOR) = S754_nan).
    { destruct Hnan as [-> | ->].
      - by rewrite fmul_nan_l, fsub_nan_r, !fadd_nan_r.
      - by rewrite fsub_nan_r, fsub_nan_l, !fadd_nan_l. }
    destruct Hbounds as [Htop Hbottom].
    split; [done|]. split; [done|].
    intros item. by apply itemIsVisible_nan.
Qed.

(** ** Edge cases of calculateColumns *)

(** X3. [calculateColumns] returns 0 without a scroll container, throws
    when the wrapper's parent cannot be measured, never changes the
    component, returns a whole number that is at least [minCols]
    whenever it returns a rational with a scroll container present, and
    returns [NaN] or [Infinity] only when
    [columnWidth + gutterWidth] is 0. *)
Theorem calculateColumns_edges :
  ∀ (T : Type) (this : Masonry T),
    (scrollContainer this = None → calculateColumns this = Some (Rat 0, this))
    ∧ (scrollContainer this ≠ None → parentClientWidth this = None →
       calculateColumns this = None)
    ∧ (∀ v this', calculateColumns this = Some (v, this') →
         this' = this
         ∧ (scrollContainer this ≠ None →
            match v with
            | Rat q => ∃ n, q = inject_Z n ∧ minCols this <= n
            | Sqrt _ => False
            | Infinity | NaN => columnWidth this + gutterWidth this = 0
            end)).
Proof.
  intros T this. unfold calculateColumns, bind, get, ret, throw.
  destruct (scrollContainer this) as [c|].
  - split; [done|]. split.
    + intros _ ->. done.
    + intros v this'.
      destruct (parentClientWidth this) as [w|]; [|done].
      destruct (Z.eqb_spec (columnWidth this + gutterWidth this) 0) as [H0|Hne].
      * destruct (w =? 0); [|destruct (w <? 0)]; intros [= <- <-];
          split; try done; intros _.
        exists (minCols this). split; [done|lia].
      * destruct (Z.ltb_spec
          (Qfloor (inject_Z w / inject_Z (columnWidth this + gutterWidth this)))
          (minCols this)) as [Hlt|Hge];
          intros [= <- <-]; split; try done; intros _.
        -- exists (minCols this). split; [done|lia].
        -- eexists. split; [reflexivity|exact Hge].
  - split; [done|]. split; [done|].
    intros v this' [= <- <-]. split; [done|]. done.
Qed.

(** ** Symmetry of the distance *)

(** X4. [calculateDistance] does not depend on the order of its two
    items when they are in one column with different tops, and when
    they are in different columns, at different [left]s, with vertical
    spans ([top <= bottom]) that do not meet. *)
Theorem calculateDistance_symmetric :
  ∀ (T : Type) (this : Masonry T) (A B : GridItem T),
    (column A = column B → top A ≠ top B →
     calculateDistance this A B = calculateDistance this B A)
    ∧ (column A ≠ column B → left A ≠ left B →
       top A <= bottom A → top B <= bottom B →
       bottom A < top B ∨ bottom B < top A →
       calculateDistance this A B = calculateDistance this B A).
Proof.
  intros T this A B. split.
  - intros Hcol Htop. unfold calculateDistance.
    rewrite Hcol, Nat.eqb_refl.
    destruct (Z.ltb_spec (top A) (top B)), (Z.ltb_spec (top B) (top A));
      try lia; done.
  - intros Hcol Hleft HA HB Hapart. unfold calculateDistance.
    replace (column A =? column B)%nat with false
      by (symmetry; by apply Nat.eqb_neq).
    replace (column B =? column A)%nat with false
      by (symmetry; apply Nat.eqb_neq; congruence).
    rewrite !Z.geb_leb.
    assert (Hsq : ∀ x1 y1 x2 y2 : Z,
      distance (x1, y1) (x2, y2) = distance (x2, y2) (x1, y1)).
    { intros. unfold distance. simpl. do 2 f_equal. lia. }
    destruct (Z.leb_spec (top A) (top B)), (Z.leb_spec (top B) (bottom A)),
      (Z.leb_spec (top A) (bottom B)), (Z.leb_spec (bottom B) (bottom A)),
      (Z.leb_spec (top B) (top A)), (Z.leb_spec (top A) (bottom B)),
      (Z.leb_spec (top B) (bottom A)), (Z.leb_spec (bottom A) (bottom B));
      try lia; simpl;
      destruct (Z.ltb_spec (top A) (top B)), (Z.ltb_spec (top B) (top A)),
        (Z.ltb_spec (left A) (left B)), (Z.ltb_spec (left B) (left A));
      try lia; apply Hsq.
Qed.

Lemma calculateDistance_symmetric_witness :
  let A := mkGridItem 1 tt 0 250 40 0 0 54 true in
  let B := mkGridItem 2 tt 1 250 30 250 100 144 true in
  let this : Masonry unit :=
    mkMasonry 236 1 None None [[A]; [B]] 144 54 0 0 2 250 14 2 (Some 3%nat)
      [] None 0 0 in
  calculateDistance this A B = calculateDistance this B A.
Proof.
  intros A B this.
  apply (proj2 (calculateDistance_symmetric unit this A B));
    simpl; try lia; try discriminate.
Defined.

(** ** The rendered height *)

Section RenderHeight.
Context {T : Type}.
Implicit Types (g : list (list (GridItem T))).

Lemma first_empty_column g :
  [] ∈ g → ∃ k, g !! k = Some [] ∧ ∀ j, (j < k)%nat → g !! j ≠ Some [].
Proof.
  induction g as [|col g IH]; intros Hin; [by apply elem_of_nil in Hin|].
  destruct col as [|x col].
  - exists 0%nat. split; [done|]. intros j Hj. lia.
  - apply elem_of_cons in Hin as [Hin|Hin]; [done|].
    destruct (IH Hin) as (k & Hk & Hfirst).
    exists (S k). split; [done|].
    intros [|j] Hj; simpl; [done|]. apply Hfirst. lia.
Qed.

Lemma elem_of_lastBottoms g b :
  b ∈ lastBottoms g
  ↔ ∃ col x, col ∈ g ∧ last col = Some x ∧ bottom x = b.
Proof.
  unfold lastBottoms. rewrite list_elem_of_omap. split.
  - intros (col & Hcol & Hb). destruct (last col) as [x|] eqn:Hlast; [|done].
    injection Hb as <-. by exists col, x.
  - intros (col & x & Hcol & Hlast & <-). exists col. split; [done|].
    by rewrite Hlast.
Qed.
End RenderHeight.

(** X5. [renderHeight] is [null] exactly when the grid has no column
    or some column is empty; otherwise it is the smallest [bottom] among
    the last items of the columns. *)
Theorem renderHeight_least :
  ∀ (T : Type) (this : Masonry T),
    (renderHeight this = None ↔ gridItems this = [] ∨ [] ∈ gridItems this)
    ∧ (∀ b, renderHeight this = Some b →
         b ∈ lastBottoms (gridItems this)
         ∧ ∀ b', b' ∈ lastBottoms (gridItems this) → b <= b').
Proof.
  intros T this. unfold renderHeight.
  destruct (gridItems this) as [|col0 g0] eqn:Hg.
  { split; [split; [by left|done]|done]. }
  rewrite <- Hg. assert (Hne : gridItems this ≠ []) by (by rewrite Hg).
  clear Hg col0 g0.
  destruct (decide (Forall (λ c, c ≠ []) (gridItems this))) as [Hall|Hex].
  2: { assert (Hempty : [] ∈ gridItems this).
       { apply not_Forall_Exists in Hex; [|intros c; apply _].
         apply Exists_exists in Hex as (c & Hc & Hnil).
         destruct c; [done|]. by destruct Hnil. }
    destruct (first_empty_column _ Hempty) as (k & Hk & Hfirst).
    rewrite (getShortestColumn_first_empty _ k Hk Hfirst), Hk. simpl.
    split; [split; [by right|done]|done]. }
  - destruct (getShortestColumn_least _ Hne Hall) as (Hlt & lastr & Hr & Hleast).
    destruct (gridItems this !! getShortestColumn (gridItems this))
      as [col|] eqn:Hcol; [|done].
    simpl in Hr. rewrite Hr. split.
    + split; [done|]. intros [?|Hin]; [done|].
      by destruct (proj1 (Forall_forall _ _) Hall [] Hin).
    + intros b [= <-]. split.
      * apply elem_of_lastBottoms. exists col, lastr.
        split; [by eapply list_elem_of_lookup_2|done].
      * intros b' Hb'. apply elem_of_lastBottoms in Hb' as (c & x & Hc & Hx & <-).
        apply list_elem_of_lookup in Hc as [j Hj].
        destruct (Hleast j x) as [Hle _]; [by apply lookup_lt_Some in Hj| |done].
        by rewrite Hj.
Qed.

(** ** Completion and failure of insertItems *)

Section Completion.
Context {T : Type} (measure : Z → T → Z * Z).
Implicit Types (this : Masonry T) (g : list (list (GridItem T))).

Lemma buildItemInfos_length this sizes colIdx itemIdx prev (items : list T)
    n counter :
  length (buildItemInfos measure this sizes colIdx itemIdx prev items n counter)
  = length items.
Proof.
  rewrite <- (buildItemInfos_data measure this sizes colIdx itemIdx prev
                items n counter) at 2.
  by rewrite length_fmap.
Qed.

(** Appending to a grid without columns fails on the first item. *)
Lemma placeItems_no_columns this colIdx itemIdx prev infos :
  target colIdx itemIdx = None →
  placeItems this colIdx itemIdx prev [] infos
  = match infos with [] => Some [] | _ :: _ => None end.
Proof.
  intros Htarget. destruct infos as [|info infos]; [done|].
  cbn [placeItems]. by rewrite placeItem_append.
Qed.

Lemma insertItems_None this newItems colIdx itemIdx forceUpdate :
  insertItems measure newItems colIdx itemIdx forceUpdate this = None
  ↔ placeItems this colIdx itemIdx
      (previousItem (startGrid this forceUpdate) colIdx itemIdx)
      (startGrid this forceUpdate)
      (insertInfos measure this newItems colIdx itemIdx forceUpdate)
    = None.
Proof.
  split.
  - intros Hrun.
    destruct (placeItems _ _ _ _ _ _) as [g2|] eqn:Hplace; [|done].
    destruct (insertItems_total measure _ _ _ _ _ _ Hplace) as [this' Hrun'].
    congruence.
  - intros Hplace.
    destruct (insertItems measure newItems colIdx itemIdx forceUpdate this)
      as [r|] eqn:Hrun; [|done].
    destruct (insertItems_Some measure _ _ _ _ _ _ Hrun) as (Hplace' & _).
    congruence.
Qed.
End Completion.

(** X6. An [insertItems] call that inserts at a target always
    completes, and so does an append to a grid with at least one
    column.  An append on a component whose column count is 0 and whose
    grid has no columns (or is rebuilt) throws exactly when there is an
    item to place. *)
Theorem insertItems_completion :
  ∀ (T : Type) (measure : Z → T → Z * Z) (this : Masonry T)
    (newItems : list T) (colIdx itemIdx : option nat) (forceUpdate : bool),
    (target colIdx itemIdx ≠ None ∨ (0 < columnCount this)%nat
     ∨ (forceUpdate = false ∧ gridItems this ≠ []) →
     ∃ this', insertItems measure newItems colIdx itemIdx forceUpdate this
              = Some (tt, this'))
    ∧ (target colIdx itemIdx = None → columnCount this = 0%nat →
       forceUpdate = true ∨ gridItems this = [] →
       (insertItems measure newItems colIdx itemIdx forceUpdate this = None
        ↔ selectItems this newItems forceUpdate ≠ [])).
Proof.
  intros T measure this newItems colIdx itemIdx forceUpdate. split.
  - intros Hok.
    destruct (placeItems_total this colIdx itemIdx
                (previousItem (startGrid this forceUpdate) colIdx itemIdx)
                (insertInfos measure this newItems colIdx itemIdx forceUpdate)
                (startGrid this forceUpdate)) as [g2 Hplace].
    { destruct Hok as [Htarget|[Hcount|[-> Hne]]]; [by left| |].
      - right. by apply startGrid_nonempty.
      - right. unfold startGrid. by destruct (gridItems this). }
    by apply (insertItems_total measure _ _ _ _ _ g2).
  - intros Htarget Hcount Hempty.
    assert (Hstart : startGrid this forceUpdate = []).
    { unfold startGrid. rewrite Hcount.
      destruct Hempty as [->| ->]; [done|by destruct forceUpdate]. }
    rewrite insertItems_None, Hstart, placeItems_no_columns by done.
    unfold insertInfos.
    pose proof (buildItemInfos_length measure this (serverSizes this)
                  colIdx itemIdx
                  (previousItem (startGrid this forceUpdate) colIdx itemIdx)
                  (selectItems this newItems forceUpdate) 0
                  (keyCounterOrOne (itemKeyCounter this))) as Hlen.
    rewrite Hstart in Hlen.
    destruct (buildItemInfos _ _ _ _ _ _ _ _ _) as [|info infos];
      destruct (selectItems this newItems forceUpdate) as [|d items];
      try discriminate; split; done.
Qed.

(** ** One feed append *)

(** X7. A feed append of a non-empty batch, while no server-rendered
    refs are pending and the grid has columns, places the first item of
    the batch at the end of the shortest column and changes no existing
    GridItem: the new item starts at the [bottom] of that column's last
    item (0 in an empty column), at [left = column * itemWidth], with
    the key counter as its key, and the feed position and the key
    counter advance by one. *)
Theorem insertItems_append_one :
  ∀ (T : Type) (measure : Z → T → Z * Z) (this : Masonry T)
    (d : T) (rest : list T),
    (length (serverRefs this) <= insertedItemsCount this)%nat →
    startGrid this false ≠ [] →
    let g := startGrid this false in
    let k := getShortestColumn g in
    ∃ this' col x,
      insertItems measure (d :: rest) None None false this = Some (tt, this')
      ∧ g !! k = Some col
      ∧ gridItems this' = <[k := col ++ [x]]> g
      ∧ itemData x = d ∧ appended x = true
      ∧ key x = inject_Z (Z.of_nat (keyCounterOrOne (itemKeyCounter this)))
      ∧ column x = k ∧ left x = Z.of_nat k * itemWidth this
      ∧ top x = bottomOr0 (last col)
      ∧ bottom x = top x + height x + gutterWidth this
      ∧ (width x, height x)
        = itemSize measure (serverSizes this) (itemWidth this)
            (insertedItemsCount this) d
      ∧ insertedItemsCount this' = S (insertedItemsCount this)
      ∧ itemKeyCounter this'
        = Some (S (keyCounterOrOne (itemKeyCounter this))).
Proof.
  intros T measure this d rest Hrefs Hne g k.
  assert (Hsel : selectItems this (d :: rest) false = [d]).
  { unfold selectItems.
    replace (insertedItemsCount this <? length (serverRefs this))%nat
      with false by (symmetry; apply Nat.ltb_ge; lia).
    rewrite andb_false_r. by destruct rest. }
  destruct (lookup_lt_is_Some_2 g k (getShortestColumn_lt g Hne)) as [col Hcol].
  set (info := {| key := inject_Z (Z.of_nat (keyCounterOrOne (itemKeyCounter this)));
                  itemData := d; column := 0;
                  width := (itemSize measure (serverSizes this) (itemWidth this)
                              (insertedItemsCount this) d).1;
                  height := (itemSize measure (serverSizes this) (itemWidth this)
                               (insertedItemsCount this) d).2;
                  left := 0; top := 0; bottom := 0; appended := false |}).
  assert (Hinfos : insertInfos measure this (d :: rest) None None false = [info]).
  { unfold insertInfos. rewrite Hsel. done. }
  set (x := placedItem this k (bottomOr0 (last col)) true info).
  assert (Hplace : placeItems this None None
            (previousItem (startGrid this false) None None)
            (startGrid this false)
            (insertInfos measure this (d :: rest) None None false)
          = Some (<[k := col ++ [x]]> g)).
  { rewrite Hinfos. cbn [placeItems].
    rewrite placeItem_append by done. fold g k. by rewrite Hcol. }
  destruct (insertItems_total measure _ _ _ _ _ _ Hplace) as [this' Hrun].
  destruct (insertItems_Some measure _ _ _ _ _ _ Hrun)
    as (Hplace' & _ & _ & _ & Hcounter & Hcount & _).
  rewrite Hplace in Hplace'. injection Hplace' as Hgrid. simpl in Hgrid.
  rewrite Hsel in Hcounter, Hcount. simpl in Hcounter, Hcount.
  exists this', col, x. split; [exact Hrun|]. split; [done|].
  split; [done|]. repeat (split; [done|]).
  split; [by destruct (itemSize _ _ _ _ _)|].
  split; [rewrite Hcount; lia|]. rewrite Hcounter. f_equal. lia.
Qed.

Lemma insertItems_append_one_witness :
  let A := mkGridItem 1 1%nat 0 250 40 0 0 54 true in
  let B := mkGridItem 2 2%nat 1 250 30 250 0 44 true in
  let this : Masonry nat :=
    mkMasonry 236 1 None None [[A]; [B]] 54 44 0 0 2 250 14 2 (Some 3%nat)
      [] None 0 0 in
  ∃ this' x,
    insertItems (λ w _, (w, 20)) [3%nat; 4%nat] None None false this
    = Some (tt, this')
    ∧ gridItems this' = [[A]; [B; x]] ∧ itemData x = 3%nat ∧ top x = 44.
Proof.
  intros A B this.
  destruct (insertItems_append_one nat (λ w _, (w, 20)) this 3%nat [4%nat])
    as (this' & col & x & Hrun & Hcol & Hgrid & Hd & _ & _ & _ & _ & Htop & _);
    [simpl; lia|discriminate|].
  injection Hcol as <-.
  exists this', x. by repeat split.
Defined.

(** ** A batch inserted at one target *)

Section BatchAtTarget.
Context {T : Type} (measure : Z → T → Z * Z).
Implicit Types (this : Masonry T) (g : list (list (GridItem T))).

(** Every item of the batch is spliced at the same index, so the batch
    ends up in reverse order in the target column. *)
Lemma placeItems_insert_column this c i prev infos : ∀ g col,
  g !! c = Some col → (i <= length col)%nat →
  ∃ col',
    placeItems this (Some c) (Some i) prev g infos = Some (<[c := col']> g)
    ∧ itemData <$> col'
      = take i (itemData <$> col) ++ reverse (itemData <$> infos)
        ++ drop i (itemData <$> col).
Proof.
  induction infos as [|info infos IH]; intros g col Hcol Hi.
  - exists col. split.
    + simpl. by rewrite list_insert_id.
    + simpl. by rewrite take_drop.
  - cbn [placeItems]. rewrite placeItem_insert, Hcol.
    set (x := placedItem this c (bottomOr0 prev) (appended info) info).
    assert (Hc : (c < length g)%nat) by (by eapply lookup_lt_Some).
    destruct (IH (<[c := insertShift i x col]> g) (insertShift i x col))
      as (col' & Hplace & Hdata).
    { by apply list_lookup_insert_eq. }
    { rewrite insertShift_length. lia. }
    exists col'. split.
    + simpl. rewrite Hplace. by rewrite list_insert_insert_eq.
    + rewrite Hdata, insertShift_data.
      assert (Hlen : length (take i (itemData <$> col)) = i).
      { rewrite length_take, length_fmap. lia. }
      rewrite take_app_length' by done.
      rewrite drop_app_length' by done.
      rewrite fmap_cons, reverse_cons, <- !app_assoc. done.
Qed.
End BatchAtTarget.

(** X8. An [insertItems] call with an existing target column and a
    target index within it (or right behind its last item) completes,
    changes only that column, and leaves in it the former items before
    the index, then the items taken from the batch in REVERSE order,
    then the former items from the index on. *)
Theorem insertItems_batch_reversed :
  ∀ (T : Type) (measure : Z → T → Z * Z) (this : Masonry T)
    (newItems : list T) (c i : nat) (forceUpdate : bool)
    (col : list (GridItem T)),
    startGrid this forceUpdate !! c = Some col →
    (i <= length col)%nat →
    ∃ this' col',
      insertItems measure newItems (Some c) (Some i) forceUpdate this
      = Some (tt, this')
      ∧ gridItems this' = <[c := col']> (startGrid this forceUpdate)
      ∧ itemData <$> col'
        = take i (itemData <$> col)
          ++ reverse (selectItems this newItems forceUpdate)
          ++ drop i (itemData <$> col).
Proof.
  intros T measure this newItems c i forceUpdate col Hcol Hi.
  destruct (placeItems_insert_column this c i
              (previousItem (startGrid this forceUpdate) (Some c) (Some i))
              (insertInfos measure this newItems (Some c) (Some i) forceUpdate)
              _ col Hcol Hi) as (col' & Hplace & Hdata).
  destruct (insertItems_total measure _ _ _ _ _ _ Hplace) as [this' Hrun].
  destruct (insertItems_Some measure _ _ _ _ _ _ Hrun) as (Hplace' & _).
  rewrite Hplace in Hplace'. injection Hplace' as Hgrid. simpl in Hgrid.
  exists this', col'. split; [exact Hrun|]. split; [done|].
  rewrite Hdata. unfold insertInfos. by rewrite buildItemInfos_data.
Qed.

Lemma insertItems_batch_reversed_witness :
  let A := mkGridItem 1 1%nat 0 250 40 0 0 54 true in
  let B := mkGridItem 2 2%nat 0 250 30 0 54 98 true in
  let this : Masonry nat :=
    mkMasonry 236 1 None None [[A; B]] 98 98 0 0 1 250 14 0 (Some 3%nat)
      [(250, 20); (250, 25); (250, 30)] None 0 0 in
  ∃ this' col',
    insertItems (λ w _, (w, 20)) [3%nat; 4%nat; 5%nat] (Some 0%nat)
      (Some 1%nat) false this = Some (tt, this')
    ∧ gridItems this' = [col']
    ∧ itemData <$> col' = [1%nat; 5%nat; 4%nat; 3%nat; 2%nat].
Proof.
  intros A B this.
  destruct (insertItems_batch_reversed nat (λ w _, (w, 20)) this
              [3%nat; 4%nat; 5%nat] 0 1 false [A; B])
    as (this' & col' & Hrun & Hgrid & Hdata); [done|simpl; lia|].
  exists this', col'. split; [exact Hrun|]. split; [exact Hgrid|exact Hdata].
Defined.

(** ** Rebuilding the grid *)

Section Rebuild.
Context {T : Type} (measure : Z → T → Z * Z).
Implicit Types (this : Masonry T) (g : list (list (GridItem T))).

Lemma filter_all {A} (P : A → Prop) `{∀ a, Decision (P a)} (l : list A) :
  Forall P l → filter P l = l.
Proof.
  induction 1 as [|x l Hx Hl IH]; [done|].
  by rewrite filter_cons_True, IH.
Qed.

(** When every item is a feed item, the order of [reflow] is the feed
    order. *)
Lemma feedOrder_all_appended this :
  Forall (λ x, appended x = true) (allItems this) →
  feedOrder this = reflowItems this.
Proof.
  intros Hall. unfold feedOrder, reflowItems. fold (@byKey T).
  rewrite filter_all; [done|]. by rewrite sort_perm.
Qed.

Lemma grid_ok_fresh gutter n :
  grid_ok gutter (@replicate (list (GridItem T)) n []).
Proof.
  apply Forall_replicate. split; [apply no_overlap_nil|constructor].
Qed.

Lemma columns_consistent_fresh n :
  columns_consistent (@replicate (list (GridItem T)) n []).
Proof.
  intros c col x Hc Hx. apply lookup_replicate in Hc as [-> _].
  by apply elem_of_nil in Hx.
Qed.

(** Appends flag what they place as feed items. *)
Lemma placeItems_appended this colIdx itemIdx prev infos g g' :
  target colIdx itemIdx = None →
  Forall (Forall (λ x, appended x = true)) g →
  placeItems this colIdx itemIdx prev g infos = Some g' →
  Forall (Forall (λ x, appended x = true)) g'.
Proof.
  intros Htarget Hg. revert infos g g' Hg.
  apply (placeItems_preserves this colIdx itemIdx prev
           (λ g, Forall (Forall (λ x, appended x = true)) g)).
  intros g info g' Hg. rewrite placeItem_append by done.
  destruct (g !! getShortestColumn g) as [col|] eqn:Hcol; [|done].
  simpl. intros [= <-]. apply Forall_insert; [done|].
  apply Forall_app. split; [|by repeat constructor].
  by apply (Forall_lookup_1 _ _ _ _ Hg Hcol).
Qed.

(** What a completed [setGridItems] leaves behind. *)
Lemma setGridItems_Some this items r :
  setGridItems measure items this = Some r →
  reflowItems r.2 = items
  ∧ Forall (λ x, appended x = true) (allItems r.2)
  ∧ core <$> sort byKey (allItems r.2)
    = keyed (keyCounterOrOne (itemKeyCounter this)) items
  ∧ insertedItemsCount r.2 = length items
  ∧ itemKeyCounter r.2
    = Some (keyCounterOrOne (itemKeyCounter this) + length items)%nat
  ∧ length (gridItems r.2) = columnCount this
  ∧ columnCount r.2 = columnCount this
  ∧ grid_ok (gutterWidth this) (gridItems r.2)
  ∧ columns_consistent (gridItems r.2).
Proof.
  unfold setGridItems, bind, get, put. simpl.
  set (s := set_feed 0 (Some []) this). intros Hrun.
  destruct (insertItems_Some measure _ _ _ _ _ _ Hrun)
    as (Hplace & _ & Hcount & _ & Hcounter & Hinserted & _).
  change (startGrid s true) with (@replicate (list (GridItem T))
                                    (columnCount this) []) in Hplace.
  change (selectItems s items true) with items in Hcounter, Hinserted.
  change (itemKeyCounter s) with (itemKeyCounter this) in Hcounter.
  change (insertedItemsCount s) with 0%nat in Hinserted.
  change (columnCount s) with (columnCount this) in Hcount.
  set (infos := insertInfos measure s items None None true) in Hplace.
  assert (Hkeyed : (λ info, (key info, itemData info, true)) <$> infos
                   = keyed (keyCounterOrOne (itemKeyCounter this)) items).
  { unfold infos, insertInfos. by rewrite buildItemInfos_keyed. }
  assert (Hall : Forall (λ x, appended x = true) (allItems r.2)).
  { unfold allItems. apply Forall_join.
    eapply placeItems_appended; [| |exact Hplace]; [done|].
    apply Forall_replicate. constructor. }
  assert (Hfeed : feedCores (gridItems r.2)
                  = keyed (keyCounterOrOne (itemKeyCounter this)) items).
  { assert (Hsorted : StronglySorted key_lt
              (feedCores (@replicate (list (GridItem T)) (columnCount this) [])
               ++ ((λ info, (key info, itemData info, true)) <$> infos))).
    { rewrite feedCores_fresh, Hkeyed. apply keyed_sorted. }
    rewrite (placeItems_feed_append s None None _ infos eq_refl _ _
               Hsorted Hplace).
    by rewrite feedCores_fresh, Hkeyed. }
  assert (Hcores : core <$> sort byKey (allItems r.2)
                   = keyed (keyCounterOrOne (itemKeyCounter this)) items).
  { rewrite <- Hfeed. unfold feedCores, allItems.
    rewrite <- (sort_fmap core byKey byCoreKey) by done.
    rewrite filter_all; [done|].
    apply Forall_fmap. rewrite sort_perm. exact Hall. }
  split.
  { rewrite <- (feedOrder_all_appended _ Hall), feedOrder_cores, Hfeed.
    apply keyed_data. }
  split; [done|]. split; [done|].
  split; [done|]. split; [done|].
  split.
  { rewrite (placeItems_length _ _ _ _ _ _ _ Hplace). apply length_replicate. }
  split; [done|].
  assert (Hinv : grid_ok (gutterWidth this) (gridItems r.2)
                 ∧ valid_target None None (gridItems r.2)
                 ∧ previousItem (gridItems r.2) None None = None).
  { revert Hplace.
    apply (placeItems_preserves s None None _
             (λ g, grid_ok (gutterWidth this) g
                   ∧ valid_target None None g
                   ∧ previousItem g None None = None)).
    - apply (placeItem_grid_ok s None None None).
    - split; [apply grid_ok_fresh|]. by split. }
  split; [by destruct Hinv|].
  revert Hplace.
  apply (placeItems_preserves s None None _ columns_consistent).
  - apply placeItem_consistent.
  - apply columns_consistent_fresh.
Qed.

Lemma setGridItems_total this items :
  (0 < columnCount this)%nat →
  ∃ this', setGridItems measure items this = Some (tt, this').
Proof.
  intros Hcount. unfold setGridItems, bind, get, put. simpl.
  set (s := set_feed 0 (Some []) this).
  destruct (placeItems_total s None None
              (previousItem (startGrid s true) None None)
              (insertInfos measure s items None None true)
              (startGrid s true)) as [g2 Hplace].
  { right. by apply startGrid_nonempty. }
  by apply (insertItems_total measure _ _ _ _ _ g2).
Qed.
End Rebuild.

(** X9. [setGridItems], on a component with at least one column,
    completes and lays out exactly the given items, whatever the grid
    held before: the key order of the new grid lists them in the given
    order, every one is flagged as a feed item and takes the next key
    of the key counter, the feed position is the number of items, and
    the new grid has [columnCount] columns without overlap in which
    every item records its column. *)
Theorem setGridItems_rebuild :
  ∀ (T : Type) (measure : Z → T → Z * Z) (this : Masonry T) (items : list T),
    (0 < columnCount this)%nat →
    ∃ this',
      setGridItems measure items this = Some (tt, this')
      ∧ reflowItems this' = items
      ∧ Forall (λ x, appended x = true) (allItems this')
      ∧ core <$> sort byKey (allItems this')
        = keyed (keyCounterOrOne (itemKeyCounter this)) items
      ∧ insertedItemsCount this' = length items
      ∧ length (gridItems this') = columnCount this
      ∧ grid_ok (gutterWidth this) (gridItems this')
      ∧ columns_consistent (gridItems this').
Proof.
  intros T measure this items Hcount.
  destruct (setGridItems_total measure this items Hcount) as [this' Hrun].
  destruct (setGridItems_Some measure _ _ _ Hrun)
    as (Horder & Hall & Hcores & Hinserted & _ & Hlen & _ & Hok & Hcons).
  exists this'. split; [exact Hrun|]. by repeat split.
Qed.

Lemma setGridItems_rebuild_witness :
  let A := mkGridItem 1 1%nat 0 250 40 0 0 54 true in
  let B := mkGridItem (3 # 2) 2%nat 0 250 30 0 54 98 false in
  let this : Masonry nat :=
    mkMasonry 236 1 None None [[A; B]] 98 98 0 0 2 250 14 1 (Some 3%nat)
      [] None 0 0 in
  ∃ this',
    setGridItems (λ w _, (w, 20)) [5%nat; 6%nat; 7%nat] this = Some (tt, this')
    ∧ reflowItems this' = [5%nat; 6%nat; 7%nat]
    ∧ insertedItemsCount this' = 3%nat.
Proof.
  intros A B this.
  destruct (setGridItems_rebuild nat (λ w _, (w, 20)) this
              [5%nat; 6%nat; 7%nat])
    as (this' & Hrun & Horder & _ & _ & Hinserted & _); [simpl; lia|].
  exists this'. split; [exact Hrun|]. split; [exact Horder|exact Hinserted].
Defined.

(** X10. [reflow], on a component with at least one column, completes
    and rebuilds the grid from its own items: the key order of the
    items is the same before and after, the items are the same, their
    keys are renumbered 1, 2, ... in that order, every item (also one
    that was inserted as a related item) is flagged as a feed item
    afterwards, the feed position becomes the number of items in the
    grid, and the new grid is free of overlap. *)
Theorem reflow_keeps_order :
  ∀ (T : Type) (measure : Z → T → Z * Z) (this : Masonry T)
    (domHeight : double) (domOffset : option double),
    (0 < columnCount this)%nat →
    ∃ this',
      reflow measure domHeight domOffset this = Some (tt, this')
      ∧ reflowItems this' = reflowItems this
      ∧ itemData <$> allItems this' ≡ₚ itemData <$> allItems this
      ∧ core <$> sort byKey (allItems this') = keyed 1 (reflowItems this)
      ∧ Forall (λ x, appended x = true) (allItems this')
      ∧ insertedItemsCount this' = length (allItems this)
      ∧ itemKeyCounter this' = Some (S (length (allItems this)))
      ∧ length (gridItems this') = columnCount this
      ∧ grid_ok (gutterWidth this) (gridItems this').
Proof.
  intros T measure this domHeight domOffset Hcount.
  unfold reflow, measureContainer, bind, get, put. simpl.
  set (s := set_itemKeyCounter (Some 0%nat) (set_container _ _ this)).
  change (reflowItems (set_container _ _ this)) with (reflowItems this).
  assert (Hlen : length (reflowItems this) = length (allItems this)).
  { unfold reflowItems. by rewrite length_fmap, sort_perm. }
  destruct (setGridItems_total measure s (reflowItems this) Hcount)
    as [this' Hrun].
  destruct (setGridItems_Some measure _ _ _ Hrun)
    as (Horder & Hall & Hcores & Hinserted & Hcounter & Hcols & _ & Hok & _).
  simpl in *. exists this'. split; [exact Hrun|]. split; [done|].
  split.
  { transitivity (reflowItems this'); [|rewrite Horder];
      unfold reflowItems; by rewrite sort_perm. }
  split; [done|]. split; [done|]. split; [by rewrite Hinserted|].
  split; [by rewrite Hcounter, Hlen|]. by split.
Qed.

Lemma reflow_keeps_order_witness :
  let A := mkGridItem 1 1%nat 0 250 40 0 0 54 true in
  let B := mkGridItem (3 # 2) 2%nat 0 250 30 0 54 98 false in
  let C := mkGridItem 2 3%nat 1 250 30 250 0 44 true in
  let this : Masonry nat :=
    mkMasonry 236 1 None None [[A; B]; [C]] 98 98 0 0 3 200 14 2 (Some 3%nat)
      [] None 0 0 in
  ∃ this',
    reflow (λ w _, (w, 20)) 800 None this = Some (tt, this')
    ∧ reflowItems this' = [1%nat; 2%nat; 3%nat]
    ∧ insertedItemsCount this' = 3%nat.
Proof.
  intros A B C this.
  destruct (reflow_keeps_order nat (λ w _, (w, 20)) this 800 None)
    as (this' & Hrun & Horder & _ & _ & _ & Hinserted & _); [simpl; lia|].
  exists this'. split; [exact Hrun|]. split; [exact Horder|exact Hinserted].
Defined.

(** ** The feed loop *)

Section Drain.
Context {T : Type} (measure : Z → T → Z * Z).
Implicit Types (this s : Masonry T) (g : list (list (GridItem T))).

Lemma measuredInfos_app w counter (l1 l2 : list T) :
  measuredInfos measure w counter (l1 ++ l2)
  = measuredInfos measure w counter l1
    ++ measuredInfos measure w (counter + length l1) l2.
Proof.
  revert counter. induction l1 as [|d l1 IH]; intros counter; simpl.
  - by rewrite Nat.add_0_r.
  - rewrite IH. do 3 f_equal. lia.
Qed.

(** Feed items without a server-rendered size are measured. *)
Lemma buildItemInfos_measured this sizes prev (items : list T) n counter :
  (∀ k, sizes ≫= (λ l, l !! k) = None) →
  buildItemInfos measure this sizes None None prev items n counter
  = measuredInfos measure (itemWidth this) counter items.
Proof.
  intros Hsizes. revert n counter.
  induction items as [|d items IH]; intros n counter; [done|].
  simpl. rewrite IH. f_equal. unfold measuredInfo, itemSize.
  by rewrite Hsizes.
Qed.

(** A placement reads the item width and the gutter of the component
    only. *)
Lemma placeItem_ext this s colIdx itemIdx prev g info :
  itemWidth s = itemWidth this → gutterWidth s = gutterWidth this →
  placeItem s colIdx itemIdx prev g info
  = placeItem this colIdx itemIdx prev g info.
Proof. intros Hw Hg. unfold placeItem. by rewrite Hw, Hg. Qed.

Lemma placeItems_ext this s colIdx itemIdx prev infos :
  itemWidth s = itemWidth this → gutterWidth s = gutterWidth this →
  ∀ g, placeItems s colIdx itemIdx prev g infos
       = placeItems this colIdx itemIdx prev g infos.
Proof.
  intros Hw Hg. induction infos as [|info infos IH]; intros g; [done|].
  cbn [placeItems]. rewrite (placeItem_ext this s) by done.
  destruct (placeItem this colIdx itemIdx prev g info); [apply IH|done].
Qed.

Lemma placeItems_app this colIdx itemIdx prev infos1 infos2 : ∀ g g1,
  placeItems this colIdx itemIdx prev g infos1 = Some g1 →
  placeItems this colIdx itemIdx prev g (infos1 ++ infos2)
  = placeItems this colIdx itemIdx prev g1 infos2.
Proof.
  induction infos1 as [|info infos1 IH]; intros g g1.
  - by intros [= <-].
  - cbn [placeItems app].
    destruct (placeItem this colIdx itemIdx prev g info); [apply IH|done].
Qed.

Lemma insertItems_sizes this newItems colIdx itemIdx forceUpdate r :
  insertItems measure newItems colIdx itemIdx forceUpdate this = Some r →
  serverRefSizes r.2 = serverSizes this.
Proof.
  unfold insertItems, bind, get, put, throw.
  destruct (placeItems _ _ _ _ _ _) as [g2|]; [|done].
  destruct (columnHeights g2 0 None) as [h m]. by intros [= <-].
Qed.
End Drain.

Section DrainLoop.
Context {T : Type} (measure : Z → T → Z * Z).
Context (this : Masonry T) (items : list T).
Hypothesis Hcolumns : (0 < columnCount this)%nat.
Implicit Types (s : Masonry T).

Lemma drained_length j s :
  drained measure this items j s →
  length (startGrid s false) = columnCount this.
Proof.
  intros (_ & _ & _ & _ & _ & _ & _ & _ & Hplace).
  rewrite (placeItems_length _ _ _ _ _ _ _ Hplace). apply length_replicate.
Qed.

(** One round of the loop appends the next item. *)
Lemma insertNextItems_step j s :
  drained measure this items j s → (j < length items)%nat →
  ∃ s', insertNextItems measure items s = Some (tt, s')
        ∧ drained measure this items (S j) s'.
Proof.
  intros Hinv Hj. pose proof (drained_length j s Hinv) as Hlen.
  destruct Hinv as (Hcount & Hrefs & Hsizes & Hcounter & Hw & Hg & Hcols
                    & _ & Hplace).
  destruct (lookup_lt_is_Some_2 items j Hj) as [d Hd].
  unfold insertNextItems, bind, get. rewrite Hcount.
  replace (length items <=? j)%nat with false
    by (symmetry; apply Nat.leb_gt; lia).
  assert (Hsel : selectItems s (drop j items) false = [d]).
  { unfold selectItems. rewrite Hrefs. simpl.
    rewrite (drop_S items d j Hd). by destruct (drop (S j) items). }
  assert (Hserver : serverSizes s = None).
  { unfold serverSizes. by rewrite Hsizes, Hrefs. }
  assert (Hinfos : insertInfos measure s (drop j items) None None false
                   = [measuredInfo measure (itemWidth this)
                        (keyCounterOrOne (itemKeyCounter this) + j) d]).
  { unfold insertInfos. rewrite Hsel, Hserver.
    rewrite buildItemInfos_measured by done. simpl.
    by rewrite Hw, Hcounter. }
  destruct (placeItems_total s None None None
              (insertInfos measure s (drop j items) None None false)
              (startGrid s false)) as [g2 Hplace2].
  { right. intros Hnil. rewrite Hnil in Hlen. simpl in Hlen. lia. }
  destruct (insertItems_total measure s (drop j items) None None false g2
              Hplace2) as [s' Hrun].
  exists s'. split; [exact Hrun|].
  destruct (insertItems_Some measure _ _ _ _ _ _ Hrun)
    as (Hplace' & Hg' & Hcols' & Hw' & Hcounter' & Hcount' & Hrefs').
  pose proof (insertItems_sizes measure _ _ _ _ _ _ Hrun) as Hsizes'.
  destruct (insertItems_heights measure _ _ _ _ _ _ Hrun) as (Hheight' & _).
  rewrite Hsel in Hcounter', Hcount'.
  cbn [snd length] in Hplace', Hg', Hcols', Hw', Hcounter', Hcount', Hrefs',
    Hsizes', Hheight'.
  change (previousItem (startGrid s false) None None)
    with (@None (GridItem T)) in Hplace'.
  rewrite Hplace2 in Hplace'. injection Hplace' as ->.
  assert (Hne : gridItems s' ≠ []).
  { intros Hnil.
    pose proof (placeItems_length _ _ _ _ _ _ _ Hplace2) as Hlen2.
    rewrite Hnil, Hlen in Hlen2. simpl in Hlen2. lia. }
  unfold drained. split; [lia|]. split; [congruence|].
  split; [congruence|].
  split.
  { rewrite Hcounter', Hcounter.
    replace (keyCounterOrOne (itemKeyCounter this) + j + 1)%nat
      with (S (keyCounterOrOne (itemKeyCounter this) + j)) by lia.
    simpl. lia. }
  split; [congruence|]. split; [congruence|]. split; [congruence|].
  split.
  { right. split; [done|]. split; [done|]. rewrite Hcounter', Hcounter.
    f_equal. lia. }
  rewrite (take_S_r items j d Hd), measuredInfos_app.
  rewrite (placeItems_app _ _ _ _ _ _ _ _ Hplace).
  rewrite length_take_le by lia. cbn [measuredInfos].
  rewrite Hinfos in Hplace2.
  rewrite (placeItems_ext this s) in Hplace2 by done.
  rewrite Hplace2. f_equal. unfold startGrid.
  by destruct (gridItems s').
Qed.

(** Enough rounds append all items; further rounds change nothing. *)
Lemma drain_all fuel : ∀ j s,
  drained measure this items j s → (j <= length items)%nat →
  (length items <= j + fuel)%nat →
  ∃ s', drain measure fuel items s = Some (tt, s')
        ∧ drained measure this items (length items) s'.
Proof.
  induction fuel as [|fuel IH]; intros j s Hinv Hj Hfuel.
  - exists s. split; [done|].
    by replace (length items) with j by lia.
  - cbn [drain]. unfold bind at 1.
    destruct (decide (j < length items)%nat) as [Hlt|Hge].
    + destruct (insertNextItems_step j s Hinv Hlt) as (s1 & -> & Hinv1).
      apply (IH (S j)); [done|lia|lia].
    + assert (j = length items) as -> by lia.
      unfold insertNextItems, bind, get, ret.
      destruct Hinv as (Hcount & Hrest). rewrite Hcount, Nat.leb_refl.
      apply (IH (length items)); [by split|lia|lia].
Qed.

Lemma setGridItems_heights r :
  setGridItems measure items this = Some r →
  gridHeight r.2 = (columnHeights (gridItems r.2) 0 None).1.
Proof.
  unfold setGridItems, bind, get, put. simpl. intros Hrun.
  by destruct (insertItems_heights measure _ _ _ _ _ _ Hrun).
Qed.

(** The whole batch placed at once by a forced rebuild. *)
Lemma setGridItems_measured r :
  setGridItems measure items this = Some r →
  placeItems this None None None (replicate (columnCount this) [])
    (measuredInfos measure (itemWidth this)
       (keyCounterOrOne (itemKeyCounter this)) items)
  = Some (gridItems r.2).
Proof.
  unfold setGridItems, bind, get, put. simpl.
  set (s := set_feed 0 (Some []) this). intros Hrun.
  destruct (insertItems_Some measure _ _ _ _ _ _ Hrun) as (Hplace & _).
  rewrite (placeItems_ext this s) in Hplace by done.
  unfold insertInfos in Hplace.
  rewrite buildItemInfos_measured in Hplace by done.
  exact Hplace.
Qed.
End DrainLoop.

(** X11. On a freshly constructed component (empty grid, feed position
    0, no server-rendered refs) with at least one column, [updateItems]
    followed by enough rounds of the [insertNextItems] loop, each
    appending one item of a non-empty item list, completes and arrives
    at the very grid that a single [setGridItems] call with the whole
    list builds: the same GridItems in the same columns, the same grid
    height, feed position and key counter. *)
Theorem feed_loop_rebuild :
  ∀ (T : Type) (measure : Z → T → Z * Z) (this : Masonry T)
    (items : list T) (fuel : nat),
    gridItems this = [] → insertedItemsCount this = 0%nat →
    serverRefs this = [] → serverRefSizes this = None →
    (0 < columnCount this)%nat → items ≠ [] →
    (length items <= S fuel)%nat →
    ∃ r1 r2,
      bind (updateItems measure (Some items))
        (λ _, drain measure fuel items) this = Some (tt, r1)
      ∧ setGridItems measure items this = Some (tt, r2)
      ∧ gridItems r1 = gridItems r2
      ∧ gridHeight r1 = gridHeight r2
      ∧ insertedItemsCount r1 = length items
      ∧ insertedItemsCount r2 = length items
      ∧ itemKeyCounter r1 = itemKeyCounter r2.
Proof.
  intros T measure this items fuel Hgrid Hcount Hrefs Hsizes Hcolumns Hne
    Hfuel.
  assert (Hinv : drained measure this items 0 this).
  { unfold drained. do 7 (split; [done || lia|]).
    split; [by left|]. simpl. unfold startGrid. by rewrite Hgrid. }
  assert (Hfirst : bind (updateItems measure (Some items))
                     (λ _, drain measure fuel items) this
                   = drain measure (S fuel) items this).
  { cbn [drain]. unfold updateItems, insertNextItems, get.
    unfold bind. rewrite Hcount. by destruct items. }
  destruct (drain_all measure this items Hcolumns (S fuel) 0 this Hinv)
    as (r1 & Hrun1 & Hinv1); [lia|lia|].
  destruct (setGridItems_total measure this items Hcolumns) as [r2 Hrun2].
  pose proof (setGridItems_measured measure this items _ Hrun2) as Hplace2.
  destruct (setGridItems_Some measure _ _ _ Hrun2)
    as (_ & _ & _ & Hcount2 & Hcounter2 & _).
  destruct Hinv1 as (Hcount1 & _ & _ & Hcounter1 & _ & _ & _ & Hnonempty
                     & Hplace1).
  rewrite firstn_all in Hplace1. simpl in Hplace2, Hcount2, Hcounter2.
  assert (Hgrids : gridItems r1 = gridItems r2).
  { rewrite Hplace1 in Hplace2. injection Hplace2 as <-.
    destruct Hnonempty as [Hzero|(Hnonempty & _)].
    - destruct items; [done|discriminate].
    - unfold startGrid. by destruct (gridItems r1). }
  exists r1, r2. split; [by rewrite Hfirst|]. split; [done|].
  split; [done|].
  destruct Hnonempty as [Hzero|(_ & Hheight1 & Hcounter1')].
  { destruct items; [done|discriminate]. }
  pose proof (setGridItems_heights measure _ _ _ Hrun2) as Hheight2.
  simpl in Hheight2.
  split; [by rewrite Hheight1, Hheight2, Hgrids|].
  split; [done|]. split; [done|]. by rewrite Hcounter1', Hcounter2.
Qed.

Lemma feed_loop_rebuild_witness :
  let this : Masonry nat :=
    mkMasonry 236 1 None None [] 0 0 0 0 2 250 14 0 None [] None 0 0 in
  let measure := λ (w : Z) (d : nat), (w, 10 * Z.of_nat d) in
  ∃ r1 r2,
    bind (updateItems measure (Some [3%nat; 1%nat; 2%nat]))
      (λ _, drain measure 2 [3%nat; 1%nat; 2%nat]) this = Some (tt, r1)
    ∧ setGridItems measure [3%nat; 1%nat; 2%nat] this = Some (tt, r2)
    ∧ gridItems r1 = gridItems r2.
Proof.
  intros this measure.
  destruct (feed_loop_rebuild nat measure this [3%nat; 1%nat; 2%nat] 2)
    as (r1 & r2 & Hrun1 & Hrun2 & Hgrids & _);
    [reflexivity|reflexivity|reflexivity|reflexivity|simpl; lia|discriminate
    |simpl; lia|].
  exists r1, r2. split; [exact Hrun1|]. split; [exact Hrun2|exact Hgrids].
Defined.

(** ** Grouping the nearest items by column *)

Section Grouping.
Context {T : Type}.
Implicit Types (m : list Related) (cands : list Candidate).

Lemma mapping_add_columns c i m k :
  k ∈ columnIdx <$> mapping_add c i m ↔ k = c ∨ k ∈ columnIdx <$> m.
Proof.
  induction m as [|r m IH]; simpl.
  - rewrite list_elem_of_singleton, elem_of_nil. tauto.
  - destruct (Nat.eqb_spec (columnIdx r) c) as [Heq|Hne].
    + simpl. rewrite !elem_of_cons, Heq. tauto.
    + destruct (c <? columnIdx r)%nat; simpl.
      * rewrite !elem_of_cons. tauto.
      * rewrite !elem_of_cons, IH. tauto.
Qed.

Lemma mapping_add_sorted c i m :
  StronglySorted lt (columnIdx <$> m) →
  StronglySorted lt (columnIdx <$> mapping_add c i m).
Proof.
  induction m as [|r m IH]; simpl; intros Hsorted.
  - repeat constructor.
  - inversion Hsorted as [|? ? Hm Hr]; subst.
    destruct (Nat.eqb_spec (columnIdx r) c) as [Heq|Hne]; [by constructor|].
    destruct (Nat.ltb_spec c (columnIdx r)) as [Hlt|Hge].
    + simpl. constructor; [done|]. constructor; [done|].
      eapply Forall_impl; [exact Hr|]. simpl. lia.
    + simpl. constructor; [by apply IH|].
      apply Forall_forall. intros k Hk.
      apply mapping_add_columns in Hk as [->|Hk]; [lia|].
      by apply (proj1 (Forall_forall _ _) Hr).
Qed.

Lemma mapping_add_sum c i m :
  sum_list (count <$> mapping_add c i m) = S (sum_list (count <$> m)).
Proof.
  induction m as [|r m IH]; [done|]. cbn [mapping_add].
  destruct (columnIdx r =? c)%nat; [simpl; lia|].
  destruct (c <? columnIdx r)%nat; [done|].
  rewrite !fmap_cons. simpl. simpl in IH. rewrite IH. lia.
Qed.

(** The entries after one round: the others untouched, the entry of
    column [c] counted up, or started at item [i] when there was
    none. *)
Lemma mapping_add_elem c i m r' :
  StronglySorted lt (columnIdx <$> m) →
  r' ∈ mapping_add c i m →
  (r' ∈ m ∧ columnIdx r' ≠ c)
  ∨ (columnIdx r' = c
     ∧ ((∃ r, r ∈ m ∧ columnIdx r = c ∧ itemIdx r' = itemIdx r
              ∧ count r' = (count r + 1)%nat)
        ∨ ((∀ r, r ∈ m → columnIdx r ≠ c)
           ∧ itemIdx r' = i ∧ count r' = 1%nat))).
Proof.
  induction m as [|r m IH]; simpl; intros Hsorted Hin.
  - apply list_elem_of_singleton in Hin as ->. right. split; [done|].
    right. split; [|done]. intros r Hr. by apply elem_of_nil in Hr.
  - inversion Hsorted as [|? ? Hm Hr]; subst.
    assert (Hgt : ∀ r0, r0 ∈ m → (columnIdx r < columnIdx r0)%nat).
    { intros r0 Hr0. apply (proj1 (Forall_forall _ _) Hr).
      by apply list_elem_of_fmap_2. }
    destruct (Nat.eqb_spec (columnIdx r) c) as [Heq|Hne].
    + apply elem_of_cons in Hin as [->|Hin].
      * right. split; [done|]. left. exists r. split; [left|]. done.
      * left. split; [by right|]. specialize (Hgt r' Hin). lia.
    + destruct (Nat.ltb_spec c (columnIdx r)) as [Hlt|Hge].
      * apply elem_of_cons in Hin as [->|Hin].
        -- right. split; [done|]. right. split; [|done].
           intros r0 Hr0. apply elem_of_cons in Hr0 as [->|Hr0]; [lia|].
           specialize (Hgt r0 Hr0). lia.
        -- left. split; [done|].
           apply elem_of_cons in Hin as [->|Hin]; [lia|].
           specialize (Hgt r' Hin). lia.
      * apply elem_of_cons in Hin as [->|Hin].
        -- left. split; [left|]. done.
        -- destruct (IH Hm Hin) as [[Hin' Hne']|[Heq' [Hold|[Hnew Hvals]]]].
           ++ left. split; [by right|done].
           ++ right. split; [done|]. left.
              destruct Hold as (r0 & Hr0 & Hrest). exists r0.
              split; [by right|done].
           ++ right. split; [done|]. right. split; [|done].
              intros r0 Hr0. apply elem_of_cons in Hr0 as [->|Hr0]; [done|].
              by apply Hnew.
Qed.

Lemma grouped_step cands m c :
  grouped cands m →
  grouped (cands ++ [c]) (mapping_add (cand_columnIdx c) (cand_itemIdx c) m).
Proof.
  intros (Hsorted & Hcols & Hentries). split; [|split].
  - by apply mapping_add_sorted.
  - intros c' Hc'. apply mapping_add_columns.
    apply elem_of_app in Hc' as [Hc'|Hc'].
    + right. by apply Hcols.
    + apply list_elem_of_singleton in Hc' as ->. by left.
  - intros r' Hr'. rewrite filter_app, length_app.
    destruct (mapping_add_elem _ _ _ _ Hsorted Hr')
      as [[Hin Hne]|[Heq [(r & Hr & Hcol & Hidx & Hcount)|(Hnew & Hidx & Hcount)]]].
    + destruct (Hentries r' Hin) as (Hcount & pre & c0 & post & -> & Hrest).
      split.
      * rewrite filter_cons_False by done. rewrite filter_nil. simpl. lia.
      * exists pre, c0, (post ++ [c]). split; [|done].
        by rewrite <- app_assoc.
    + destruct (Hentries r Hr) as (Hcount' & pre & c0 & post & -> & Hc0 & Hi0
                                   & Hpre).
      rewrite Heq, <- Hcol in *. split.
      * rewrite Hcount, Hcount', (filter_cons_True _ c) by congruence.
        rewrite filter_nil. simpl. by rewrite Hcol.
      * exists pre, c0, (post ++ [c]). rewrite <- app_assoc.
        split; [done|]. split; [congruence|]. split; [congruence|done].
    + assert (Hnone : Forall (λ c', cand_columnIdx c' ≠ columnIdx r') cands).
      { apply Forall_forall. intros c' Hc' Hcol.
        apply Hcols in Hc'. apply list_elem_of_fmap in Hc' as (r & Hr1 & Hr2).
        apply (Hnew r Hr2). congruence. }
      split.
      * rewrite Hcount, (filter_cons_True _ c) by done. rewrite filter_nil.
        assert (filter (λ c0, cand_columnIdx c0 = columnIdx r') cands = [])
          as ->; [|done].
        clear -Hnone. induction Hnone as [|c' l Hc' Hl IH]; [done|].
        by rewrite filter_cons_False.
      * exists cands, c, []. done.
Qed.

Lemma foldl_grouped cands : ∀ done m,
  grouped done m →
  grouped (done ++ cands)
    (foldl (λ m c, mapping_add (cand_columnIdx c) (cand_itemIdx c) m) m cands)
  ∧ sum_list (count <$> foldl (λ m c,
                mapping_add (cand_columnIdx c) (cand_itemIdx c) m) m cands)
    = (sum_list (count <$> m) + length cands)%nat.
Proof.
  induction cands as [|c cands IH]; intros done m Hgrouped; simpl.
  - rewrite app_nil_r. split; [done|lia].
  - destruct (IH (done ++ [c]) _ (grouped_step _ _ c Hgrouped)) as [Hg Hsum].
    rewrite <- app_assoc in Hg. split; [done|].
    rewrite Hsum, mapping_add_sum. lia.
Qed.

(** What the two nested loops collect: items of the grid that do not
    start more than 20 above the requester, the requester left out. *)
Lemma relatedCandidates_spec (this : Masonry T) (colIdx iIdx : Z) itemA :
  Forall (λ c, ∃ col x,
            gridItems this !! cand_columnIdx c = Some col
            ∧ col !! cand_itemIdx c = Some x
            ∧ top itemA - 20 <= top x
            ∧ ¬ (colIdx = Z.of_nat (cand_columnIdx c)
                 ∧ iIdx = Z.of_nat (cand_itemIdx c))
            ∧ cand_distance c = calculateDistance this itemA x)
    (relatedCandidates this colIdx iIdx itemA).
Proof.
  apply Forall_forall. intros x Hx. unfold relatedCandidates in Hx.
  apply list_elem_of_join in Hx as (l & Hx & Hl).
  apply elem_of_lookup_imap_1 in Hl as (c & col & -> & Hc).
  apply list_elem_of_omap in Hx as ([j b] & Hjb & Hsome).
  apply elem_of_lookup_imap_1 in Hjb as (j' & b' & [= -> ->] & Hj).
  exists col, b'.
  destruct (Z.ltb_spec (top b') (top itemA - 20)) as [Hlt|Hge]; [done|].
  destruct (Z.eqb_spec colIdx (Z.of_nat c)) as [Hc1|Hc1];
    destruct (Z.eqb_spec iIdx (Z.of_nat j')) as [Hc2|Hc2];
    simpl in Hsome; try done; injection Hsome as <-; simpl;
    repeat split; try done; intros [? ?]; done.
Qed.
End Grouping.

Section GroupingResult.
Context {T : Type}.

Lemma grouped_nil : grouped [] [].
Proof.
  split; [constructor|]. split.
  - intros c Hc. by apply elem_of_nil in Hc.
  - intros r Hr. by apply elem_of_nil in Hr.
Qed.

Lemma grouped_count cands m :
  grouped cands m → Forall (λ r, (1 <= count r)%nat) m.
Proof.
  intros (_ & _ & Hentries). apply Forall_forall. intros r Hr.
  destruct (Hentries r Hr) as (-> & pre & c & post & -> & Hc & _).
  rewrite filter_app, (filter_cons_True _ c) by done.
  rewrite length_app. simpl. lia.
Qed.

Lemma groupByColumn_spec noItems (allItems : list Candidate) :
  grouped (take noItems allItems) (groupByColumn noItems allItems)
  ∧ sum_list (count <$> groupByColumn noItems allItems)
    = length (take noItems allItems).
Proof.
  unfold groupByColumn.
  destruct (foldl_grouped (take noItems allItems) [] [] grouped_nil)
    as [Hgrouped Hsum].
  split; [exact Hgrouped|]. rewrite Hsum. done.
Qed.

(** The array that [getItemsRelatedTo] groups: empty without the
    requester, else the candidates in the order of the sort. *)
Lemma getItemsRelatedTo_run (this : Masonry T) (colIdx iIdx : Z) noItems :
  ∃ allItems,
    getItemsRelatedTo colIdx iIdx noItems this
    = Some (groupByColumn noItems allItems, this)
    ∧ match at_index (gridItems this) colIdx
              ≫= (λ col, at_index col iIdx) with
      | None => allItems = []
      | Some itemA => allItems ≡ₚ relatedCandidates this colIdx iIdx itemA
      end
    ∧ Forall (λ c, ∃ itemA col x,
                at_index (gridItems this) colIdx ≫= (λ col, at_index col iIdx)
                = Some itemA
                ∧ gridItems this !! cand_columnIdx c = Some col
                ∧ col !! cand_itemIdx c = Some x
                ∧ top itemA - 20 <= top x
                ∧ ¬ (colIdx = Z.of_nat (cand_columnIdx c)
                     ∧ iIdx = Z.of_nat (cand_itemIdx c))
                ∧ cand_distance c = calculateDistance this itemA x)
        allItems.
Proof.
  unfold getItemsRelatedTo, bind, get, ret.
  destruct (at_index (gridItems this) colIdx ≫= _) as [itemA|].
  - eexists. split; [reflexivity|]. split; [apply sort_perm|].
    rewrite sort_perm.
    eapply Forall_impl; [apply relatedCandidates_spec|].
    intros c (col & x & H). by exists itemA, col, x.
  - exists []. unfold groupByColumn. rewrite take_nil.
    split; [done|]. split; [done|constructor].
Qed.
End GroupingResult.


(** ** The order of the candidates *)

Section SortOn.
Context {A : Type} (cmp : A → A → comparison).
Context (P : A → Prop) (R : relation A).
Context (R_le : ∀ x y, P x → P y → cmp x y ≠ Gt → R x y).
Context (R_gt : ∀ x y, P x → P y → cmp x y = Gt → R y x).
Context (R_trans : ∀ x y z, P x → P y → P z → R x y → R y z → R x z).

Lemma sort_insert_sorted_on x l :
  P x → Forall P l → StronglySorted R l →
  StronglySorted R (sort_insert cmp x l).
Proof.
  intros Hx HP Hsorted. induction Hsorted as [|y l Hl IH Hy]; simpl.
  - repeat constructor.
  - inversion HP as [|? ? HPy HPl]; subst.
    assert (Hle : cmp x y ≠ Gt → StronglySorted R (x :: y :: l)).
    { intros Hcmp. constructor; [by constructor|]. constructor.
      - by apply R_le.
      - apply Forall_forall. intros z Hz.
        apply (R_trans x y z); [done|done| |by apply R_le|].
        + by apply (proj1 (Forall_forall _ _) HPl).
        + by apply (proj1 (Forall_forall _ _) Hy). }
    destruct (cmp x y) eqn:Hcmp; [by apply Hle|by apply Hle|].
    constructor; [by apply IH|].
    rewrite sort_insert_perm. constructor; [by apply R_gt|done].
Qed.

Lemma sort_sorted_on l : Forall P l → StronglySorted R (sort cmp l).
Proof.
  induction 1 as [|x l Hx Hl IH]; simpl; [constructor|].
  apply sort_insert_sorted_on; [done| |done]. by rewrite sort_perm.
Qed.
End SortOn.

Section Distances.
Context {T : Type}.

Lemma jsnum_compare_le a b :
  ordered_distance a → ordered_distance b →
  jsnum_compare a b ≠ Gt ↔ distance_le a b.
Proof.
  destruct a as [x|x| |], b as [y|y| |]; simpl; try done; intros Ha Hb.
  - destruct (Qle_bool 0 x) eqn:Hx.
    + apply Qle_bool_iff in Hx. rewrite <- Qle_alt.
      split; [by right|]. intros [Hneg|H]; [lra|done].
    + split; [|done]. intros _. left.
      apply Qnot_le_lt. intros Hle. apply Qle_bool_iff in Hle. congruence.
  - destruct (Qle_bool 0 y) eqn:Hy.
    + apply Qle_bool_iff in Hy. rewrite <- Qle_alt. tauto.
    + split; [done|]. intros [Hle _]. apply Qle_bool_iff in Hle. congruence.
Qed.

Lemma distance_le_trans a b c :
  ordered_distance a → ordered_distance b → ordered_distance c →
  distance_le a b → distance_le b c → distance_le a c.
Proof.
  destruct a as [x|x| |], b as [y|y| |], c as [z|z| |]; simpl; try done;
    intros Ha Hb Hc Hab Hbc.
  - lra.
  - destruct Hbc as [Hneg|Hsq].
    + left. lra.
    + destruct (Qlt_le_dec x 0) as [Hx|Hx]; [by left|right]. nra.
  - destruct Hab as [Hneg|Hsq]; destruct Hbc as [Hz Hyz]; nra.
  - destruct Hab as [Hneg|Hsq]; [by left|right; lra].
  - destruct Hab as [Hy Hxy]. split; [lra|nra].
  - destruct Hab as [Hy Hxy]. destruct Hbc as [Hneg|Hsq]; [lra|lra].
  - destruct Hbc as [Hz Hyz]. split; [done|lra].
  - lra.
Qed.

Lemma distance_le_total a b :
  ordered_distance a → ordered_distance b →
  distance_le a b ∨ distance_le b a.
Proof.
  destruct a as [x|x| |], b as [y|y| |]; simpl; try done; intros Ha Hb;
    try (by left); try (by right).
  - destruct (Qlt_le_dec x y); [left|right]; lra.
  - destruct (Qlt_le_dec x 0) as [Hx|Hx]; [by left; left|].
    destruct (Qlt_le_dec y (x * x)); [right|left; right]; [split|]; lra.
  - destruct (Qlt_le_dec y 0) as [Hy|Hy]; [by right; left|].
    destruct (Qlt_le_dec x (y * y)); [left; split|right; right]; lra.
  - destruct (Qlt_le_dec x y); [left|right]; lra.
Qed.

(** A distance is a rational, [Infinity], [NaN], or the root of a
    number that is not negative. *)
Lemma calculateDistance_ordered (this : Masonry T) (A B : GridItem T) :
  calculateDistance this A B ≠ NaN →
  ordered_distance (calculateDistance this A B).
Proof.
  assert (Hsqrt : ∀ a b, ordered_distance (distance a b)).
  { intros a b. unfold distance. cbv zeta. simpl.
    change 0%Q with (inject_Z 0). rewrite <- Zle_Qle.
    pose proof (Z.square_nonneg (a.1 - b.1)).
    pose proof (Z.square_nonneg (a.2 - b.2)). lia. }
  unfold calculateDistance.
  destruct (column A =? column B)%nat; [by destruct (top A <? top B)|].
  destruct (_ || _).
  - destruct (height A =? 0); [by destruct (top A =? top B)|done].
  - intros _. destruct (top A <? top B), (left A <? left B); apply Hsqrt.
Qed.

(** The sort puts candidates without a [NaN] distance in ascending
    order of distance. *)
Lemma sort_candidates_sorted (cands : list Candidate) :
  Forall (λ c, ordered_distance (cand_distance c)) cands →
  StronglySorted not_farther
    (sort (λ a b, jsnum_compare (cand_distance a) (cand_distance b)) cands).
Proof.
  apply (sort_sorted_on _ (λ c, ordered_distance (cand_distance c))).
  - by intros x y _ _.
  - intros x y Hx Hy Hcmp. unfold not_farther.
    apply jsnum_compare_le; [done|done|].
    destruct (distance_le_total _ _ Hx Hy) as [Hle|Hle]; [|done].
    apply jsnum_compare_le in Hle; [|done|done]. by rewrite Hcmp in Hle.
  - intros x y z Hx Hy Hz. unfold not_farther.
    rewrite !jsnum_compare_le by done. by apply distance_le_trans.
Qed.
End Distances.

(** X20. When no candidate of [getItemsRelatedTo] is at a [NaN]
    distance from the requester, which holds whenever the requester's
    height is not 0, the candidate array it groups is in ascending
    order of distance: no entry comes before one that the comparator
    puts in front of it, so that the entries the grouping takes, the
    first [noItems], are the nearest ones, no entry left out being
    nearer than one taken. *)
Theorem getItemsRelatedTo_nearest :
  ∀ (T : Type) (this : Masonry T) (colIdx iIdx : Z) (noItems : nat)
    (itemA : GridItem T),
    at_index (gridItems this) colIdx ≫= (λ col, at_index col iIdx)
    = Some itemA →
    (height itemA ≠ 0 →
     Forall (λ c, cand_distance c ≠ NaN)
       (relatedCandidates this colIdx iIdx itemA))
    ∧ (Forall (λ c, cand_distance c ≠ NaN)
         (relatedCandidates this colIdx iIdx itemA) →
       ∃ allItems,
         getItemsRelatedTo colIdx iIdx noItems this
         = Some (groupByColumn noItems allItems, this)
         ∧ allItems ≡ₚ relatedCandidates this colIdx iIdx itemA
         ∧ StronglySorted not_farther allItems
         ∧ ∀ a b, a ∈ take noItems allItems → b ∈ drop noItems allItems →
                  not_farther a b).
Proof.
  intros T this colIdx iIdx noItems itemA HA.
  pose proof (relatedCandidates_spec this colIdx iIdx itemA) as Hspec.
  split.
  - intros Hheight. eapply Forall_impl; [exact Hspec|].
    intros c (col & x & _ & _ & _ & _ & ->). unfold calculateDistance.
    destruct (column itemA =? column x)%nat;
      [by destruct (top itemA <? top x)|].
    destruct (_ || _).
    + by destruct (Z.eqb_spec (height itemA) 0).
    + by destruct (top itemA <? top x), (left itemA <? left x).
  - intros Hnan.
    assert (Hordered : Forall (λ c, ordered_distance (cand_distance c))
                         (relatedCandidates this colIdx iIdx itemA)).
    { apply Forall_forall. intros c Hc.
      pose proof (proj1 (Forall_forall _ _) Hnan c Hc) as Hc1.
      destruct (proj1 (Forall_forall _ _) Hspec c Hc)
        as (col & x & _ & _ & _ & _ & Hd).
      simpl in Hc1. rewrite Hd in Hc1 |- *.
      by apply calculateDistance_ordered. }
    pose proof (sort_candidates_sorted _ Hordered) as Hsorted.
    eexists. split.
    { unfold getItemsRelatedTo, bind, get, ret. rewrite HA. reflexivity. }
    split; [apply sort_perm|]. split; [exact Hsorted|].
    intros a b Ha Hb.
    rewrite <- (take_drop noItems (sort _ _)) in Hsorted.
    apply StronglySorted_app in Hsorted as (Hcross & _ & _).
    by apply Hcross.
Qed.

Lemma getItemsRelatedTo_nearest_witness :
  let item d c t b :=
    mkGridItem (inject_Z (Z.of_nat d)) d c 250 (b - t - 14) (250 * Z.of_nat c)
      t b true in
  let this : Masonry nat :=
    mkMasonry 236 3 None None
      [[item 1%nat 0%nat 0 64; item 4%nat 0%nat 64 158];
       [item 2%nat 1%nat 0 74; item 5%nat 1%nat 74 178];
       [item 3%nat 2%nat 0 84; item 6%nat 2%nat 84 198]]
      198 158 0 0 3 250 14 6 (Some 7%nat) [] None 0 0 in
  ∃ allItems,
    getItemsRelatedTo 0 0 3 this = Some (groupByColumn 3 allItems, this)
    ∧ StronglySorted not_farther allItems.
Proof.
  intros item this.
  destruct (getItemsRelatedTo_nearest nat this 0 0 3 (item 1%nat 0%nat 0 64)
              eq_refl) as [Hheight Hnearest].
  destruct (Hnearest (Hheight ltac:(discriminate)))
    as (allItems & Hrun & _ & Hsorted & _).
  exists allItems. split; [exact Hrun|exact Hsorted].
Defined.

(** ** What handleAddRelatedItems adds *)

Section RelatedData.
Context {T : Type} (measure : Z → T → Z * Z).
Implicit Types (this : Masonry T) (items : list T).

Lemma chunkHeads_length counts : ∀ items,
  Forall (λ n, (1 <= n)%nat) counts →
  (sum_list counts <= length items)%nat →
  length (chunkHeads counts items) = length counts.
Proof.
  induction counts as [|n counts IH]; intros items Hpos Hsum; [done|].
  inversion Hpos as [|? ? Hn Hrest]; subst. simpl in Hsum |- *.
  rewrite length_app, length_take, IH; [lia|done|].
  rewrite length_drop. lia.
Qed.

(** Without pending server-rendered refs a call takes the first item
    of its batch only. *)
Lemma selectItems_first this items n :
  (length (serverRefs this) <= insertedItemsCount this)%nat →
  (1 <= n)%nat →
  selectItems this (take n items) false = take 1 items.
Proof.
  intros Hrefs Hn. unfold selectItems.
  replace (insertedItemsCount this <? length (serverRefs this))%nat
    with false by (symmetry; apply Nat.ltb_ge; lia).
  rewrite andb_false_r. unfold MAX_ITEMS_PER_INSERTION.
  destruct n as [|n]; [lia|].
  destruct items as [|d [|d' items]]; destruct n; done.
Qed.

Lemma insertRelated_data rs : ∀ items this,
  (length (serverRefs this) <= insertedItemsCount this)%nat →
  Forall (related_valid (gridItems this)) rs →
  Forall (λ r, (1 <= count r)%nat) rs →
  ∃ this',
    insertRelated measure rs items this = Some (tt, this')
    ∧ itemData <$> mjoin (gridItems this')
      ≡ₚ (itemData <$> mjoin (gridItems this))
         ++ chunkHeads (count <$> rs) items
    ∧ insertedItemsCount this' = insertedItemsCount this
    ∧ length (gridItems this') = length (gridItems this).
Proof.
  induction rs as [|rel rs IH]; intros items this Hrefs Hvalid Hpos.
  - exists this. split; [done|]. simpl. by rewrite app_nil_r.
  - inversion Hvalid as [|? ? Hrel Hrest]; subst.
    inversion Hpos as [|? ? Hcount Hpos']; subst.
    assert (Hne : gridItems this ≠ []).
    { destruct Hrel as (col & Hc & _). intros Hg. by rewrite Hg in Hc. }
    assert (Hstart : startGrid this false = gridItems this).
    { unfold startGrid. by destruct (gridItems this). }
    destruct (placeItems_total this (Some (columnIdx rel)) (Some (itemIdx rel))
                (previousItem (startGrid this false) (Some (columnIdx rel))
                   (Some (itemIdx rel)))
                (insertInfos measure this (take (count rel) items)
                   (Some (columnIdx rel)) (Some (itemIdx rel)) false)
                (startGrid this false)) as [g2 Hplace]; [by left|].
    destruct (insertItems_total measure _ _ _ _ _ _ Hplace) as [this1 Hrun].
    destruct (insertItems_Some measure _ _ _ _ _ _ Hrun)
      as (Hplace' & _ & _ & _ & _ & Hinserted & Hrefs1).
    pose proof (insertItems_grows measure this _ _ _ _ Hne Hrun) as Hgrows.
    cbn [snd] in Hplace', Hinserted, Hrefs1, Hgrows.
    pose proof (placeItems_data _ _ _ _ _ _ _ Hplace') as Hdata.
    pose proof (placeItems_length _ _ _ _ _ _ _ Hplace') as Hlen.
    rewrite Hstart in Hdata, Hlen.
    assert (Hplaced : placed_items (Some (columnIdx rel)) (Some (itemIdx rel))
                        (gridItems this)
                        (itemData <$> insertInfos measure this
                           (take (count rel) items) (Some (columnIdx rel))
                           (Some (itemIdx rel)) false)
                      = take 1 items).
    { unfold placed_items, insertInfos. simpl.
      destruct Hrel as (col & Hc & _). apply lookup_lt_Some in Hc.
      rewrite decide_True by done.
      rewrite buildItemInfos_data. by apply selectItems_first. }
    rewrite Hplaced in Hdata.
    destruct (IH (drop (count rel) items) this1)
      as (this' & Hrun' & Hdata' & Hinserted' & Hlen'); [| |done|].
    { rewrite Hrefs1, Hinserted. done. }
    { eapply Forall_impl; [exact Hrest|].
      intros r'. by apply related_valid_grows. }
    exists this'. split.
    { cbn [insertRelated]. unfold bind at 1. by rewrite Hrun. }
    split.
    { rewrite Hdata', Hdata, fmap_cons. cbn [chunkHeads].
      by rewrite <- app_assoc. }
    split; [congruence|congruence].
Qed.
End RelatedData.

(** X13. [handleAddRelatedItems], for a requester whose column exists
    and while no server-rendered refs are pending, completes and adds
    exactly one item per entry that [getItemsRelatedTo] returns: the
    first item of each successive chunk of [count] items, the other
    items of a chunk being dropped.  The feed position and the number
    of columns stay as they are.  When the requester's column does not
    exist the call throws. *)
Theorem handleAddRelatedItems_adds :
  ∀ (T : Type) (measure : Z → T → Z * Z) (this : Masonry T)
    (column_ : nat) (itemIndex : Z) (items : list T),
    (gridItems this !! column_ = None →
     handleAddRelatedItems measure column_ itemIndex items this = None)
    ∧ (is_Some (gridItems this !! column_) →
       (length (serverRefs this) <= insertedItemsCount this)%nat →
       ∃ rs this',
         getItemsRelatedTo (Z.of_nat column_) itemIndex (length items) this
         = Some (rs, this)
         ∧ handleAddRelatedItems measure column_ itemIndex items this
           = Some (tt, this')
         ∧ itemData <$> allItems this'
           ≡ₚ (itemData <$> allItems this)
              ++ chunkHeads (count <$> rs) items
         ∧ length (allItems this')
           = (length (allItems this) + length rs)%nat
         ∧ insertedItemsCount this' = insertedItemsCount this
         ∧ length (gridItems this') = length (gridItems this)).
Proof.
  intros T measure this column_ itemIndex items. split.
  { intros Hnone. unfold handleAddRelatedItems, bind, get. by rewrite Hnone. }
  intros [col Hcol] Hrefs.
  destruct (getItemsRelatedTo_run this (Z.of_nat column_) itemIndex
              (length items)) as (cands & Hrelated & _).
  pose proof (getItemsRelatedTo_valid _ _ _ _ _ _ Hrelated) as [_ Hvalid].
  set (rs := groupByColumn (length items) cands) in *.
  assert (Hshape : Forall (λ r, (1 <= count r)%nat) rs
                   ∧ (sum_list (count <$> rs) <= length items)%nat).
  { destruct (groupByColumn_spec (length items) cands)
      as [Hgrouped Hsum].
    split; [by eapply grouped_count|].
    fold rs in Hsum. rewrite Hsum, length_take. lia. }
  destruct Hshape as [Hpos Hsum].
  destruct (insertRelated_data measure rs items this Hrefs Hvalid Hpos)
    as (this' & Hrun & Hdata & Hinserted & Hlen).
  exists rs, this'. split; [done|]. split.
  { unfold handleAddRelatedItems, bind at 1, get. rewrite Hcol.
    unfold bind. by rewrite Hrelated. }
  split; [done|]. split; [|done].
  unfold allItems.
  rewrite <- (length_fmap itemData (mjoin (gridItems this'))), Hdata.
  rewrite length_app, length_fmap, chunkHeads_length;
    rewrite ?length_fmap; [done| |done].
  by apply Forall_fmap.
Qed.

Lemma handleAddRelatedItems_adds_witness :
  let A := mkGridItem 1 1%nat 0 250 40 0 0 54 true in
  let B := mkGridItem 2 2%nat 0 250 30 0 54 98 true in
  let this : Masonry nat :=
    mkMasonry 236 1 None None [[A; B]] 98 98 0 0 1 250 14 2 (Some 3%nat)
      [] None 0 0 in
  ∃ rs this',
    getItemsRelatedTo 0 0 3 this = Some (rs, this)
    ∧ handleAddRelatedItems (λ w _, (w, 20)) 0 0 [7%nat; 8%nat; 9%nat] this
      = Some (tt, this')
    ∧ length (allItems this') = (2 + length rs)%nat.
Proof.
  intros A B this.
  destruct (handleAddRelatedItems_adds nat (λ w _, (w, 20)) this 0 0
              [7%nat; 8%nat; 9%nat]) as [_ Hadds].
  destruct Hadds as (rs & this' & Hrelated & Hrun & _ & Hlen & _);
    [by eexists|simpl; lia|].
  exists rs, this'. split; [exact Hrelated|]. split; [exact Hrun|exact Hlen].
Defined.

(** ** Filling the grid from the top *)

Section TopFilled.
Context {T : Type} (measure : Z → T → Z * Z).
Implicit Types (this : Masonry T) (g : list (list (GridItem T))).

(** The column [getShortestColumn] picks ends no lower than any
    other. *)
Lemma shortest_bottom g col :
  (∀ col', col' ∈ g → 0 <= bottomOr0 (last col')) →
  g !! getShortestColumn g = Some col →
  ∀ col', col' ∈ g → bottomOr0 (last col) <= bottomOr0 (last col').
Proof.
  intros Hpos Hcol col' Hcol'.
  destruct (decide (Forall (λ c, c ≠ []) g)) as [Hall|Hex].
  - assert (Hne : g ≠ []) by (intros ->; by apply elem_of_nil in Hcol').
    destruct (getShortestColumn_least g Hne Hall)
      as (_ & lastr & Hr & Hleast).
    rewrite Hcol in Hr. simpl in Hr. rewrite Hr.
    apply list_elem_of_lookup in Hcol' as [j Hj].
    destruct (last col') as [lastj|] eqn:Hlast.
    + destruct (Hleast j lastj) as [Hle _]; [by eapply lookup_lt_Some| |done].
      by rewrite Hj.
    + apply last_None in Hlast. subst col'.
      exfalso. by apply (Forall_lookup_1 _ _ _ _ Hall Hj).
  - apply not_Forall_Exists in Hex; [|intros c; apply _].
    apply Exists_exists in Hex as (c & Hc & Hempty).
    assert (c = []) as -> by (destruct c; [done|by exfalso; apply Hempty]).
    destruct (first_empty_column g Hc) as (k & Hk & Hfirst).
    rewrite (getShortestColumn_first_empty g k Hk Hfirst), Hk in Hcol.
    injection Hcol as <-. by apply Hpos.
Qed.

(** One append keeps the grid filled from the top. *)
Lemma placeItem_top_filled this k g info g' :
  top_filled k g →
  key info = inject_Z (Z.of_nat k) →
  0 <= height info + gutterWidth this →
  placeItem this None None None g info = Some g' →
  top_filled (S k) g'.
Proof.
  intros (Hends & Horder & Hkeys & Hpos & Htops) Hkey Hheight.
  rewrite placeItem_append by done.
  destruct (g !! getShortestColumn g) as [col|] eqn:Hcol; [|done].
  simpl. intros [= <-].
  set (c := getShortestColumn g) in *.
  set (z := placedItem this c (bottomOr0 (last col)) true info).
  pose proof (shortest_bottom g col Hpos Hcol) as Hshortest.
  assert (Hc : (c < length g)%nat) by (by eapply lookup_lt_Some).
  assert (Hcolin : col ∈ g) by (by eapply list_elem_of_lookup_2).
  assert (Hlast : bottomOr0 (last (col ++ [z])) = bottom z).
  { by rewrite last_snoc. }
  assert (Hz : top z <= bottom z) by (simpl; lia).
  assert (Htop : top z = bottomOr0 (last col)) by done.
  assert (Hcols : ∀ col', col' ∈ <[c := col ++ [z]]> g →
            col' = col ++ [z] ∨ col' ∈ g).
  { intros col' Hin. apply list_elem_of_lookup in Hin as [j Hj].
    apply list_lookup_insert_Some in Hj as [(_ & <- & _)|[_ Hj]]; [by left|].
    right. by eapply list_elem_of_lookup_2. }
  assert (Hitems : ∀ x, x ∈ mjoin (<[c := col ++ [z]]> g) →
            x = z ∨ x ∈ mjoin g).
  { intros x Hx. apply list_elem_of_join in Hx as (col' & Hx & Hin).
    destruct (Hcols col' Hin) as [->|Hin'].
    - apply elem_of_app in Hx as [Hx|Hx].
      + right. apply list_elem_of_join. by exists col.
      + left. by apply list_elem_of_singleton in Hx.
    - right. apply list_elem_of_join. by exists col'. }
  assert (Hold : ∀ x, x ∈ mjoin g → top x <= top z).
  { intros x Hx. apply list_elem_of_join in Hx as (col' & Hx & Hin).
    rewrite Htop. by apply (Hends col' x col). }
  split; [|split; [|split; [|split]]].
  - intros col1 x col2 Hcol1 Hx Hcol2.
    assert (Hx' : x = z ∨ x ∈ mjoin g).
    { apply Hitems, list_elem_of_join. by exists col1. }
    destruct (Hcols col2 Hcol2) as [->|Hin2].
    + rewrite Hlast. destruct Hx' as [->|Hx']; [done|].
      specialize (Hold x Hx'). lia.
    + destruct Hx' as [->|Hx'].
      * rewrite Htop. by apply Hshortest.
      * apply list_elem_of_join in Hx' as (col0 & Hx0 & Hin0).
        by apply (Hends col0 x col2).
  - intros x y Hx Hy Hlt.
    destruct (Hitems x Hx) as [->|Hx'], (Hitems y Hy) as [->|Hy'].
    + lia.
    + exfalso. specialize (Hkeys y Hy'). change (key z) with (key info) in Hlt.
      rewrite Hkey in Hlt. by apply (Qlt_irrefl (key y)), (Qlt_trans _ _ _ Hkeys).
    + by apply Hold.
    + by apply Horder.
  - intros x Hx. destruct (Hitems x Hx) as [->|Hx'].
    + change (key z) with (key info). rewrite Hkey, <- Zlt_Qlt. lia.
    + eapply Qlt_trans; [by apply Hkeys|]. rewrite <- Zlt_Qlt. lia.
  - intros col' Hin. destruct (Hcols col' Hin) as [->|Hin'].
    + rewrite Hlast. specialize (Hpos col Hcolin). lia.
    + by apply Hpos.
  - intros x Hx. destruct (Hitems x Hx) as [->|Hx'].
    + rewrite Htop. by apply Hpos.
    + by apply Htops.
Qed.

Lemma placeItems_top_filled this w (items : list T) : ∀ k g g',
  top_filled k g →
  Forall (λ d, 0 <= (measure w d).2 + gutterWidth this) items →
  placeItems this None None None g (measuredInfos measure w k items)
  = Some g' →
  top_filled (k + length items) g'.
Proof.
  induction items as [|d items IH]; intros k g g' Hfilled Hheights.
  - intros [= <-]. by rewrite Nat.add_0_r.
  - inversion Hheights as [|? ? Hd Hrest]; subst.
    cbn [measuredInfos placeItems].
    destruct (placeItem this None None None g (measuredInfo measure w k d))
      as [g1|] eqn:Hplace; [|done].
    intros Hrun. cbn [length].
    replace (k + S (length items))%nat with (S k + length items)%nat by lia.
    apply (IH (S k) g1 g'); [|done|done].
    by apply (placeItem_top_filled this k g (measuredInfo measure w k d)).
Qed.

Lemma top_filled_fresh k n :
  top_filled k (@replicate (list (GridItem T)) n []).
Proof.
  assert (Hjoin : ∀ x : GridItem T, x ∈ mjoin (replicate n []) → False).
  { intros x Hx. apply list_elem_of_join in Hx as (col & Hx & Hcol).
    apply elem_of_replicate in Hcol as [-> _]. by apply elem_of_nil in Hx. }
  split; [|split; [|split; [|split]]].
  - intros col x col' Hcol Hx _.
    apply elem_of_replicate in Hcol as [-> _]. by apply elem_of_nil in Hx.
  - intros x y Hx. by destruct (Hjoin x).
  - intros x Hx. by destruct (Hjoin x).
  - intros col Hcol. by apply elem_of_replicate in Hcol as [-> _].
  - intros x Hx. by destruct (Hjoin x).
Qed.
End TopFilled.

(** X14. A grid rebuilt by [setGridItems] from items whose measured
    height plus the gutter is not negative is filled from the top: an
    item later in the list never starts higher than an earlier one
    (keys ascend with the list), and no item starts below the end of
    any column, so in particular none starts below what [renderHeight]
    reports. *)
Theorem setGridItems_top_filled :
  ∀ (T : Type) (measure : Z → T → Z * Z) (this : Masonry T) (items : list T),
    (0 < columnCount this)%nat →
    Forall (λ d, 0 <= (measure (itemWidth this) d).2 + gutterWidth this)
      items →
    ∃ this',
      setGridItems measure items this = Some (tt, this')
      ∧ (∀ x y, x ∈ allItems this' → y ∈ allItems this' →
           (key x < key y)%Q → top x <= top y)
      ∧ (∀ x col, x ∈ allItems this' → col ∈ gridItems this' →
           0 <= top x <= bottomOr0 (last col))
      ∧ (∀ x b, x ∈ allItems this' → renderHeight this' = Some b →
           top x <= b).
Proof.
  intros T measure this items Hcount Hheights.
  destruct (setGridItems_total measure this items Hcount) as [this' Hrun].
  pose proof (setGridItems_measured measure this items _ Hrun) as Hplace.
  simpl in Hplace.
  pose proof (placeItems_top_filled measure this _ items _ _ _
                (top_filled_fresh _ _) Hheights Hplace)
    as (Hends & Horder & _ & Hpos & Htops).
  assert (Htop : ∀ x col, x ∈ allItems this' → col ∈ gridItems this' →
            0 <= top x <= bottomOr0 (last col)).
  { intros x col Hx Hcol. split; [by apply Htops|]. unfold allItems in Hx.
    apply list_elem_of_join in Hx as (col0 & Hx & Hcol0).
    by apply (Hends col0 x col). }
  exists this'. split; [done|]. split; [done|]. split; [done|].
  intros x b Hx. unfold renderHeight.
  destruct (gridItems this' !! getShortestColumn (gridItems this'))
    as [col|] eqn:Hcol; [|done].
  destruct (last col) as [lastItem|] eqn:Hlast; [|done].
  intros [= <-].
  destruct (Htop x col Hx) as [_ Hle]; [by eapply list_elem_of_lookup_2|].
  by rewrite Hlast in Hle.
Qed.

Lemma setGridItems_top_filled_witness :
  let this : Masonry nat :=
    mkMasonry 236 1 None None [] 0 0 0 0 2 250 14 0 None [] None 0 0 in
  let measure := λ (w : Z) (d : nat), (w, 10 * Z.of_nat d) in
  ∃ this',
    setGridItems measure [3%nat; 1%nat; 2%nat] this = Some (tt, this')
    ∧ ∀ x y, x ∈ allItems this' → y ∈ allItems this' →
        (key x < key y)%Q → top x <= top y.
Proof.
  intros this measure.
  destruct (setGridItems_top_filled nat measure this [3%nat; 1%nat; 2%nat])
    as (this' & Hrun & Horder & _).
  - simpl. lia.
  - repeat constructor; simpl; lia.
  - exists this'. split; [exact Hrun|exact Horder].
Defined.

(** ** Distances across columns *)

(** X15. For two items of different columns [calculateDistance] is
    never negative when the first item has a positive height: it is a
    square root of a non-negative number when the vertical spans do not
    meet the tests of the code, and else a rational that is at least
    25 times the number of columns between the two.  It is [NaN] or
    [Infinity] only when the first item has height 0. *)
Theorem calculateDistance_other_column :
  ∀ (T : Type) (this : Masonry T) (A B : GridItem T),
    column A ≠ column B →
    match calculateDistance this A B with
    | Rat q =>
        0 < height A →
        (inject_Z ((Z.abs (Z.of_nat (column A) - Z.of_nat (column B)) - 1)
                   * 25) <= q)%Q
        ∧ (0 <= q)%Q
    | Sqrt q => (0 <= q)%Q
    | Infinity => height A = 0 ∧ top A ≠ top B
    | NaN => height A = 0 ∧ top A = top B
    end.
Proof.
  intros T this A B Hcol. unfold calculateDistance.
  replace (column A =? column B)%nat with false
    by (symmetry; by apply Nat.eqb_neq).
  assert (Hsqrt : ∀ a b, match distance a b with
                         | Sqrt q => (0 <= q)%Q
                         | _ => False
                         end).
  { intros a b. unfold distance. cbv zeta.
    change 0%Q with (inject_Z 0). rewrite <- Zle_Qle.
    pose proof (Z.square_nonneg (a.1 - b.1)).
    pose proof (Z.square_nonneg (a.2 - b.2)). lia. }
  destruct (_ || _).
  - destruct (Z.eqb_spec (height A) 0) as [Hzero|Hheight].
    + by destruct (Z.eqb_spec (top A) (top B)).
    + intros Hpos.
      set (cd := (Z.abs (Z.of_nat (column A) - Z.of_nat (column B)) - 1) * 25).
      assert (Hcd : 0 <= cd) by (unfold cd; lia).
      assert (Hfrac : (0 <= inject_Z (Z.abs (top A - top B))
                            / inject_Z (height A))%Q).
      { apply Qle_shift_div_l.
        - change 0%Q with (inject_Z 0). by rewrite <- Zlt_Qlt.
        - rewrite Qmult_0_l. change 0%Q with (inject_Z 0).
          rewrite <- Zle_Qle. lia. }
      assert (Hcd' : (0 <= inject_Z cd)%Q).
      { change 0%Q with (inject_Z 0). by rewrite <- Zle_Qle. }
      split; lra.
  - destruct (top A <? top B), (left A <? left B); apply Hsqrt.
Qed.

Lemma calculateDistance_other_column_witness :
  let A : GridItem nat := mkGridItem 1 1%nat 0 250 40 0 0 54 true in
  let B : GridItem nat := mkGridItem 2 2%nat 2 250 30 500 20 64 true in
  let this : Masonry nat :=
    mkMasonry 236 1 None None [[A]; []; [B]] 64 54 0 0 3 250 14 2
      (Some 3%nat) [] None 0 0 in
  column A ≠ column B
  ∧ ∃ q, calculateDistance this A B = Rat q ∧ (25 <= q)%Q.
Proof.
  intros A B this.
  assert (Hcol : column A ≠ column B) by (simpl; lia).
  split; [exact Hcol|].
  pose proof (calculateDistance_other_column nat this A B Hcol) as H.
  destruct (calculateDistance this A B) as [q| | |] eqn:Hd;
    try discriminate.
  exists q. split; [reflexivity|]. apply H. simpl. lia.
Defined.

(** ** Edge cases of updateItems *)

(** X16. [updateItems] does nothing without an item list and when the
    list is exactly as long as the feed position.  With a list shorter
    than the feed position it still calls [insertItems], with an empty
    batch: the call completes and places nothing (a grid without
    columns receives its [columnCount] empty columns), and the feed
    position is unchanged. *)
Theorem updateItems_edges :
  ∀ (T : Type) (measure : Z → T → Z * Z) (this : Masonry T),
    updateItems measure None this = Some (tt, this)
    ∧ (∀ items, length items = insertedItemsCount this →
         updateItems measure (Some items) this = Some (tt, this))
    ∧ (∀ items, (length items < insertedItemsCount this)%nat →
         ∃ this',
           updateItems measure (Some items) this = Some (tt, this')
           ∧ gridItems this' = startGrid this false
           ∧ insertedItemsCount this' = insertedItemsCount this
           ∧ itemKeyCounter this'
             = Some (keyCounterOrOne (itemKeyCounter this))).
Proof.
  intros T measure this. split; [done|]. split.
  - intros items Hlen. unfold updateItems, bind, get.
    by rewrite Hlen, Nat.eqb_refl.
  - intros items Hlen. unfold updateItems, bind, get.
    replace (length items =? insertedItemsCount this)%nat with false
      by (symmetry; apply Nat.eqb_neq; lia).
    rewrite drop_ge by lia.
    assert (Hsel : selectItems this [] false = []).
    { unfold selectItems. rewrite take_nil.
      by destruct (_ && _). }
    assert (Hplace : placeItems this None None
              (previousItem (startGrid this false) None None)
              (startGrid this false)
              (insertInfos measure this [] None None false)
            = Some (startGrid this false)).
    { unfold insertInfos. by rewrite Hsel. }
    destruct (insertItems_total measure _ _ _ _ _ _ Hplace) as [this' Hrun].
    destruct (insertItems_Some measure _ _ _ _ _ _ Hrun)
      as (Hplace' & _ & _ & _ & Hcounter & Hcount & _).
    rewrite Hplace in Hplace'. injection Hplace' as Hgrid.
    rewrite Hsel in Hcounter, Hcount. simpl in Hgrid, Hcounter, Hcount.
    exists this'. split; [exact Hrun|]. split; [done|].
    split; [lia|]. rewrite Hcounter. f_equal. lia.
Qed.

(** ** Server-rendered items *)

Section ServerRendered.
Context {T : Type} (measure : Z → T → Z * Z).
Implicit Types (this : Masonry T) (g : list (list (GridItem T))).

(** The items of the grid after appends: the former ones, and one per
    [itemInfo] with its key, data and size. *)
Lemma placeItems_append_items this infos : ∀ g g' x,
  placeItems this None None None g infos = Some g' →
  x ∈ mjoin g' →
  x ∈ mjoin g
  ∨ ∃ info, info ∈ infos ∧ key x = key info ∧ itemData x = itemData info
            ∧ width x = width info ∧ height x = height info.
Proof.
  induction infos as [|info infos IH]; intros g g' x.
  - intros [= <-]. by left.
  - cbn [placeItems]. rewrite placeItem_append by done.
    destruct (g !! getShortestColumn g) as [col|] eqn:Hcol; [|done].
    simpl. intros Hrun Hx.
    destruct (IH _ _ x Hrun Hx) as [Hold|(info' & Hin & Hrest)].
    + apply list_elem_of_join in Hold as (col' & Hx' & Hcol').
      apply list_elem_of_lookup in Hcol' as [j Hj].
      apply list_lookup_insert_Some in Hj as [(_ & <- & _)|[_ Hj]].
      * apply elem_of_app in Hx' as [Hx'|Hx'].
        -- left. apply list_elem_of_join. exists col. split; [done|].
           by eapply list_elem_of_lookup_2.
        -- apply list_elem_of_singleton in Hx' as ->.
           right. exists info. split; [left|done].
      * left. apply list_elem_of_join. exists col'. split; [done|].
        by eapply list_elem_of_lookup_2.
    + right. exists info'. split; [by right|done].
Qed.

(** The blobs of a feed batch: item [j] takes the key [counter + j]
    and the size found for feed position [n + j + insertedItemsCount]. *)
Lemma buildItemInfos_feed this sizes prev (items : list T) : ∀ n counter info,
  info ∈ buildItemInfos measure this sizes None None prev items n counter →
  ∃ j d, items !! j = Some d ∧ itemData info = d
         ∧ key info = inject_Z (Z.of_nat (counter + j))
         ∧ (width info, height info)
           = itemSize measure sizes (itemWidth this)
               (n + j + insertedItemsCount this) d.
Proof.
  induction items as [|d items IH]; intros n counter info Hin.
  - by apply elem_of_nil in Hin.
  - cbn [buildItemInfos] in Hin. apply elem_of_cons in Hin as [->|Hin].
    + exists 0%nat, d. rewrite !Nat.add_0_r. simpl.
      split; [done|]. split; [done|]. split; [done|].
      by destruct (itemSize _ _ _ _ _).
    + destruct (IH _ _ _ Hin) as (j & d' & Hj & Hd & Hkey & Hsize).
      exists (S j), d'. split; [done|]. split; [done|].
      split; [rewrite Hkey; do 2 f_equal; lia|].
      rewrite Hsize. f_equal. lia.
Qed.
End ServerRendered.

(** X17. While server-rendered refs are pending (the feed position is
    below their number) and their sizes have not been read yet, a feed
    append into a grid with columns takes as many items as refs are
    pending, not just one, and measures none of them: the items of the
    grid afterwards are the former ones plus the taken ones, and taken
    item [j] has the key [counter + j] and the size of the ref at feed
    position [insertedItemsCount + j].  The sizes of the refs are kept
    for later calls and the feed position advances by the number of
    taken items. *)
Theorem insertItems_server_batch :
  ∀ (T : Type) (measure : Z → T → Z * Z) (this : Masonry T)
    (newItems : list T),
    (insertedItemsCount this < length (serverRefs this))%nat →
    serverRefSizes this = None →
    startGrid this false ≠ [] →
    let taken :=
      take (length (serverRefs this) - insertedItemsCount this) newItems in
    ∃ this',
      insertItems measure newItems None None false this = Some (tt, this')
      ∧ itemData <$> allItems this'
        ≡ₚ (itemData <$> mjoin (startGrid this false)) ++ taken
      ∧ (∀ x, x ∈ allItems this' →
           x ∈ mjoin (startGrid this false)
           ∨ ∃ j d, taken !! j = Some d ∧ itemData x = d
                    ∧ key x = inject_Z (Z.of_nat
                                (keyCounterOrOne (itemKeyCounter this) + j))
                    ∧ serverRefs this !! (insertedItemsCount this + j)%nat
                      = Some (width x, height x))
      ∧ serverRefSizes this' = Some (serverRefs this)
      ∧ insertedItemsCount this'
        = (insertedItemsCount this + length taken)%nat.
Proof.
  intros T measure this newItems Hpending Hsizes Hne taken.
  assert (Hsel : selectItems this newItems false = taken).
  { unfold selectItems.
    replace (0 <? length (serverRefs this))%nat with true
      by (symmetry; apply Nat.ltb_lt; lia).
    by replace (insertedItemsCount this <? length (serverRefs this))%nat
      with true by (symmetry; by apply Nat.ltb_lt). }
  assert (Hserver : serverSizes this = Some (serverRefs this)).
  { unfold serverSizes. rewrite Hsizes.
    by replace (0 <? length (serverRefs this))%nat with true
      by (symmetry; apply Nat.ltb_lt; lia). }
  destruct (placeItems_total this None None
              (previousItem (startGrid this false) None None)
              (insertInfos measure this newItems None None false)
              (startGrid this false)) as [g2 Hplace]; [by right|].
  destruct (insertItems_total measure _ _ _ _ _ _ Hplace) as [this' Hrun].
  destruct (insertItems_Some measure _ _ _ _ _ _ Hrun)
    as (Hplace' & _ & _ & _ & _ & Hcount & _).
  pose proof (insertItems_sizes measure _ _ _ _ _ _ Hrun) as Hsizes'.
  cbn [snd] in Hplace', Hcount, Hsizes'.
  exists this'. split; [exact Hrun|]. split.
  { unfold allItems.
    rewrite (placeItems_data _ _ _ _ _ _ _ Hplace'). unfold placed_items.
    simpl. unfold insertInfos. by rewrite buildItemInfos_data, Hsel. }
  split.
  { intros x Hx. unfold allItems in Hx.
    destruct (placeItems_append_items this _ _ _ x Hplace' Hx)
      as [Hold|(info & Hin & Hkey & Hdata & Hwidth & Hheight)]; [by left|].
    right. unfold insertInfos in Hin. rewrite Hsel, Hserver in Hin.
    destruct (buildItemInfos_feed measure _ _ _ _ _ _ _ Hin)
      as (j & d & Hj & Hd & Hkey' & Hsize).
    exists j, d. split; [done|]. split; [congruence|].
    split; [congruence|].
    assert (Hlt : (insertedItemsCount this + j < length (serverRefs this))%nat).
    { apply lookup_lt_Some in Hj. unfold taken in Hj.
      rewrite length_take in Hj. lia. }
    destruct (lookup_lt_is_Some_2 _ _ Hlt) as [size Hsizej].
    unfold itemSize in Hsize. simpl in Hsize.
    replace (j + insertedItemsCount this)%nat
      with (insertedItemsCount this + j)%nat in Hsize by lia.
    rewrite Hsizej in Hsize. rewrite Hsizej, Hwidth, Hheight.
    by rewrite Hsize. }
  split; [by rewrite Hsizes', Hserver|]. by rewrite Hcount, Hsel.
Qed.

Lemma insertItems_server_batch_witness :
  let this : Masonry nat :=
    mkMasonry 236 1 None None [] 0 0 0 0 2 250 14 0 None
      [(250, 30); (250, 40)] None 0 0 in
  ∃ this',
    insertItems (λ w _, (w, 20)) [5%nat; 6%nat; 7%nat] None None false this
    = Some (tt, this')
    ∧ insertedItemsCount this' = 2%nat
    ∧ serverRefSizes this' = Some [(250, 30); (250, 40)].
Proof.
  intros this.
  destruct (insertItems_server_batch nat (λ w _, (w, 20)) this
              [5%nat; 6%nat; 7%nat])
    as (this' & Hrun & _ & _ & Hsizes & Hcount);
    [simpl; lia|reflexivity|discriminate|].
  exists this'. split; [exact Hrun|]. split; [exact Hcount|exact Hsizes].
Defined.
